(** * Route optimisation for a sensor-collecting vehicle (Lab-12, Task_3.py)

    A shallow embedding of the geometry helpers, the greedy nearest-neighbour
    optimiser and the genetic algorithm of [Task_3.py], and the properties of
    them that the design document states.

    Python floats are IEEE-754 binary64 numbers: they are modelled by Rocq's
    primitive floats, so that every definition below computes.  Python lists
    are mutable objects: the genetic algorithm is modelled over an explicit
    store of list objects, and every call of the [random] module reads the
    next draw from an explicit tape. *)

From Stdlib Require Import ZArith Floats Lia.
From stdpp Require Import base list sorting.

Local Open Scope Z_scope.

(** ** Python values, exceptions and results *)

Inductive exn : Type :=
  | IndexError
  | ValueError
  | ZeroDivisionError.

(** The result of running a piece of the program: a value, a raised
    exception, or [Stuck] when the model itself cannot go on (the tape of
    random draws is used up or holds a draw that the call cannot produce, or
    a loop ran out of fuel).  [Stuck] is not a behaviour of the program. *)
Inductive res (A : Type) : Type :=
  | Ok (a : A)
  | Raise (e : exn)
  | Stuck.
Arguments Ok {A} a.
Arguments Raise {A} e.
Arguments Stuck {A}.

Definition res_bind {A B} (m : res A) (k : A -> res B) : res B :=
  match m with
  | Ok a => k a
  | Raise e => Raise e
  | Stuck => Stuck
  end.

Declare Scope res_scope.
Delimit Scope res_scope with res.
Notation "'let*' x ':=' m 'in' k" := (res_bind m (fun x => k))
  (at level 10, x pattern, m at level 100, k at level 200) : res_scope.
Local Open Scope res_scope.

(** [l[i]] for a Python list: a negative index counts from the end, an index
    out of range raises [IndexError]. *)
Definition getitem {A} (l : list A) (i : Z) : res A :=
  let n := Z.of_nat (length l) in
  let j := if i <? 0 then i + n else i in
  if (0 <=? j) && (j <? n) then
    match l !! Z.to_nat j with
    | Some x => Ok x
    | None => Raise IndexError
    end
  else Raise IndexError.

(** [list(range(a, b))] *)
Definition range (a b : Z) : list Z :=
  map (fun k => a + Z.of_nat k) (seq 0 (Z.to_nat (b - a))).

(** [x in l] on a list of integers *)
Definition contains (l : list Z) (x : Z) : bool := existsb (Z.eqb x) l.

(** [l.remove(x)]: drops the first occurrence, [ValueError] when there is none. *)
Fixpoint list_remove (x : Z) (l : list Z) : res (list Z) :=
  match l with
  | [] => Raise ValueError
  | y :: t => if Z.eqb y x then Ok t
              else let* t' := list_remove x t in Ok (y :: t')
  end.

(** ** 1. Geometry helpers *)

Definition point : Type := (float * float)%type.

(** [euclidean_distance]; the squares [d**2] are taken as the correctly
    rounded products [d*d].  Python's float power is the C library's [pow],
    whose result may differ from the product in the last bit, and it raises
    [OverflowError] where the product of a finite [d] is infinite: there the
    function below has the value [infinity] and the program has none. *)
Definition euclidean_distance (p1 p2 : point) : float :=
  let dx := (fst p1 - fst p2)%float in
  let dy := (snd p1 - snd p2)%float in
  PrimFloat.sqrt (dx * dx + dy * dy)%float.

(** The body of the [for i in range(len(route) - 1)] loop. *)
Definition total_distance_step (route : list Z) (coordinates : list point)
    (distance : float) (i : Z) : res float :=
  let* r1 := getitem route i in
  let* p1 := getitem coordinates r1 in
  let* r2 := getitem route (i + 1) in
  let* p2 := getitem coordinates r2 in
  Ok (distance + euclidean_distance p1 p2)%float.

Fixpoint for_each {A S} (body : S -> A -> res S) (l : list A) (s : S) : res S :=
  match l with
  | [] => Ok s
  | x :: t => let* s' := body s x in for_each body t s'
  end.

(** [calculate_total_distance].  The early [return 0] gives the integer [0],
    which Python compares and divides like the float [0.0]; both are [0] here. *)
Definition calculate_total_distance (route : list Z) (coordinates : list point)
    : res float :=
  let n := Z.of_nat (length route) in
  if n <? 2 then Ok 0%float
  else
    let* distance :=
      for_each (total_distance_step route coordinates) (range 0 (n - 1)) 0%float in
    let* r0 := getitem route 0 in
    let* start_point := getitem coordinates r0 in
    let* rl := getitem route (-1) in
    let* end_point := getitem coordinates rl in
    Ok (distance + euclidean_distance end_point start_point)%float.

(** ** 2. Greedy nearest-neighbour optimiser *)

(** The inner [for neighbor in unvisited] scan.  [nearest_node] is [None]
    until some distance is below [min_distance], which starts at
    [float('inf')]. *)
Fixpoint nearest_scan (coordinates : list point) (current_node : Z)
    (unvisited : list Z) (nearest_node : option Z) (min_distance : float)
    : res (option Z * float) :=
  match unvisited with
  | [] => Ok (nearest_node, min_distance)
  | neighbor :: rest =>
      let* pc := getitem coordinates current_node in
      let* pn := getitem coordinates neighbor in
      let dist := euclidean_distance pc pn in
      if (dist <? min_distance)%float
      then nearest_scan coordinates current_node rest (Some neighbor) dist
      else nearest_scan coordinates current_node rest nearest_node min_distance
  end.

(** The [while unvisited] loop.  Every turn removes one node from
    [unvisited] or raises, so [length unvisited] turns are enough fuel.  When
    no distance was below infinity [nearest_node] is still [None], and
    [unvisited.remove(None)] raises [ValueError]. *)
Fixpoint greedy_loop (fuel : nat) (coordinates : list point) (current_node : Z)
    (unvisited route : list Z) : res (list Z) :=
  match unvisited with
  | [] => Ok route
  | _ :: _ =>
      match fuel with
      | O => Stuck
      | S fuel' =>
          let* (nearest_node, _) :=
            nearest_scan coordinates current_node unvisited None infinity in
          match nearest_node with
          | None => Raise ValueError
          | Some nn =>
              let* unvisited' := list_remove nn unvisited in
              greedy_loop fuel' coordinates nn unvisited' (route ++ [nn])
          end
      end
  end.

Definition greedy_route_optimizer (coordinates : list point) : res (list Z) :=
  let num_sensors := Z.of_nat (length coordinates) in
  let start_node := 0 in
  let unvisited := range 1 num_sensors in
  greedy_loop (length unvisited) coordinates start_node unvisited [start_node].

(** ** 3. Genetic algorithm *)

(** *** Slices *)

(** A slice bound as Python reads it on a list of length [n]: a negative
    bound counts from the end, and the bound is clamped to [0..n]. *)
Definition clamp (n : nat) (i : Z) : nat :=
  let j := if i <? 0 then i + Z.of_nat n else i in
  Z.to_nat (Z.min (Z.max j 0) (Z.of_nat n)).

(** [l[a:b]] *)
Definition slice {A} (l : list A) (a b : Z) : list A :=
  let a' := clamp (length l) a in
  let b' := clamp (length l) b in
  take (b' - a') (drop a' l).

(** [l[:b]] *)
Definition slice_to {A} (l : list A) (b : Z) : list A :=
  take (clamp (length l) b) l.

(** [l[a:b] = v]: the slice is replaced by [v], whatever the length of [v]. *)
Definition slice_assign {A} (l : list A) (a b : Z) (v : list A) : list A :=
  let a' := clamp (length l) a in
  let b' := Nat.max a' (clamp (length l) b) in
  take a' l ++ v ++ drop b' l.

(** [l[i] = x] *)
Definition setitem {A} (l : list A) (i : Z) (x : A) : res (list A) :=
  let n := Z.of_nat (length l) in
  let j := if i <? 0 then i + n else i in
  if (0 <=? j) && (j <? n) then Ok (<[Z.to_nat j := x]> l)
  else Raise IndexError.

(** *** Order crossover, for given slice bounds *)

(** The body of the [for i in range(num_sensors)] loop that fills the free
    places of [child] from [remaining]. *)
Definition fill_step (remaining : list Z) (st : list Z * Z) (i : Z)
    : res (list Z * Z) :=
  let '(child, current_pos) := st in
  let* c := getitem child i in
  if c =? -1 then
    let* x := getitem remaining current_pos in
    let* child' := setitem child i x in
    Ok (child', current_pos + 1)
  else Ok (child, current_pos).

(** [crossover] after its two [random.randint] draws gave [start] and [end_]. *)
Definition crossover_at (num_sensors : Z) (parent1 parent2 : list Z)
    (start end_ : Z) : res (list Z) :=
  let child := replicate (Z.to_nat num_sensors) (-1) in
  let child := slice_assign child start end_ (slice parent1 start end_) in
  let remaining :=
    filter (fun item => negb (contains (slice child start end_) item)) parent2 in
  let* (child, _) :=
    for_each (fill_step remaining) (range 0 num_sensors) (child, 0) in
  Ok child.

(** *** Fitness order: [sorted] and [max] *)

(** The float that Python reads [0.1] as. *)
Definition one_tenth : float := 0x1.999999999999ap-4%float.

(** A Python [int] as a float, for sizes below [2^63] in absolute value. *)
Definition float_of_Z (n : Z) : float :=
  if n <? 0 then (- PrimFloat.of_uint63 (Uint63.of_Z (- n)))%float
  else PrimFloat.of_uint63 (Uint63.of_Z n).

(** [int(f)]: a finite float truncated towards zero.  (On an infinity or a
    NaN Python raises; a product of a size and [0.1] is neither.) *)
Definition trunc (f : float) : Z :=
  match Prim2SF f with
  | S754_finite s m e =>
      let a := if 0 <=? e then Z.pos m * 2 ^ e else Z.pos m / 2 ^ (- e) in
      if s then - a else a
  | _ => 0
  end.

(** [int(population_size * 0.1)] *)
Definition elite_size_of (population_size : Z) : Z :=
  trunc (float_of_Z population_size * one_tenth)%float.

(** One step of a stable sort into descending key order, comparing with [<]
    only, as [list.sort] does: [x], which came before every member of [l],
    passes the members whose key is above its own. *)
Fixpoint insert_desc {A} (x : float * A) (l : list (float * A)) : list (float * A) :=
  match l with
  | [] => [x]
  | y :: t => if (fst x <? fst y)%float then y :: insert_desc x t else x :: l
  end.

(** [sorted(l, key=..., reverse=True)] on a list already paired with its
    keys.  Python's sort is stable and keeps, among equal keys, the order of
    the input also under [reverse=True]; where [<] orders the keys every
    stable sort gives this list. *)
Definition sorted_desc {A} (l : list (float * A)) : list (float * A) :=
  foldr insert_desc [] l.

(** [max(l, key=...)] on a non-empty list paired with its keys: the first
    member whose key no later key exceeds. *)
Definition max_by {A} (first : float * A) (rest : list (float * A)) : float * A :=
  fold_left (fun best x => if (fst best <? fst x)%float then x else best) rest first.

(** *** The store of list objects and the tape of random draws *)

Inductive draw : Type :=
  | DShuffle (order : list Z)     (* the order [random.shuffle] leaves *)
  | DChoices (picks : list nat)   (* the positions [random.choices] picks *)
  | DRandint (n : Z)              (* the value of [random.randint] *)
  | DRandom (u : float)           (* the value of [random.random] *)
  | DSample (i j : Z).            (* the pair [random.sample(range(n), 2)] gives *)

(** An individual is a Python list object, named by its position in [heap];
    a population is a list of such names, so that two populations can share
    an object. *)
Record state : Type := mkState {
  heap : list (list Z);
  tape : list draw
}.

Definition M (A : Type) : Type := state -> res (A * state).

Definition ret {A} (a : A) : M A := fun st => Ok (a, st).

Definition bind {A B} (m : M A) (k : A -> M B) : M B :=
  fun st => match m st with
            | Ok (a, st') => k a st'
            | Raise e => Raise e
            | Stuck => Stuck
            end.

Declare Scope ga_scope.
Delimit Scope ga_scope with ga.
Notation "'do!' x ':=' m 'in' k" := (bind m (fun x => k))
  (at level 10, x pattern, m at level 100, k at level 200) : ga_scope.

Definition lift {A} (r : res A) : M A :=
  fun st => match r with
            | Ok a => Ok (a, st)
            | Raise e => Raise e
            | Stuck => Stuck
            end.

Definition raise {A} (e : exn) : M A := fun _ => Raise e.
Definition stuck {A} : M A := fun _ => Stuck.

Definition alloc (l : list Z) : M nat :=
  fun st => Ok (length (heap st), mkState (heap st ++ [l]) (tape st)).

Definition load (r : nat) : M (list Z) :=
  fun st => match heap st !! r with
            | Some l => Ok (l, st)
            | None => Stuck
            end.

Definition store (r : nat) (l : list Z) : M unit :=
  fun st => Ok (tt, mkState (<[r := l]> (heap st)) (tape st)).

Definition next_draw : M draw :=
  fun st => match tape st with
            | d :: t => Ok (d, mkState (heap st) t)
            | [] => Stuck
            end.

Fixpoint mapM {A B} (f : A -> M B) (l : list A) : M (list B) :=
  match l with
  | [] => ret []
  | x :: t => bind (f x) (fun y => bind (mapM f t) (fun ys => ret (y :: ys)))
  end.

(** *** The calls of the [random] module *)

Local Open Scope ga_scope.

(** [random.randint(a, b)]: some [n] with [a <= n <= b]; [ValueError] on an
    empty range. *)
Definition randint (a b : Z) : M Z :=
  if b <? a then raise ValueError
  else
    do! d := next_draw in
    match d with
    | DRandint n => if (a <=? n) && (n <=? b) then ret n else stuck
    | _ => stuck
    end.

(** [random.random()]: some float in [[0, 1)]. *)
Definition random_random : M float :=
  do! d := next_draw in
  match d with
  | DRandom u => if ((0 <=? u) && (u <? 1))%float then ret u else stuck
  | _ => stuck
  end.

(** [random.sample(range(n), 2)]: two different members of [range(n)];
    [ValueError] when there are fewer than two. *)
Definition sample2 (n : Z) : M (Z * Z) :=
  if n <? 2 then raise ValueError
  else
    do! d := next_draw in
    match d with
    | DSample i j =>
        if (0 <=? i) && (i <? n) && (0 <=? j) && (j <? n) && negb (i =? j)
        then ret (i, j) else stuck
    | _ => stuck
    end.

(** [random.shuffle(l)] on the object [r]: it is left in some order of its
    own members. *)
Definition shuffle (r : nat) : M unit :=
  do! l := load r in
  do! d := next_draw in
  match d with
  | DShuffle order => if bool_decide (order ≡ₚ l) then store r order else stuck
  | _ => stuck
  end.

(** The positions a [random.choices] call may pick: [k] of them, all in
    range. *)
Definition picks_ok (n k : nat) (picks : list nat) : bool :=
  (length picks =? k)%nat && forallb (fun i => (i <? n)%nat) picks.

Definition pick {A} (population : list A) (picks : list nat) : list A :=
  omap (fun i => population !! i) picks.

(** [random.choices(population, k=k)] without weights. *)
Definition choices {A} (population : list A) (k : nat) : M (list A) :=
  match k, population with
  | O, _ => ret []
  | _, [] => raise IndexError
  | _, _ :: _ =>
      do! d := next_draw in
      match d with
      | DChoices picks =>
          if picks_ok (length population) k picks then ret (pick population picks)
          else stuck
      | _ => stuck
      end
  end.

(** [random.choices(population, weights=weights, k=k)]: the weights are
    summed from the left; the call raises [ValueError] when there are not as
    many weights as members, [IndexError] on an empty population, and
    [ValueError] when the total is not above zero or is not finite.  Which
    members the weights favour is left to the tape. *)
Definition choices_weighted {A} (population : list A) (weights : list float)
    (k : nat) : M (list A) :=
  if negb (length weights =? length population)%nat then raise ValueError
  else
    match weights with
    | [] => raise IndexError
    | w :: ws =>
        let total := (fold_left PrimFloat.add ws w + 0)%float in
        if (total <=? 0)%float then raise ValueError
        else if negb (is_finite total) then raise ValueError
        else
          match k with
          | O => ret []
          | S _ =>
              do! d := next_draw in
              match d with
              | DChoices picks =>
                  if picks_ok (length population) k picks
                  then ret (pick population picks) else stuck
              | _ => stuck
              end
          end
    end.

(** *** The genetic algorithm *)

Section GeneticAlgorithm.

Variable coordinates : list point.
Variable population_size : Z.
Variable mutation_rate : float.

Definition num_sensors : Z := Z.of_nat (length coordinates).

Definition create_individual : M nat :=
  do! route := alloc (range 0 num_sensors) in
  do! _ := shuffle route in
  ret route.

Definition create_population (size : Z) : M (list nat) :=
  mapM (fun _ => create_individual) (range 0 size).

(** [1 / calculate_total_distance(individual, coordinates)]; Python raises
    [ZeroDivisionError] when the divisor is [0], [0.0] or [-0.0]. *)
Definition fitness (individual : nat) : M float :=
  do! l := load individual in
  do! d := lift (calculate_total_distance l coordinates) in
  if (d =? 0)%float then raise ZeroDivisionError
  else ret (1 / d)%float.

Definition crossover (parent1 parent2 : nat) : M nat :=
  do! start := randint 0 (num_sensors - 1) in
  do! end_ := randint (start + 1) num_sensors in
  do! p1 := load parent1 in
  do! p2 := load parent2 in
  do! child := lift (crossover_at num_sensors p1 p2 start end_) in
  alloc child.

(** [mutate] swaps two places of the object it is given, in place, and
    returns that same object. *)
Definition mutate (individual : nat) (rate : float) : M nat :=
  do! u := random_random in
  if (u <? rate)%float then
    do! (idx1, idx2) := sample2 num_sensors in
    do! l := load individual in
    do! a := lift (getitem l idx2) in
    do! b := lift (getitem l idx1) in
    do! l1 := lift (setitem l idx1 a) in
    do! l2 := lift (setitem l1 idx2 b) in
    do! _ := store individual l2 in
    ret individual
  else ret individual.

Definition with_keys (population : list nat) : M (list (float * nat)) :=
  mapM (fun ind => do! f := fitness ind in ret (f, ind)) population.

(** [sorted(population, key=fitness, reverse=True)[:elite_size]] *)
Definition elite (population : list nat) : M (list nat) :=
  do! keyed := with_keys population in
  ret (slice_to (map snd (sorted_desc keyed)) (elite_size_of population_size)).

(** [max(population, key=fitness)] *)
Definition best_of (population : list nat) : M (float * nat) :=
  match population with
  | [] => raise ValueError
  | _ :: _ =>
      do! keyed := with_keys population in
      match keyed with
      | [] => stuck
      | first :: rest => ret (max_by first rest)
      end
  end.

(** The [while len(next_generation) < population_size] loop: every turn
    appends one child, so it runs [population_size - len(next_generation)]
    times, which is [turns]. *)
Fixpoint reproduce (turns : nat) (weighted_choices next_generation : list nat)
    : M (list nat) :=
  match turns with
  | O => ret next_generation
  | S turns' =>
      do! parents := choices weighted_choices 2 in
      match parents with
      | [parent1; parent2] =>
          do! child := crossover parent1 parent2 in
          do! child := mutate child mutation_rate in
          reproduce turns' weighted_choices (next_generation ++ [child])
      | _ => stuck
      end
  end.

(** The body of the [for generation in range(generations)] loop. *)
Definition generation_step (population : list nat) : M (list nat) :=
  do! fitnesses := mapM fitness population in
  do! weighted_choices :=
    choices_weighted population fitnesses (Z.to_nat population_size) in
  do! next_generation := elite population in
  reproduce (Z.to_nat (population_size - Z.of_nat (length next_generation)))
            weighted_choices next_generation.

Fixpoint evolve (generations : nat) (population : list nat) : M (list nat) :=
  match generations with
  | O => ret population
  | S g => do! next := generation_step population in evolve g next
  end.

Definition genetic_algorithm (generations : nat) : M (list Z) :=
  do! population := create_population population_size in
  do! population := evolve generations population in
  do! (_, best_individual) := best_of population in
  load best_individual.

End GeneticAlgorithm.

(** Running a piece of the algorithm on an empty store with a given tape. *)
Definition run {A} (m : M A) (t : list draw) : res A :=
  match m (mkState [] t) with
  | Ok (a, _) => Ok a
  | Raise e => Raise e
  | Stuck => Stuck
  end.

Definition square : list point :=
  [(0, 0); (10, 0); (10, 10); (0, 10)]%float.

(** ** The tour length as the design document words it *)

(** The consecutive pairs of a route. *)
Fixpoint consecutive_pairs (route : list Z) : list (Z * Z) :=
  match route with
  | a :: (b :: _) as t => (a, b) :: consecutive_pairs t
  | _ => []
  end.

(** Adding the length of one edge to a running sum. *)
Definition add_edge (coordinates : list point) (acc : float) (e : Z * Z)
    : res float :=
  let* p := getitem coordinates (fst e) in
  let* q := getitem coordinates (snd e) in
  Ok (acc + euclidean_distance p q)%float.

(** [tour_length], following the design document: the sum, from the left, of
    the distance over the consecutive pairs of the route, plus the edge from
    the last node back to the first; [0] for a route of fewer than two
    nodes. *)
Definition tour_length (route : list Z) (coordinates : list point) : res float :=
  match route with
  | [] | [_] => Ok 0%float
  | first :: _ =>
      for_each (add_edge coordinates)
               (consecutive_pairs route ++ [(List.last route first, first)])
               0%float
  end.

(** ** The filling of a child, by structure *)

(** What the filling loop of [crossover] leaves, read along the child rather
    than by index: every place that holds [-1] takes the next member of
    [remaining]; [None] when [remaining] runs out. *)
Fixpoint fill (child remaining : list Z) : option (list Z) :=
  match child with
  | [] => Some []
  | c :: t =>
      if c =? -1 then
        match remaining with
        | x :: r => cons x <$> fill t r
        | [] => None
        end
      else cons c <$> fill t remaining
  end.

(** ** Signs and order of floats *)

(** A float, read through its IEEE-754 description, that is a zero, a
    positive number or plus infinity. *)
Definition sf_nonneg (x : spec_float) : bool :=
  match x with
  | S754_zero _ => true
  | S754_infinity s => negb s
  | S754_nan => false
  | S754_finite s _ _ => negb s
  end.

Definition sf_is_nan (x : spec_float) : bool :=
  match x with
  | S754_nan => true
  | _ => false
  end.

(** Every distance between two of the coordinates is below infinity: none is
    infinite and none is a NaN. *)
Definition finite_distances (coordinates : list point) : bool :=
  forallb (fun p =>
    forallb (fun q => (euclidean_distance p q <? infinity)%float) coordinates)
    coordinates.

(** Every list object of the store is a permutation of [0 .. N-1]. *)
Definition heap_perms (coordinates : list point) (st : state) : Prop :=
  Forall (fun l => l ≡ₚ range 0 (num_sensors coordinates)) (heap st).

(** ** Fitness as a function of the store *)

(** [fitness] reads the store and changes nothing: its result is this
    function of the store alone. *)
Definition fitness_in (coordinates : list point) (h : list (list Z)) (ind : nat)
    : res float :=
  match h !! ind with
  | None => Stuck
  | Some l =>
      let* d := calculate_total_distance l coordinates in
      if (d =? 0)%float then Raise ZeroDivisionError else Ok (1 / d)%float
  end.

Fixpoint keys_in (coordinates : list point) (h : list (list Z))
    (population : list nat) : res (list (float * nat)) :=
  match population with
  | [] => Ok []
  | ind :: rest =>
      let* f := fitness_in coordinates h ind in
      let* keyed := keys_in coordinates h rest in
      Ok ((f, ind) :: keyed)
  end.

(** ** A population of ten tours of the square *)

Definition ten_tours : list (list Z) :=
  [[0; 2; 1; 3]; [0; 1; 3; 2]; [1; 0; 2; 3]; [0; 1; 2; 3]; [2; 0; 1; 3];
   [3; 1; 2; 0]; [1; 2; 3; 0]; [2; 3; 0; 1]; [3; 0; 2; 1]; [1; 3; 0; 2]].

Definition ten_population : list nat := seq 0 10.

(** The draws of one generation on that population: the weighted pool, and
    for each of the nine children its two parents, its slice bounds and its
    mutation draw (with the two places to swap when the mutation fires). *)
Definition ten_tape : list draw :=
  [DChoices [3; 3; 0; 1; 2; 4; 5; 6; 7; 8]%nat;
   DChoices [0; 1]%nat; DRandint 1; DRandint 3; DRandom 0.75;
   DChoices [2; 3]%nat; DRandint 0; DRandint 2; DRandom 0.25; DSample 1 2;
   DChoices [4; 5]%nat; DRandint 2; DRandint 4; DRandom 0.75;
   DChoices [6; 7]%nat; DRandint 3; DRandint 4; DRandom 0.75;
   DChoices [8; 9]%nat; DRandint 0; DRandint 4; DRandom 0.25; DSample 0 3;
   DChoices [1; 1]%nat; DRandint 1; DRandint 2; DRandom 0.75;
   DChoices [9; 0]%nat; DRandint 0; DRandint 1; DRandom 0.75;
   DChoices [5; 2]%nat; DRandint 2; DRandint 3; DRandom 0.75;
   DChoices [7; 4]%nat; DRandint 1; DRandint 4; DRandom 0.75]%float.

Definition ten_state : state := mkState ten_tours ten_tape.

Definition ten_step : res (list nat * state) :=
  generation_step square 10 0.5 ten_population ten_state.

Definition ten_next : list nat :=
  Eval vm_compute in match ten_step with Ok (next, _) => next | _ => [] end.

Definition ten_state' : state :=
  Eval vm_compute in match ten_step with Ok (_, st') => st' | _ => ten_state end.

(** ** Order of keyed individuals *)

(** [x] is at least as fit as [y]. *)
Definition key_ge {A} (x y : float * A) : Prop :=
  (fst y <=? fst x)%float = true.

(** No key of the list is a NaN. *)
Definition keys_ordered {A} (l : list (float * A)) : Prop :=
  Forall (fun kr => is_nan (fst kr) = false) l.

(** The fittest of the ten, before and after the step. *)
Definition ten_best : float * nat :=
  Eval vm_compute in
    match best_of square ten_population ten_state with
    | Ok (b, _) => b
    | _ => (0%float, 0%nat)
    end.

Definition ten_best' : float * nat :=
  Eval vm_compute in
    match best_of square ten_next ten_state' with
    | Ok (b, _) => b
    | _ => (0%float, 0%nat)
    end.

(** ** A population of two tours of the square *)

(** Both individuals are the tour [0, 1, 2, 3] of length 40; both children
    of the generation are mutated into the tour [0, 2, 1, 3]. *)
Definition two_state : state :=
  mkState [[0; 1; 2; 3]; [0; 1; 2; 3]]
          [DChoices [0; 1]%nat;
           DChoices [0; 1]%nat; DRandint 0; DRandint 2; DRandom 0.25; DSample 1 2;
           DChoices [1; 0]%nat; DRandint 1; DRandint 3; DRandom 0.25; DSample 1 2]%float.

Definition two_population : list nat := [0; 1]%nat.

Definition two_step : res (list nat * state) :=
  generation_step square 2 0.5 two_population two_state.

Definition two_next : list nat :=
  Eval vm_compute in match two_step with Ok (next, _) => next | _ => [] end.

Definition two_state' : state :=
  Eval vm_compute in match two_step with Ok (_, st') => st' | _ => two_state end.

(** ** The elite size as the design document words it *)

(** [ceil(f)] on a float. *)
Definition ceil (f : float) : Z :=
  match Prim2SF f with
  | S754_finite s m e =>
      if 0 <=? e then (if s then - (Z.pos m * 2 ^ e) else Z.pos m * 2 ^ e)
      else
        let q := Z.pos m / 2 ^ (- e) in
        if s then - q
        else if Z.pos m mod 2 ^ (- e) =? 0 then q else q + 1
  | _ => 0
  end.

(** The design document's [ceil(population_size * 0.1)]. *)
Definition elite_size_spec (population_size : Z) : Z :=
  ceil (float_of_Z population_size * one_tenth)%float.

(** ** A population of five tours of the square *)

Definition five_population : list nat := seq 0 5.

Definition five_state : state :=
  mkState (take 5 ten_tours)
          [DChoices [3; 3; 0; 1; 2]%nat;
           DChoices [0; 1]%nat; DRandint 1; DRandint 3; DRandom 0.75;
           DChoices [2; 3]%nat; DRandint 0; DRandint 2; DRandom 0.75;
           DChoices [4; 0]%nat; DRandint 2; DRandint 4; DRandom 0.75;
           DChoices [1; 1]%nat; DRandint 3; DRandint 4; DRandom 0.75;
           DChoices [3; 2]%nat; DRandint 0; DRandint 4; DRandom 0.75]%float.

Definition five_step : res (list nat * state) :=
  generation_step square 5 0.5 five_population five_state.

Definition five_next : list nat :=
  Eval vm_compute in match five_step with Ok (next, _) => next | _ => [] end.

Definition five_state' : state :=
  Eval vm_compute in match five_step with Ok (_, st') => st' | _ => five_state end.

(** ** A run of the genetic algorithm on the square *)

(** Two individuals, one generation. *)
Definition small_tape : list draw :=
  [DShuffle [0; 1; 2; 3]; DShuffle [3; 1; 2; 0];
   DChoices [0; 0]%nat;
   DChoices [0; 1]%nat; DRandint 1; DRandint 3; DRandom 0.75%float;
   DChoices [1; 1]%nat; DRandint 0; DRandint 1; DRandom 0.25%float; DSample 1 2].

Definition small_route : list Z :=
  Eval vm_compute in
    match run (genetic_algorithm square 2 0.5 1) small_tape with
    | Ok route => route
    | _ => []
    end.

(** ** A run with a single individual *)

(** One individual, five generations, mutation rate 0.5; the mutation fires
    in the first generation only. *)
Definition single_tape : list draw :=
  [DShuffle [0; 1; 2; 3];
   DChoices [0]%nat; DChoices [0; 0]%nat; DRandint 1; DRandint 3;
   DRandom 0.25%float; DSample 1 2;
   DChoices [0]%nat; DChoices [0; 0]%nat; DRandint 0; DRandint 2; DRandom 0.75%float;
   DChoices [0]%nat; DChoices [0; 0]%nat; DRandint 2; DRandint 4; DRandom 0.75%float;
   DChoices [0]%nat; DChoices [0; 0]%nat; DRandint 3; DRandint 4; DRandom 0.75%float;
   DChoices [0]%nat; DChoices [0; 0]%nat; DRandint 0; DRandint 4; DRandom 0.75%float].

(** The same run when no mutation fires. *)
Definition quiet_tape : list draw :=
  [DShuffle [0; 2; 1; 3];
   DChoices [0]%nat; DChoices [0; 0]%nat; DRandint 1; DRandint 3; DRandom 0.75%float;
   DChoices [0]%nat; DChoices [0; 0]%nat; DRandint 0; DRandint 2; DRandom 0.75%float;
   DChoices [0]%nat; DChoices [0; 0]%nat; DRandint 2; DRandint 4; DRandom 0.75%float;
   DChoices [0]%nat; DChoices [0; 0]%nat; DRandint 3; DRandint 4; DRandom 0.75%float;
   DChoices [0]%nat; DChoices [0; 0]%nat; DRandint 0; DRandint 4; DRandom 0.75%float].

(** No [random.random()] result among the draws [t] is below the rate: a
    [mutate] that reads its draw from [t] leaves its individual as it is. *)
Definition quiet (rate : float) (t : list draw) : bool :=
  forallb (fun d => match d with
                    | DRandom u => negb (u <? rate)%float
                    | _ => true
                    end) t.

(** The run on [quiet_tape] at mutation rate 0.5: the state once the initial
    individual is made, the state after the first generation, and the state
    the run ends in. *)
Definition quiet_state : state := mkState [[0; 2; 1; 3]] (tail quiet_tape).

Definition quiet_state' : state :=
  Eval vm_compute in
    match generation_step square 1 0.5 [0%nat] quiet_state with
    | Ok (_, st') => st'
    | _ => quiet_state
    end.

Definition quiet_end : state :=
  Eval vm_compute in
    match genetic_algorithm square 1 0.5 5 (mkState [] quiet_tape) with
    | Ok (_, st') => st'
    | _ => mkState [] []
    end.

(** ** States for the examples of [mutate] and [crossover] *)

(** One tour in the store, and a mutation draw that fires. *)
Definition mutate_state : state :=
  mkState [[0; 1; 2; 3]; [3; 2; 1; 0]] [DRandom 0.25%float; DSample 0 2].

(** Two tours in the store, and the two draws of the slice bounds. *)
Definition crossover_state : state :=
  mkState [[0; 1; 2; 3]; [3; 2; 1; 0]] [DRandint 1; DRandint 3].

(** ** Nodes that a coordinate list can be indexed with *)

(** [k] indexes a list of length [n] as Python does: from the front when it
    is not negative, from the end when it is. *)
Definition in_range (n : nat) (k : Z) : Prop := - Z.of_nat n <= k < Z.of_nat n.

(** ** The nearest-neighbour order *)

(** The distance between two nodes, as the greedy scan computes it. *)
Definition node_distance (coordinates : list point) (i j : Z) : res float :=
  let* p := getitem coordinates i in
  let* q := getitem coordinates j in
  Ok (euclidean_distance p q).

(** [rest] is visited from [current] in nearest-neighbour order: its first
    node is at the least distance from [current] among all of [rest], every
    node of [rest] with a lower number is strictly further, and so on from
    that node over the others. *)
Fixpoint nearest_chain (coordinates : list point) (current : Z) (rest : list Z)
    : Prop :=
  match rest with
  | [] => True
  | y :: t =>
      (forall x, x ∈ rest ->
         exists dy dx,
           node_distance coordinates current y = Ok dy
           /\ node_distance coordinates current x = Ok dx
           /\ (dy <=? dx)%float = true
           /\ (x < y -> (dy <? dx)%float = true))
      /\ nearest_chain coordinates y t
  end.

(** ** Squares that the interpreter returns *)

(** Python's float power [d**2] raises [OverflowError] when [d] is a finite
    float whose square is not one; of an infinite or NaN [d] it returns the
    infinite or NaN square.  [square_returns d] says that [d**2] returns, and
    [distance_returns p1 p2] that both squares of [euclidean_distance] do. *)
Definition square_returns (d : float) : bool :=
  negb (is_finite d) || is_finite (d * d).

Definition distance_returns (p1 p2 : point) : bool :=
  square_returns (fst p1 - fst p2) && square_returns (snd p1 - snd p2).

Definition distances_return (coordinates : list point) : bool :=
  forallb (fun p => forallb (distance_returns p) coordinates) coordinates.

(** A node at infinity: its distance from the origin is infinite, with no
    square overflowing. *)
Definition out_of_reach : list point :=
  [(0, 0); (infinity, 0)]%float.

(** Two points whose squared differences are finite floats with an infinite
    sum. *)
Definition wide_apart : point * point :=
  ((0, 0), (0x1.8p511, 0x1.8p511))%float.

(** A float, read through its IEEE-754 description, that is a zero or a
    finite number. *)
Definition sf_finite (x : spec_float) : bool :=
  match x with
  | S754_zero _ | S754_finite _ _ _ => true
  | _ => false
  end.

(** Both coordinates of a point are finite floats. *)
Definition finite_point (p : point) : bool :=
  is_finite (fst p) && is_finite (snd p).

(** * Properties *)

(** ** Python lists *)

Lemma in_range_true (j n : Z) : 0 <= j < n -> (0 <=? j) && (j <? n) = true.
Proof. intros H. apply andb_true_intro. split; [apply Z.leb_le | apply Z.ltb_lt]; lia. Qed.

Lemma in_range_false (j n : Z) : ~ 0 <= j < n -> (0 <=? j) && (j <? n) = false.
Proof.
  intros H. apply andb_false_iff.
  destruct (Z.leb_spec 0 j); [right; apply Z.ltb_ge; lia | left; reflexivity].
Qed.

Lemma getitem_lookup {A} (l : list A) (k : nat) (x : A) :
  l !! k = Some x -> getitem l (Z.of_nat k) = Ok x.
Proof.
  intros H. pose proof (lookup_lt_Some _ _ _ H) as Hlt.
  unfold getitem.
  replace (Z.of_nat k <? 0) with false by (symmetry; apply Z.ltb_ge; lia).
  rewrite in_range_true by lia.
  rewrite Nat2Z.id, H. reflexivity.
Qed.

Lemma getitem_last {A} (l : list A) (x : A) :
  getitem (l ++ [x]) (-1) = Ok x.
Proof.
  unfold getitem. rewrite length_app. simpl length.
  replace (-1 <? 0) with true by reflexivity.
  replace (-1 + Z.of_nat (length l + 1)) with (Z.of_nat (length l)) by lia.
  rewrite in_range_true by lia.
  rewrite Nat2Z.id, lookup_app_r by lia.
  rewrite Nat.sub_diag. reflexivity.
Qed.

Lemma getitem_cases {A} (l : list A) (i : Z) :
  getitem l i = Raise IndexError \/ exists x, getitem l i = Ok x.
Proof.
  unfold getitem. destruct (_ && _); [|auto].
  destruct (l !! _); eauto.
Qed.

Lemma range_seq (a : Z) (n : nat) :
  range a (a + Z.of_nat n) = map (fun k => a + Z.of_nat k) (seq 0 n).
Proof. unfold range. do 2 f_equal. lia. Qed.

Lemma range_0_seq (n : nat) :
  range 0 (Z.of_nat n) = map Z.of_nat (seq 0 n).
Proof. unfold range. rewrite Z.sub_0_r, Nat2Z.id. reflexivity. Qed.

Lemma for_each_app {A S} (body : S -> A -> res S) (l1 l2 : list A) (s : S) :
  for_each body (l1 ++ l2) s = (let* s' := for_each body l1 s in for_each body l2 s').
Proof.
  revert s. induction l1 as [|x l1 IH]; intros s; simpl; [reflexivity|].
  destruct (body s x); simpl; auto.
Qed.

(** ** Tour length *)

Lemma total_distance_loop (coordinates : list point) (rest pre : list Z) (acc : float) :
  for_each (total_distance_step (pre ++ rest) coordinates)
           (map Z.of_nat (seq (length pre) (length rest - 1))) acc
  = for_each (add_edge coordinates) (consecutive_pairs rest) acc.
Proof.
  revert pre acc. induction rest as [|a rest IH]; intros pre acc; [reflexivity|].
  destruct rest as [|b rest]; [reflexivity|].
  replace (length (a :: b :: rest) - 1)%nat with (S (length rest)) by (simpl; lia).
  cbn [seq map for_each consecutive_pairs].
  unfold total_distance_step at 1, add_edge at 1. cbn [fst snd].
  rewrite (getitem_lookup (pre ++ a :: b :: rest) (length pre) a)
    by (rewrite lookup_app_r, Nat.sub_diag by lia; reflexivity).
  cbn [res_bind].
  destruct (getitem coordinates a) as [p1| |]; cbn [res_bind]; try reflexivity.
  replace (Z.of_nat (length pre) + 1) with (Z.of_nat (S (length pre))) by lia.
  rewrite (getitem_lookup (pre ++ a :: b :: rest) (S (length pre)) b)
    by (rewrite lookup_app_r by lia;
        replace (S (length pre) - length pre)%nat with 1%nat by lia; reflexivity).
  cbn [res_bind].
  destruct (getitem coordinates b) as [p2| |]; cbn [res_bind]; try reflexivity.
  specialize (IH (pre ++ [a]) (acc + euclidean_distance p1 p2)%float).
  rewrite <- app_assoc, length_app in IH. cbn [app length] in IH.
  replace (length pre + 1)%nat with (S (length pre)) in IH by lia.
  replace (S (length rest) - 1)%nat with (length rest) in IH by lia.
  exact IH.
Qed.

Lemma total_distance_tour_length (route : list Z) (coordinates : list point) :
  calculate_total_distance route coordinates = tour_length route coordinates.
Proof.
  destruct route as [|a [|b rest]]; try reflexivity.
  unfold calculate_total_distance, tour_length.
  set (route := a :: b :: rest).
  replace (Z.of_nat (length route) <? 2) with false
    by (symmetry; apply Z.ltb_ge; subst route; simpl length; lia).
  replace (Z.of_nat (length route) - 1) with (Z.of_nat (length route - 1))
    by (subst route; simpl length; lia).
  rewrite range_0_seq, for_each_app.
  rewrite <- (total_distance_loop coordinates route [] 0%float).
  cbn [app length].
  destruct (for_each _ _ _) as [distance| |]; cbn [res_bind]; try reflexivity.
  change 0 with (Z.of_nat 0).
  rewrite (getitem_lookup route 0 a) by reflexivity.
  destruct (exists_last (l := route)) as (front & z & Hz); [discriminate|].
  rewrite Hz, last_last, (getitem_last front z).
  cbn [res_bind for_each]. unfold add_edge. cbn [fst snd].
  destruct (getitem_cases coordinates a) as [-> | [pa ->]],
           (getitem_cases coordinates z) as [-> | [pz ->]]; reflexivity.
Qed.

(** C5. [calculate_total_distance(route, coordinates)] is, for every route
    and every coordinate list, the sum of the Euclidean distances over the
    consecutive pairs of the route plus the edge from the last node back to
    the first, and it is [0] for every route of fewer than two nodes.  (Both
    sides raise [IndexError] when the route names a node that has no
    coordinates.) *)
Theorem calculate_total_distance_spec (route : list Z) (coordinates : list point) :
  calculate_total_distance route coordinates = tour_length route coordinates
  /\ ((length route < 2)%nat -> calculate_total_distance route coordinates = Ok 0%float).
Proof.
  split; [apply total_distance_tour_length|].
  intros Hlen. unfold calculate_total_distance.
  replace (Z.of_nat (length route) <? 2) with true
    by (symmetry; apply Z.ltb_lt; lia).
  reflexivity.
Qed.

(** ** The square of side 10 *)

(** C8. On the square [(0,0), (10,0), (10,10), (0,10)] the greedy optimiser,
    which starts at node 0, returns the route [0, 1, 2, 3]: nodes 1 and 3 are
    both at distance 10 from node 0 and the scan keeps the first of them; the
    tour length of that route is exactly [40.0]. *)
Theorem greedy_square :
  greedy_route_optimizer square = Ok [0; 1; 2; 3]
  /\ calculate_total_distance [0; 1; 2; 3] square = Ok 40%float
  /\ (let* p0 := getitem square 0 in
      let* p1 := getitem square 1 in
      let* p3 := getitem square 3 in
      Ok (euclidean_distance p0 p1, euclidean_distance p0 p3))
     = Ok (10%float, 10%float)
  /\ nearest_scan square 0 [1; 2; 3] None infinity = Ok (Some 1, 10%float).
Proof. repeat split; vm_compute; reflexivity. Qed.

(** ** Order crossover *)

Lemma clamp_id (n : nat) (i : Z) : 0 <= i <= Z.of_nat n -> clamp n i = Z.to_nat i.
Proof.
  intros H. unfold clamp.
  replace (i <? 0) with false by (symmetry; apply Z.ltb_ge; lia).
  f_equal. lia.
Qed.

Lemma setitem_middle {A} (done : list A) (c x : A) (t : list A) :
  setitem (done ++ c :: t) (Z.of_nat (length done)) x = Ok (done ++ x :: t).
Proof.
  unfold setitem.
  replace (Z.of_nat (length done) <? 0) with false by (symmetry; apply Z.ltb_ge; lia).
  rewrite in_range_true by (rewrite length_app; simpl length; lia).
  rewrite Nat2Z.id.
  replace (length done) with (length done + 0)%nat at 1 by lia.
  rewrite insert_app_r. reflexivity.
Qed.

Lemma fill_loop (remaining todo : list Z) :
  forall (done : list Z) (pos : nat) (filled : list Z),
    fill todo (drop pos remaining) = Some filled ->
    exists pos',
      for_each (fill_step remaining)
               (map Z.of_nat (seq (length done) (length todo)))
               (done ++ todo, Z.of_nat pos)
      = Ok (done ++ filled, pos').
Proof.
  induction todo as [|c t IH]; intros done pos filled Hfill.
  - simpl in Hfill. injection Hfill as <-. eexists. reflexivity.
  - cbn [length seq map for_each]. unfold fill_step at 1.
    rewrite (getitem_lookup (done ++ c :: t) (length done) c)
      by (rewrite lookup_app_r, Nat.sub_diag by lia; reflexivity).
    cbn [res_bind]. cbn [fill] in Hfill.
    destruct (c =? -1).
    + destruct (drop pos remaining) as [|x r] eqn:Hdrop; [discriminate|].
      destruct (fill t r) as [f|] eqn:Hf; [|discriminate].
      injection Hfill as <-.
      assert (remaining !! pos = Some x) as Hx.
      { rewrite <- (Nat.add_0_r pos), <- lookup_drop, Hdrop. reflexivity. }
      assert (drop (S pos) remaining = r) as Hr.
      { change r with (drop 1 (x :: r)). rewrite <- Hdrop, drop_drop.
        f_equal. lia. }
      rewrite (getitem_lookup remaining pos x Hx). cbn [res_bind].
      rewrite setitem_middle. cbn [res_bind].
      destruct (IH (done ++ [x]) (S pos) f) as [pos' Hpos'].
      { rewrite Hr. exact Hf. }
      exists pos'. rewrite length_app in Hpos'. cbn [length] in Hpos'.
      rewrite <- app_assoc in Hpos'. cbn [app] in Hpos'.
      replace (length done + 1)%nat with (S (length done)) in Hpos' by lia.
      replace (Z.of_nat pos + 1) with (Z.of_nat (S pos)) by lia.
      rewrite Hpos'. rewrite <- app_assoc. reflexivity.
    + destruct (fill t (drop pos remaining)) as [f|] eqn:Hf; [|discriminate].
      injection Hfill as <-.
      destruct (IH (done ++ [c]) pos f Hf) as [pos' Hpos'].
      cbn [res_bind].
      exists pos'. rewrite length_app in Hpos'. cbn [length] in Hpos'.
      rewrite <- app_assoc in Hpos'. cbn [app] in Hpos'.
      replace (length done + 1)%nat with (S (length done)) in Hpos' by lia.
      rewrite Hpos'. rewrite <- app_assoc. reflexivity.
Qed.

Lemma fill_holes (a : nat) (rest remaining : list Z) :
  (a <= length remaining)%nat ->
  fill (replicate a (-1) ++ rest) remaining
  = (app (take a remaining)) <$> fill rest (drop a remaining).
Proof.
  revert remaining. induction a as [|a IH]; intros remaining Hlen.
  - simpl. rewrite drop_0. destruct (fill rest remaining); reflexivity.
  - destruct remaining as [|x r]; [simpl in Hlen; lia|].
    simpl. rewrite IH by (simpl in Hlen; lia).
    destruct (fill rest (drop a r)); reflexivity.
Qed.

Lemma fill_kept (kept rest remaining : list Z) :
  Forall (fun c => c <> -1) kept ->
  fill (kept ++ rest) remaining = (app kept) <$> fill rest remaining.
Proof.
  induction 1 as [|c kept Hc _ IH].
  - cbn [app]. destruct (fill rest remaining); reflexivity.
  - cbn [app fill]. apply Z.eqb_neq in Hc. rewrite Hc, IH.
    destruct (fill rest remaining); reflexivity.
Qed.

Lemma fill_only_holes (b : nat) (remaining : list Z) :
  (b <= length remaining)%nat ->
  fill (replicate b (-1)) remaining = Some (take b remaining).
Proof.
  revert remaining. induction b as [|b IH]; intros remaining Hlen; [reflexivity|].
  destruct remaining as [|x r]; [simpl in Hlen; lia|].
  simpl. rewrite IH by (simpl in Hlen; lia). reflexivity.
Qed.

Lemma fill_child (a b : nat) (kept remaining : list Z) :
  Forall (fun c => c <> -1) kept ->
  length remaining = (a + b)%nat ->
  fill (replicate a (-1) ++ kept ++ replicate b (-1)) remaining
  = Some (take a remaining ++ kept ++ drop a remaining).
Proof.
  intros Hkept Hlen.
  rewrite fill_holes, fill_kept by (trivial; lia).
  rewrite fill_only_holes by (rewrite length_drop; lia).
  rewrite (take_ge (drop a remaining)) by (rewrite length_drop; lia). reflexivity.
Qed.

Lemma slice_bounds {A} (l : list A) (a b : Z) :
  0 <= a <= b -> b <= Z.of_nat (length l) ->
  slice l a b = take (Z.to_nat b - Z.to_nat a) (drop (Z.to_nat a) l).
Proof. intros Ha Hb. unfold slice. rewrite !clamp_id by lia. reflexivity. Qed.

Lemma length_slice {A} (l : list A) (a b : Z) :
  0 <= a <= b -> b <= Z.of_nat (length l) ->
  length (slice l a b) = (Z.to_nat b - Z.to_nat a)%nat.
Proof.
  intros Ha Hb. rewrite slice_bounds, length_take, length_drop by lia. lia.
Qed.

(** The child of [crossover], in closed form: the slice of [parent1] in its
    place, and around it the nodes of [parent2] that the slice lacks, in the
    order of [parent2]. *)
Lemma crossover_at_closed (num_sensors : Z) (parent1 parent2 : list Z) (start end_ : Z) :
  0 <= start < end_ -> end_ <= num_sensors ->
  Z.of_nat (length parent1) = num_sensors ->
  let kept := slice parent1 start end_ in
  let remaining := filter (fun item => negb (contains kept item)) parent2 in
  Forall (fun c => c <> -1) kept ->
  Z.of_nat (length remaining) = start + (num_sensors - end_) ->
  crossover_at num_sensors parent1 parent2 start end_
  = Ok (take (Z.to_nat start) remaining ++ kept ++ drop (Z.to_nat start) remaining).
Proof.
  intros Hs He Hlen1 kept remaining Hkept Hrem.
  assert (length kept = (Z.to_nat end_ - Z.to_nat start)%nat) as Hlk
    by (apply length_slice; lia).
  unfold crossover_at.
  set (child0 := slice_assign _ start end_ _).
  assert (child0 = replicate (Z.to_nat start) (-1) ++ kept
                   ++ replicate (Z.to_nat (num_sensors - end_)) (-1)) as Hchild0.
  { unfold child0, slice_assign. rewrite length_replicate, !clamp_id by lia.
    rewrite take_replicate, drop_replicate. fold kept.
    f_equal; [f_equal; lia|]. f_equal. f_equal. lia. }
  assert (slice child0 start end_ = kept) as Hslice.
  { rewrite slice_bounds
      by (rewrite ?Hchild0, ?length_app, ?length_replicate, ?Hlk; lia).
    rewrite Hchild0.
    rewrite drop_app_length' by (rewrite length_replicate; lia).
    rewrite <- Hlk. apply take_app_length. }
  rewrite Hslice. fold remaining.
  destruct (fill_loop remaining child0 [] 0
              (take (Z.to_nat start) remaining ++ kept ++ drop (Z.to_nat start) remaining))
    as [pos' Hloop].
  { cbn [drop]. rewrite Hchild0. apply fill_child; [exact Hkept | lia]. }
  cbn [app length] in Hloop.
  replace (range 0 num_sensors) with (map Z.of_nat (seq 0 (length child0))).
  - change (Z.of_nat 0) with 0 in Hloop. rewrite Hloop. reflexivity.
  - unfold range. rewrite Z.sub_0_r. f_equal. f_equal.
    rewrite Hchild0, !length_app, !length_replicate, Hlk. lia.
Qed.

Lemma contains_elem_of (l : list Z) (x : Z) : contains l x = true <-> x ∈ l.
Proof.
  unfold contains. rewrite existsb_exists. split.
  - intros (y & Hy & Heq). apply Z.eqb_eq in Heq. subst y.
    apply list_elem_of_In. exact Hy.
  - intros Hx. exists x. split; [apply list_elem_of_In; exact Hx | apply Z.eqb_refl].
Qed.

Lemma not_contains_elem_of (l : list Z) (x : Z) :
  Is_true (negb (contains l x)) <-> x ∉ l.
Proof.
  rewrite <- contains_elem_of. destruct (contains l x); simpl.
  - split; [intros [] | intros H; apply H; reflexivity].
  - split; [intros _ H; discriminate | intros _; exact I].
Qed.

Lemma elem_of_range (a b x : Z) : x ∈ range a b <-> a <= x < b.
Proof.
  unfold range. rewrite list_elem_of_fmap. split.
  - intros (k & -> & Hk). apply elem_of_seq in Hk. lia.
  - intros H. exists (Z.to_nat (x - a)). split; [lia|]. apply elem_of_seq. lia.
Qed.

Lemma NoDup_range (a b : Z) : NoDup (range a b).
Proof.
  unfold range. apply NoDup_fmap_2; [|apply NoDup_seq].
  intros j k H. lia.
Qed.

Lemma length_range (a b : Z) : length (range a b) = Z.to_nat (b - a).
Proof. unfold range. rewrite length_map, length_seq. reflexivity. Qed.

Lemma slice_sublist {A} (l : list A) (a b : Z) (x : A) : x ∈ slice l a b -> x ∈ l.
Proof.
  unfold slice. intros H.
  apply elem_of_take in H as (i & H & _).
  rewrite lookup_drop in H. eapply list_elem_of_lookup_2. exact H.
Qed.

Lemma NoDup_slice {A} (l : list A) (a b : Z) : NoDup l -> NoDup (slice l a b).
Proof.
  intros H. unfold slice.
  apply (sublist_NoDup _ l); [exact H|].
  etransitivity; [apply sublist_take | apply sublist_drop].
Qed.

Section Crossover.

Variables (num_sensors : Z) (parent1 parent2 : list Z) (start end_ : Z).
Hypothesis Hp1 : parent1 ≡ₚ range 0 num_sensors.
Hypothesis Hp2 : parent2 ≡ₚ range 0 num_sensors.
Hypothesis Hstart : 0 <= start < end_.
Hypothesis Hend : end_ <= num_sensors.

Let kept := slice parent1 start end_.
Let remaining := filter (fun item => negb (contains kept item)) parent2.

Lemma parent_length : Z.of_nat (length parent1) = num_sensors.
Proof. rewrite Hp1, length_range. lia. Qed.

Lemma kept_nodes : Forall (fun c => c <> -1) kept.
Proof.
  apply Forall_forall. intros x Hx. apply slice_sublist in Hx.
  rewrite Hp1 in Hx. apply elem_of_range in Hx. lia.
Qed.

Lemma kept_from_parent2 :
  filter (fun item => ~ Is_true (negb (contains kept item))) parent2 ≡ₚ kept.
Proof.
  apply NoDup_Permutation.
  - apply NoDup_filter. rewrite Hp2. apply NoDup_range.
  - apply NoDup_slice. rewrite Hp1. apply NoDup_range.
  - intros x. rewrite list_elem_of_filter, not_contains_elem_of. split.
    + intros [Hx _]. destruct (decide (x ∈ kept)); [assumption | contradiction].
    + intros Hx. split; [intros H; contradiction|].
      apply slice_sublist in Hx. rewrite Hp2, <- Hp1. exact Hx.
Qed.

Lemma remaining_kept : remaining ++ kept ≡ₚ parent2.
Proof.
  rewrite <- kept_from_parent2. unfold remaining.
  apply (filter_app_complement (fun item => Is_true (negb (contains kept item)))).
Qed.

Lemma remaining_length :
  Z.of_nat (length remaining) = start + (num_sensors - end_).
Proof.
  pose proof (Permutation_length remaining_kept) as H.
  assert (length kept = (Z.to_nat end_ - Z.to_nat start)%nat) as Hk
    by (apply length_slice; rewrite ?parent_length; lia).
  rewrite length_app, Hk, Hp2, length_range in H. lia.
Qed.

Lemma crossover_at_child :
  crossover_at num_sensors parent1 parent2 start end_
  = Ok (take (Z.to_nat start) remaining ++ kept ++ drop (Z.to_nat start) remaining).
Proof.
  apply crossover_at_closed;
    auto using parent_length, kept_nodes, remaining_length.
Qed.

Lemma crossover_child_perm :
  take (Z.to_nat start) remaining ++ kept ++ drop (Z.to_nat start) remaining
  ≡ₚ range 0 num_sensors.
Proof.
  rewrite <- Hp2, <- remaining_kept.
  rewrite <- (take_drop (Z.to_nat start) remaining) at 3.
  rewrite <- !app_assoc. apply Permutation_app_head, Permutation_app_comm.
Qed.

End Crossover.

(** C1. For parents that are permutations of [0 .. N-1] and slice bounds
    [0 <= start < end <= N], order crossover returns a child that is a
    permutation of [0 .. N-1]: it has no duplicate and misses no node, it
    holds the slice of [parent1] at the same places, and its other places
    hold, from left to right, the nodes of [parent2] that are not in the
    slice, in the order [parent2] has them. *)
Theorem crossover_child_permutation
    (num_sensors : Z) (parent1 parent2 : list Z) (start end_ : Z) :
  parent1 ≡ₚ range 0 num_sensors ->
  parent2 ≡ₚ range 0 num_sensors ->
  0 <= start < end_ -> end_ <= num_sensors ->
  exists child,
    crossover_at num_sensors parent1 parent2 start end_ = Ok child
    /\ child ≡ₚ range 0 num_sensors
    /\ NoDup child
    /\ (forall node, 0 <= node < num_sensors -> node ∈ child)
    /\ slice child start end_ = slice parent1 start end_
    /\ slice child 0 start ++ slice child end_ num_sensors
       = filter (fun node => node ∉ slice parent1 start end_) parent2.
Proof.
  intros Hp1 Hp2 Hs He.
  set (kept := slice parent1 start end_).
  set (remaining := filter (fun item => negb (contains kept item)) parent2).
  pose proof (crossover_at_child _ _ _ _ _ Hp1 Hp2 Hs He) as Hrun.
  pose proof (crossover_child_perm _ _ _ start end_ Hp1 Hp2) as Hperm.
  pose proof (remaining_length _ _ _ _ _ Hp1 Hp2 Hs He) as Hrem.
  assert (Z.of_nat (length parent1) = num_sensors) as Hlen1
    by (eapply parent_length; eassumption).
  fold kept in Hrun, Hperm, Hrem. fold remaining in Hrun, Hperm, Hrem.
  assert (length kept = (Z.to_nat end_ - Z.to_nat start)%nat) as Hk
    by (apply length_slice; lia).
  set (child := take (Z.to_nat start) remaining ++ kept ++ drop (Z.to_nat start) remaining)
    in *.
  assert (length (take (Z.to_nat start) remaining) = Z.to_nat start) as Htake
    by (rewrite length_take; lia).
  assert (length child = Z.to_nat num_sensors) as Hlc.
  { unfold child. rewrite !length_app, Htake, Hk, length_drop. lia. }
  exists child. repeat split.
  - exact Hrun.
  - exact Hperm.
  - rewrite Hperm. apply NoDup_range.
  - intros node Hnode. rewrite Hperm. apply elem_of_range. exact Hnode.
  - rewrite slice_bounds by lia. unfold child.
    rewrite drop_app_length' by (symmetry; exact Htake).
    rewrite <- Hk. apply take_app_length.
  - rewrite !slice_bounds by lia. change (Z.to_nat 0) with 0%nat.
    rewrite drop_0, Nat.sub_0_r. unfold child at 1.
    rewrite take_app_length' by (symmetry; exact Htake).
    assert (drop (Z.to_nat end_) child = drop (Z.to_nat start) remaining) as ->.
    { unfold child. rewrite app_assoc.
      apply drop_app_length'. rewrite length_app, Htake, Hk. lia. }
    rewrite (take_ge (drop (Z.to_nat start) remaining))
      by (rewrite length_drop; lia).
    rewrite take_drop. unfold remaining.
    apply list_filter_iff. intros node. apply not_contains_elem_of.
Qed.

Lemma crossover_child_permutation_witness :
  exists child,
    crossover_at 5 [0; 1; 2; 3; 4] [4; 3; 2; 1; 0] 1 3 = Ok child
    /\ child ≡ₚ range 0 5
    /\ NoDup child
    /\ (forall node, 0 <= node < 5 -> node ∈ child)
    /\ slice child 1 3 = slice [0; 1; 2; 3; 4] 1 3
    /\ slice child 0 1 ++ slice child 3 5
       = filter (fun node => node ∉ slice [0; 1; 2; 3; 4] 1 3) [4; 3; 2; 1; 0].
Proof.
  apply (crossover_child_permutation 5 [0; 1; 2; 3; 4] [4; 3; 2; 1; 0] 1 3).
  - reflexivity.
  - apply (bool_decide_unpack _). vm_compute. exact I.
  - lia.
  - lia.
Defined.

Example crossover_example :
  crossover_at 5 [0; 1; 2; 3; 4] [4; 3; 2; 1; 0] 1 3 = Ok [4; 1; 2; 3; 0].
Proof. vm_compute. reflexivity. Qed.

(** ** Floats: signs *)

Lemma leb_zero_sf (x : float) : (0 <=? x)%float = sf_nonneg (Prim2SF x).
Proof.
  rewrite leb_spec. change (Prim2SF 0) with (S754_zero false).
  destruct (Prim2SF x) as [[]|[]| |[] m e]; reflexivity.
Qed.

Lemma iter_pos_invariant {A} (P : A -> Prop) (f : A -> A) :
  (forall x, P x -> P (f x)) ->
  forall (p : positive) (x : A), P x -> P (SpecFloat.iter_pos f p x).
Proof.
  intros Hf. induction p as [p IH|p IH|]; intros x Hx; simpl; auto.
Qed.

Lemma shr_1_nonneg (mrs : shr_record) : 0 <= shr_m mrs -> 0 <= shr_m (shr_1 mrs).
Proof.
  destruct mrs as [m r s]. simpl.
  destruct m as [|[p|p|]|[p|p|]]; simpl; lia.
Qed.

Lemma shr_nonneg (mrs : shr_record) (e n : Z) :
  0 <= shr_m mrs -> 0 <= shr_m (fst (shr mrs e n)).
Proof.
  intros H. destruct n as [|p|p]; simpl; auto.
  apply (iter_pos_invariant (fun x => 0 <= shr_m x)); auto using shr_1_nonneg.
Qed.

Lemma shr_fexp_nonneg (prec emax m e : Z) (l : location) :
  0 <= m -> 0 <= shr_m (fst (shr_fexp prec emax m e l)).
Proof.
  intros H. unfold shr_fexp. apply shr_nonneg.
  destruct l as [|[]]; exact H.
Qed.

Lemma round_nearest_even_nonneg (m : Z) (l : location) :
  0 <= m -> 0 <= round_nearest_even m l.
Proof.
  intros H. destruct l as [|[]]; simpl; try lia.
  destruct (Z.even m); lia.
Qed.

Lemma binary_round_aux_nonneg (prec emax m e : Z) (l : location) :
  0 <= m -> sf_nonneg (binary_round_aux prec emax false m e l) = true.
Proof.
  intros H. unfold binary_round_aux.
  pose proof (shr_fexp_nonneg prec emax m e l H) as H1.
  destruct (shr_fexp prec emax m e l) as [mrs' e']. simpl in H1.
  pose proof (shr_fexp_nonneg prec emax
                (round_nearest_even (shr_m mrs') (loc_of_shr_record mrs')) e' loc_Exact
                (round_nearest_even_nonneg _ _ H1)) as H2.
  destruct (shr_fexp prec emax _ e' loc_Exact) as [mrs'' e'']. simpl in H2.
  destruct (shr_m mrs'') as [|p|p]; [reflexivity| |lia].
  destruct (e'' <=? emax - prec); reflexivity.
Qed.

Lemma binary_round_aux_sign (prec emax m e : Z) (l : location) :
  sf_is_nan (binary_round_aux prec emax false m e l) = true
  \/ sf_nonneg (binary_round_aux prec emax false m e l) = true.
Proof.
  unfold binary_round_aux.
  destruct (shr_fexp prec emax m e l) as [mrs' e'].
  destruct (shr_fexp prec emax _ e' loc_Exact) as [mrs'' e''].
  destruct (shr_m mrs'') as [|p|p]; auto.
  destruct (e'' <=? emax - prec); auto.
Qed.

Lemma SFadd_nonneg (prec emax : Z) (x y : spec_float) :
  sf_nonneg x = true -> sf_nonneg y = true ->
  sf_nonneg (SFadd prec emax x y) = true.
Proof.
  destruct x as [sx|sx| |sx mx ex], y as [sy|sy| |sy my ey];
    try destruct sx; try destruct sy; simpl; try discriminate; try reflexivity.
  intros _ _. unfold binary_round.
  destruct (shl_align _ _ _) as [mz ez].
  apply binary_round_aux_nonneg. lia.
Qed.

Lemma SFsqrt_sign (prec emax : Z) (x : spec_float) :
  sf_is_nan (SFsqrt prec emax x) = true \/ sf_nonneg (SFsqrt prec emax x) = true.
Proof.
  destruct x as [s|[]| |[] m e]; simpl; auto.
  destruct (SFsqrt_core_binary prec emax (Z.pos m) e) as [[mz ez] lz].
  apply binary_round_aux_sign.
Qed.

Lemma add_nonneg (a b : float) :
  (0 <=? a)%float = true -> (0 <=? b)%float = true -> (0 <=? a + b)%float = true.
Proof.
  rewrite !leb_zero_sf, add_spec. apply SFadd_nonneg.
Qed.

Lemma ltb_not_nan (a b : float) :
  (a <? b)%float = true -> sf_is_nan (Prim2SF a) = false.
Proof.
  rewrite ltb_spec. destruct (Prim2SF a); try reflexivity. discriminate.
Qed.

Lemma distance_nonneg (p q : point) :
  (euclidean_distance p q <? infinity)%float = true ->
  (0 <=? euclidean_distance p q)%float = true.
Proof.
  intros H. apply ltb_not_nan in H. rewrite leb_zero_sf.
  unfold euclidean_distance in *. rewrite sqrt_spec in *.
  destruct (SFsqrt_sign prec emax (Prim2SF
    ((fst p - fst q) * (fst p - fst q) + (snd p - snd q) * (snd p - snd q))%float))
    as [Hnan|Hpos]; [|exact Hpos].
  unfold SF64sqrt in H. rewrite H in Hnan. discriminate.
Qed.

(** ** Floats: the order of [<] and [<=] *)

Ltac sf_order :=
  unfold SFleb, SFltb, SFcompare;
  repeat match goal with
         | x : spec_float |- _ => destruct x as [[]|[]| |[] ? ?]
         end;
  simpl; try discriminate; try reflexivity; intros;
  repeat match goal with
         | H : context [Z.compare ?a ?b] |- _ =>
             destruct (Z.compare_spec a b); try discriminate; subst
         | |- context [Z.compare ?a ?b] =>
             destruct (Z.compare_spec a b); try discriminate; subst
         end;
  try reflexivity; try lia;
  change (Pos.compare_cont Eq) with Pos.compare in *;
  repeat match goal with
         | H : context [Pos.compare ?a ?b] |- _ =>
             destruct (Pos.compare_spec a b); try discriminate; subst
         | |- context [Pos.compare ?a ?b] =>
             destruct (Pos.compare_spec a b); try discriminate; subst
         end;
  simpl in *; try discriminate; try reflexivity; try lia.

Lemma SFltb_trans (x y z : spec_float) :
  SFltb x y = true -> SFltb y z = true -> SFltb x z = true.
Proof. sf_order. Qed.

Lemma SFleb_trans (x y z : spec_float) :
  SFleb x y = true -> SFleb y z = true -> SFleb x z = true.
Proof. sf_order. Qed.

Lemma SFltb_leb (x y : spec_float) : SFltb x y = true -> SFleb x y = true.
Proof. sf_order. Qed.

Lemma SFleb_total (x y : spec_float) :
  sf_is_nan x = false -> sf_is_nan y = false ->
  SFltb x y = false -> SFleb y x = true.
Proof. unfold sf_is_nan. sf_order. Qed.

Lemma SFleb_refl (x : spec_float) : sf_is_nan x = false -> SFleb x x = true.
Proof. unfold sf_is_nan. sf_order. Qed.

(** ** The store: what each call does to it *)

Lemma bind_ok {A B} (m : M A) (k : A -> M B) (st st' : state) (b : B) :
  bind m k st = Ok (b, st') ->
  exists a st1, m st = Ok (a, st1) /\ k a st1 = Ok (b, st').
Proof.
  unfold bind. destruct (m st) as [[a st1]| |]; try discriminate. eauto.
Qed.

Lemma ret_ok {A} (a b : A) (st st' : state) :
  ret a st = Ok (b, st') -> b = a /\ st' = st.
Proof. unfold ret. intros H. injection H as <- <-. auto. Qed.

Lemma lift_ok {A} (r : res A) (a : A) (st st' : state) :
  lift r st = Ok (a, st') -> r = Ok a /\ st' = st.
Proof.
  unfold lift. destruct r; try discriminate. intros H. injection H as <- <-. auto.
Qed.

Lemma load_ok (r : nat) (l : list Z) (st st' : state) :
  load r st = Ok (l, st') -> heap st !! r = Some l /\ st' = st.
Proof.
  unfold load. destruct (heap st !! r); try discriminate.
  intros H. injection H as <- <-. auto.
Qed.

Lemma alloc_ok (l : list Z) (r : nat) (st st' : state) :
  alloc l st = Ok (r, st') -> r = length (heap st) /\ heap st' = heap st ++ [l].
Proof. unfold alloc. intros H. injection H as <- <-. auto. Qed.

Lemma store_ok (r : nat) (l : list Z) (u : unit) (st st' : state) :
  store r l st = Ok (u, st') -> heap st' = <[r := l]> (heap st).
Proof. unfold store. intros H. injection H as _ <-. reflexivity. Qed.

Lemma next_draw_ok (d : draw) (st st' : state) :
  next_draw st = Ok (d, st') -> heap st' = heap st /\ tape st = d :: tape st'.
Proof.
  unfold next_draw. destruct (tape st) as [|d' t]; try discriminate.
  intros H. injection H as <- <-. auto.
Qed.

(** Inversion of a run that returned: splits binds, returns and lifts. *)
Ltac inv_run :=
  repeat match goal with
         | H : bind _ _ _ = Ok _ |- _ =>
             let a := fresh "a" in
             let st := fresh "st" in
             let H1 := fresh "Hrun" in
             apply bind_ok in H as (a & st & H1 & H)
         | H : ret _ _ = Ok _ |- _ => apply ret_ok in H as [? ?]; subst
         | H : lift _ _ = Ok _ |- _ => apply lift_ok in H as [? ?]; subst
         | H : load _ _ = Ok _ |- _ => apply load_ok in H as [? ?]; subst
         | H : stuck _ = Ok _ |- _ => discriminate H
         | H : raise _ _ = Ok _ |- _ => discriminate H
         end.

Lemma randint_ok (a b n : Z) (st st' : state) :
  randint a b st = Ok (n, st') -> heap st' = heap st /\ a <= n <= b.
Proof.
  unfold randint. destruct (b <? a); [discriminate|]. intros H. inv_run.
  apply next_draw_ok in Hrun as [Hh _].
  destruct a0; try discriminate.
  destruct ((a <=? n0) && (n0 <=? b)) eqn:Hb; [|discriminate].
  inv_run. apply andb_prop in Hb as [H1 H2]. split; [assumption|lia].
Qed.

Lemma random_random_ok (u : float) (st st' : state) :
  random_random st = Ok (u, st') -> heap st' = heap st.
Proof.
  unfold random_random. intros H. inv_run.
  apply next_draw_ok in Hrun as [Hh _].
  destruct a; try discriminate.
  destruct ((0 <=? u0) && (u0 <? 1))%float; [|discriminate].
  inv_run. assumption.
Qed.

Lemma sample2_ok (n i j : Z) (st st' : state) :
  sample2 n st = Ok ((i, j), st') ->
  heap st' = heap st /\ 0 <= i < n /\ 0 <= j < n /\ i <> j.
Proof.
  unfold sample2. destruct (n <? 2); [discriminate|]. intros H. inv_run.
  apply next_draw_ok in Hrun as [Hh _].
  destruct a; try discriminate.
  destruct (_ && _) eqn:Hb in H; [|discriminate].
  inv_run. injection H as <- <-.
  repeat (apply andb_prop in Hb as [Hb ?]).
  apply negb_true_iff, Z.eqb_neq in H. split; [assumption|lia].
Qed.

Lemma pick_elem_of {A} (population : list A) (picks : list nat) (x : A) :
  x ∈ pick population picks -> x ∈ population.
Proof.
  unfold pick. intros H. apply list_elem_of_omap in H as (i & _ & Hi).
  eapply list_elem_of_lookup_2. exact Hi.
Qed.

Lemma choices_ok {A} (population : list A) (k : nat) (chosen : list A)
    (st st' : state) :
  choices population k st = Ok (chosen, st') ->
  heap st' = heap st /\ forall x, x ∈ chosen -> x ∈ population.
Proof.
  unfold choices. destruct k as [|k].
  - intros H. inv_run. split; [reflexivity|]. intros x Hx. inversion Hx.
  - destruct population as [|y population]; [discriminate|].
    intros H. inv_run. apply next_draw_ok in Hrun as [Hh _].
    destruct a; try discriminate.
    destruct (picks_ok _ _ _); [|discriminate]. inv_run.
    split; [assumption|]. apply pick_elem_of.
Qed.

Lemma choices_weighted_ok {A} (population : list A) (weights : list float)
    (k : nat) (chosen : list A) (st st' : state) :
  choices_weighted population weights k st = Ok (chosen, st') ->
  heap st' = heap st /\ forall x, x ∈ chosen -> x ∈ population.
Proof.
  unfold choices_weighted. destruct (negb _); [discriminate|].
  destruct weights as [|w ws]; [discriminate|].
  destruct (_ <=? _)%float; [discriminate|].
  destruct (negb _); [discriminate|].
  destruct k as [|k].
  - intros H. apply ret_ok in H as [-> ->]. split; [reflexivity|].
    intros x Hx. inversion Hx.
  - intros H. inv_run. apply next_draw_ok in Hrun as [Hh _].
    destruct a; try discriminate.
    destruct (picks_ok _ _ _); [|discriminate]. inv_run.
    split; [assumption|]. apply pick_elem_of.
Qed.

(** ** Swapping two places of a list *)

Lemma list_swap_perm {A} (l : list A) (i j : nat) (a b : A) :
  l !! i = Some b -> l !! j = Some a ->
  <[j := b]> (<[i := a]> l) ≡ₚ l.
Proof.
  intros Hi Hj.
  pose proof (lookup_lt_Some _ _ _ Hi) as Hli.
  pose proof (lookup_lt_Some _ _ _ Hj) as Hlj.
  apply Permutation_inj. split; [rewrite !length_insert; reflexivity|].
  exists (fun k => if decide (k = i) then j else if decide (k = j) then i else k).
  split.
  - intros x y. repeat case_decide; intros; subst; congruence.
  - intros k. destruct (decide (k = j)) as [->|Hkj].
    + rewrite list_lookup_insert_eq by (rewrite length_insert; exact Hlj).
      destruct (decide (j = i)) as [->|_]; [rewrite Hi | rewrite Hi]; reflexivity.
    + rewrite list_lookup_insert_ne by congruence.
      destruct (decide (k = i)) as [->|Hki].
      * rewrite list_lookup_insert_eq by exact Hli. rewrite Hj. reflexivity.
      * rewrite list_lookup_insert_ne by congruence. reflexivity.
Qed.

Lemma getitem_nonneg {A} (l : list A) (i : Z) (x : A) :
  0 <= i -> getitem l i = Ok x -> l !! Z.to_nat i = Some x.
Proof.
  intros Hi. unfold getitem.
  replace (i <? 0) with false by (symmetry; apply Z.ltb_ge; lia).
  destruct (_ && _); [|discriminate].
  destruct (l !! Z.to_nat i); [|discriminate].
  intros H. injection H as <-. reflexivity.
Qed.

Lemma setitem_nonneg {A} (l l' : list A) (i : Z) (x : A) :
  0 <= i -> setitem l i x = Ok l' -> l' = <[Z.to_nat i := x]> l.
Proof.
  intros Hi. unfold setitem.
  replace (i <? 0) with false by (symmetry; apply Z.ltb_ge; lia).
  destruct (_ && _); [|discriminate].
  intros H. injection H as <-. reflexivity.
Qed.

Lemma swap_items_perm (l l1 l2 : list Z) (idx1 idx2 a b : Z) :
  0 <= idx1 -> 0 <= idx2 ->
  getitem l idx2 = Ok a -> getitem l idx1 = Ok b ->
  setitem l idx1 a = Ok l1 -> setitem l1 idx2 b = Ok l2 ->
  l2 ≡ₚ l.
Proof.
  intros H1 H2 Ha Hb Hl1 Hl2.
  apply getitem_nonneg in Ha, Hb; try assumption.
  apply setitem_nonneg in Hl1, Hl2; try assumption. subst l1 l2.
  apply list_swap_perm; assumption.
Qed.

(** ** The genetic algorithm: what a step does to the store *)

Section Steps.

Variable coordinates : list point.
Variable population_size : Z.
Variable mutation_rate : float.

Local Abbreviation N := (num_sensors coordinates).

Lemma fitness_ok (ind : nat) (f : float) (st st' : state) :
  fitness coordinates ind st = Ok (f, st') ->
  st' = st /\
  exists l d, heap st !! ind = Some l
              /\ calculate_total_distance l coordinates = Ok d
              /\ (d =? 0)%float = false
              /\ f = (1 / d)%float.
Proof.
  unfold fitness. intros H. inv_run.
  destruct (a0 =? 0)%float eqn:Hz; [discriminate|]. inv_run.
  split; [reflexivity|]. eauto 6.
Qed.

Lemma crossover_ok (parent1 parent2 child : nat) (st st' : state) :
  crossover coordinates parent1 parent2 st = Ok (child, st') ->
  child = length (heap st) /\
  exists p1 p2 start end_ c,
    heap st !! parent1 = Some p1 /\ heap st !! parent2 = Some p2
    /\ 0 <= start <= N - 1 /\ start + 1 <= end_ <= N
    /\ crossover_at N p1 p2 start end_ = Ok c
    /\ heap st' = heap st ++ [c].
Proof.
  unfold crossover. intros H. inv_run.
  apply randint_ok in Hrun as [Hh1 Hs], Hrun0 as [Hh2 He].
  apply alloc_ok in H as [-> Hh3].
  rewrite Hh2, Hh1 in *.
  split; [reflexivity|]. eauto 12.
Qed.

Lemma mutate_ok (individual r : nat) (rate : float) (st st' : state) :
  mutate coordinates individual rate st = Ok (r, st') ->
  r = individual /\
  exists u, ((0 <=? u) && (u <? 1))%float = true /\
    (((u <? rate)%float = false /\ heap st' = heap st)
     \/ ((u <? rate)%float = true /\
         exists l l', heap st !! individual = Some l /\ l' ≡ₚ l
                      /\ heap st' = <[individual := l']> (heap st))).
Proof.
  unfold mutate. intros H. apply bind_ok in H as (u & st1 & Hu & H).
  assert (heap st1 = heap st /\ ((0 <=? u) && (u <? 1))%float = true) as [Hh Hrange].
  { unfold random_random in Hu. inv_run. apply next_draw_ok in Hrun as [Hh _].
    destruct a; try discriminate.
    destruct ((0 <=? u0) && (u0 <? 1))%float eqn:Hb; [|discriminate].
    inv_run. auto. }
  destruct (u <? rate)%float eqn:Hrate.
  - apply bind_ok in H as ([idx1 idx2] & st2 & Hs & H).
    apply sample2_ok in Hs as (Hh2 & Hi & Hj & Hij).
    apply bind_ok in H as (l & st3 & Hl & H). apply load_ok in Hl as [Hl ->].
    apply bind_ok in H as (a & st4 & Ha & H). apply lift_ok in Ha as [Ha ->].
    apply bind_ok in H as (b & st5 & Hb & H). apply lift_ok in Hb as [Hb ->].
    apply bind_ok in H as (l1 & st6 & Hl1 & H). apply lift_ok in Hl1 as [Hl1 ->].
    apply bind_ok in H as (l2 & st7 & Hl2 & H). apply lift_ok in Hl2 as [Hl2 ->].
    apply bind_ok in H as (tt' & st8 & Hst & H). apply store_ok in Hst.
    apply ret_ok in H as [-> ->].
    split; [reflexivity|]. exists u. split; [assumption|]. right.
    split; [exact Hrate|].
    rewrite Hh2, Hh in *. exists l, l2. repeat split; try assumption.
    eapply swap_items_perm with (idx1 := idx1) (idx2 := idx2); eauto; lia.
  - inv_run. split; [reflexivity|]. exists u. auto.
Qed.

End Steps.

Section Generation.

Variable coordinates : list point.
Variable population_size : Z.
Variable mutation_rate : float.

Local Abbreviation N := (num_sensors coordinates).

(** One child: [crossover] makes a new object, and [mutate] changes that
    object only. *)
Lemma breed_ok (parent1 parent2 c c' : nat) (st st1 st2 : state) :
  crossover coordinates parent1 parent2 st = Ok (c, st1) ->
  mutate coordinates c mutation_rate st1 = Ok (c', st2) ->
  c' = length (heap st) /\
  exists p1 p2 start end_ c0 l u,
    heap st !! parent1 = Some p1 /\ heap st !! parent2 = Some p2
    /\ 0 <= start <= N - 1 /\ start + 1 <= end_ <= N
    /\ crossover_at N p1 p2 start end_ = Ok c0
    /\ l ≡ₚ c0
    /\ ((0 <=? u) && (u <? 1))%float = true
    /\ ((u <? mutation_rate)%float = false -> l = c0)
    /\ heap st2 = heap st ++ [l].
Proof.
  intros Hc Hm.
  apply crossover_ok in Hc as (-> & p1 & p2 & s & e & c0 & H1 & H2 & Hs & He & Hx & Hh).
  apply mutate_ok in Hm as (-> & u & Hu & [[Hrate Hh2] | (Hrate & l & l' & Hl & Hperm & Hh2)]).
  - split; [reflexivity|]. exists p1, p2, s, e, c0, c0, u.
    rewrite Hh2, Hh. repeat split; auto; lia.
  - rewrite Hh in Hl, Hh2.
    rewrite lookup_app_r, Nat.sub_diag in Hl by lia. injection Hl as <-.
    split; [reflexivity|]. exists p1, p2, s, e, c0, l', u.
    repeat split; auto; try lia.
    + intros Hno. rewrite Hno in Hrate. discriminate.
    + rewrite Hh2. replace (length (heap st)) with (length (heap st) + 0)%nat at 1 by lia.
      rewrite insert_app_r. reflexivity.
Qed.

Lemma breed_perm (p1 p2 : list Z) (start end_ : Z) (c0 : list Z) :
  p1 ≡ₚ range 0 N -> p2 ≡ₚ range 0 N ->
  0 <= start <= N - 1 -> start + 1 <= end_ <= N ->
  crossover_at N p1 p2 start end_ = Ok c0 ->
  c0 ≡ₚ range 0 N.
Proof.
  intros Hp1 Hp2 Hs He Hx.
  rewrite (crossover_at_child N p1 p2 start end_ Hp1 Hp2) in Hx by lia.
  injection Hx as <-. apply crossover_child_perm; assumption.
Qed.

(** The reproduction loop appends its children to the store, one new
    object a turn, and changes no older object. *)
Lemma reproduce_ok (turns : nat) (weighted_choices : list nat) :
  forall (next_generation next' : list nat) (st st' : state),
    reproduce coordinates mutation_rate turns weighted_choices next_generation st
    = Ok (next', st') ->
    exists new,
      heap st' = heap st ++ new
      /\ length new = turns
      /\ next' = next_generation ++ seq (length (heap st)) turns
      /\ (heap_perms coordinates st -> heap_perms coordinates st').
Proof.
  induction turns as [|turns IH]; intros next next' st st' H.
  - simpl in H. apply ret_ok in H as [-> ->].
    exists []. rewrite !app_nil_r. auto.
  - cbn [reproduce] in H.
    apply bind_ok in H as (parents & st1 & Hch & H).
    apply choices_ok in Hch as [Hh1 _].
    destruct parents as [|parent1 [|parent2 [|? ?]]]; try discriminate.
    apply bind_ok in H as (c & st2 & Hc & H).
    apply bind_ok in H as (c' & st3 & Hm & H).
    destruct (breed_ok _ _ _ _ _ _ _ Hc Hm)
      as (-> & p1 & p2 & s & e & c0 & l & u & H1 & H2 & Hs & He & Hx & Hperm & _ & _ & Hh3).
    apply IH in H as (new & Hh & Hlen & Hnext & Hinv).
    rewrite Hh1 in *. rewrite Hh3 in Hh.
    exists (l :: new). repeat split.
    + rewrite Hh, <- app_assoc. reflexivity.
    + simpl. rewrite Hlen. reflexivity.
    + rewrite Hnext, Hh3, length_app, <- app_assoc. simpl.
      replace (length (heap st) + 1)%nat with (S (length (heap st))) by lia.
      reflexivity.
    + intros Hst. apply Hinv. unfold heap_perms in *.
      rewrite Hh3. apply Forall_app. split; [exact Hst|].
      apply Forall_singleton. rewrite Hperm.
      eapply (breed_perm p1 p2); eauto.
      * eapply (Forall_lookup_1 _ _ _ _ Hst). exact H1.
      * eapply (Forall_lookup_1 _ _ _ _ Hst). exact H2.
Qed.

End Generation.

Lemma mapM_pure {A B} (f : A -> M B) (l : list A) :
  (forall x y st st', f x st = Ok (y, st') -> st' = st) ->
  forall (ys : list B) (st st' : state),
    mapM f l st = Ok (ys, st') ->
    st' = st /\ Forall2 (fun x y => f x st = Ok (y, st)) l ys.
Proof.
  intros Hf. induction l as [|x l IH]; intros ys st st' H.
  - apply ret_ok in H as [-> ->]. auto.
  - cbn [mapM] in H.
    apply bind_ok in H as (y & st1 & Hy & H).
    apply bind_ok in H as (ys' & st2 & Hys & H).
    apply ret_ok in H as [-> ->].
    pose proof (Hf _ _ _ _ Hy) as ->.
    apply IH in Hys as [-> Hall]. auto.
Qed.

Lemma insert_desc_perm {A} (x : float * A) (l : list (float * A)) :
  insert_desc x l ≡ₚ x :: l.
Proof.
  induction l as [|y l IH]; [reflexivity|].
  simpl. destruct (fst x <? fst y)%float; [|reflexivity].
  rewrite IH. apply perm_swap.
Qed.

Lemma sorted_desc_perm {A} (l : list (float * A)) : sorted_desc l ≡ₚ l.
Proof.
  induction l as [|x l IH]; [reflexivity|].
  unfold sorted_desc in *. simpl. rewrite insert_desc_perm, IH. reflexivity.
Qed.

Lemma slice_to_elem_of {A} (l : list A) (b : Z) (x : A) :
  x ∈ slice_to l b -> x ∈ l.
Proof.
  unfold slice_to. intros H. apply elem_of_take in H as (i & H & _).
  eapply list_elem_of_lookup_2. exact H.
Qed.

Section GenerationStep.

Variable coordinates : list point.
Variable population_size : Z.
Variable mutation_rate : float.

Lemma fitness_pure (ind : nat) (st : state) :
  fitness coordinates ind st = lift (fitness_in coordinates (heap st) ind) st.
Proof.
  unfold fitness, fitness_in, bind, load, lift.
  destruct (heap st !! ind) as [l|]; [|reflexivity].
  destruct (calculate_total_distance l coordinates) as [d| |]; try reflexivity.
  cbn [res_bind]. destruct (d =? 0)%float; reflexivity.
Qed.

Lemma with_keys_pure (population : list nat) (st : state) :
  with_keys coordinates population st
  = lift (keys_in coordinates (heap st) population) st.
Proof.
  unfold with_keys. induction population as [|ind rest IH]; [reflexivity|].
  cbn [mapM keys_in]. unfold bind at 1 2. rewrite fitness_pure.
  destruct (fitness_in coordinates (heap st) ind) as [f| |]; try reflexivity.
  cbn [lift res_bind ret]. unfold bind at 1. rewrite IH.
  destruct (keys_in coordinates (heap st) rest); reflexivity.
Qed.

Lemma with_keys_ok (population : list nat) (keyed : list (float * nat))
    (st st' : state) :
  with_keys coordinates population st = Ok (keyed, st') ->
  st' = st /\ keys_in coordinates (heap st) population = Ok keyed.
Proof.
  rewrite with_keys_pure. intros H. apply lift_ok in H as [H ->]. auto.
Qed.

Lemma keys_in_ok (h : list (list Z)) (population : list nat) :
  forall keyed,
    keys_in coordinates h population = Ok keyed ->
    map snd keyed = population
    /\ Forall (fun kr => fitness_in coordinates h (snd kr) = Ok (fst kr)) keyed.
Proof.
  induction population as [|ind rest IH]; intros keyed H.
  - injection H as <-. split; constructor.
  - cbn [keys_in] in H.
    destruct (fitness_in coordinates h ind) as [f| |] eqn:Hf; try discriminate.
    destruct (keys_in coordinates h rest) as [k| |]; try discriminate.
    injection H as <-. destruct (IH k eq_refl) as [H1 H2].
    split; [simpl; f_equal; exact H1|]. constructor; assumption.
Qed.

Lemma fitness_in_valid (h : list (list Z)) (ind : nat) (f : float) :
  fitness_in coordinates h ind = Ok f -> (ind < length h)%nat.
Proof.
  unfold fitness_in. destruct (h !! ind) as [l|] eqn:Hl; [|discriminate].
  intros _. eapply lookup_lt_Some. exact Hl.
Qed.

(** Objects appended to the store leave the fitness of the older ones as
    it was. *)
Lemma fitness_in_app (h new : list (list Z)) (ind : nat) :
  (ind < length h)%nat ->
  fitness_in coordinates (h ++ new) ind = fitness_in coordinates h ind.
Proof.
  intros H. unfold fitness_in. rewrite lookup_app_l by exact H. reflexivity.
Qed.

Lemma elite_ok (population elites : list nat) (st st' : state) :
  elite coordinates population_size population st = Ok (elites, st') ->
  st' = st /\
  exists keyed,
    keys_in coordinates (heap st) population = Ok keyed
    /\ elites = slice_to (map snd (sorted_desc keyed)) (elite_size_of population_size).
Proof.
  unfold elite. intros H.
  apply bind_ok in H as (keyed & st1 & Hk & H).
  apply with_keys_ok in Hk as [-> Hk].
  apply ret_ok in H as [-> ->]. eauto.
Qed.

(** One generation: the next population is the elite of the current one,
    which are objects of the current population, followed by new objects;
    no object that was in the store before the step is changed. *)
Lemma generation_step_ok (population next : list nat) (st st' : state) :
  generation_step coordinates population_size mutation_rate population st
  = Ok (next, st') ->
  exists keyed new,
    keys_in coordinates (heap st) population = Ok keyed
    /\ next = slice_to (map snd (sorted_desc keyed)) (elite_size_of population_size)
              ++ seq (length (heap st)) (length new)
    /\ heap st' = heap st ++ new
    /\ (heap_perms coordinates st -> heap_perms coordinates st').
Proof.
  unfold generation_step. intros H.
  apply bind_ok in H as (fitnesses & st1 & Hf & H).
  apply bind_ok in H as (wc & st2 & Hwc & H).
  apply choices_weighted_ok in Hwc as [Hh2 _].
  assert (heap st1 = heap st) as Hh1.
  { apply mapM_pure in Hf as [-> _]; [reflexivity|].
    intros ind y st0 st0' Hx. rewrite fitness_pure in Hx.
    apply lift_ok in Hx as [_ ->]. reflexivity. }
  apply bind_ok in H as (elites & st3 & Hel & H).
  apply elite_ok in Hel as (-> & keyed & Hk & ->).
  apply reproduce_ok in H as (new & Hh & Hlen & Hnext & Hinv).
  rewrite Hh2, Hh1 in *.
  exists keyed, new. rewrite <- Hlen in Hnext.
  repeat split; auto.
  intros Hst. apply Hinv. unfold heap_perms in *. rewrite Hh2. exact Hst.
Qed.

End GenerationStep.

(** ** Elitism and the frame of a generation step *)

Lemma keys_in_valid (coordinates : list point) (h : list (list Z))
    (population : list nat) (keyed : list (float * nat)) :
  keys_in coordinates h population = Ok keyed ->
  forall r, r ∈ population -> (r < length h)%nat.
Proof.
  intros Hk r Hr. apply keys_in_ok in Hk as [Hsnd Hall].
  rewrite <- Hsnd in Hr. apply list_elem_of_fmap in Hr as ([f r'] & -> & Hin).
  rewrite Forall_forall in Hall. specialize (Hall _ Hin).
  eapply fitness_in_valid. exact Hall.
Qed.

Lemma elites_in_population (coordinates : list point) (h : list (list Z))
    (population : list nat) (keyed : list (float * nat)) (e : Z) :
  keys_in coordinates h population = Ok keyed ->
  forall r, r ∈ slice_to (map snd (sorted_desc keyed)) e -> r ∈ population.
Proof.
  intros Hk r Hr. apply keys_in_ok in Hk as [Hsnd _].
  apply slice_to_elem_of in Hr. rewrite sorted_desc_perm, Hsnd in Hr. exact Hr.
Qed.

(** C10. A generation step changes no list object that was in the store
    before it, so no individual of the current population: every child is a
    new object ([crossover] allocates it and [mutate] works on that object
    only), and every elite individual copied into the next generation is an
    object of the current population whose content after the step is its
    content before. *)
Theorem generation_step_frame
    (coordinates : list point) (population_size : Z) (mutation_rate : float)
    (population next : list nat) (st st' : state) :
  generation_step coordinates population_size mutation_rate population st
  = Ok (next, st') ->
  (forall r l, heap st !! r = Some l -> heap st' !! r = Some l)
  /\ (forall r, r ∈ population ->
        exists l, heap st !! r = Some l /\ heap st' !! r = Some l)
  /\ exists elites children,
       elite coordinates population_size population st = Ok (elites, st)
       /\ next = elites ++ children
       /\ (forall r, r ∈ elites ->
             r ∈ population
             /\ exists l, heap st !! r = Some l /\ heap st' !! r = Some l)
       /\ (forall c, c ∈ children ->
             heap st !! c = None /\ is_Some (heap st' !! c)).
Proof.
  intros H.
  apply generation_step_ok in H as (keyed & new & Hk & Hnext & Hh & _).
  assert (forall r l, heap st !! r = Some l -> heap st' !! r = Some l) as Hframe.
  { intros r l Hl. rewrite Hh. apply lookup_app_l_Some. exact Hl. }
  assert (forall r, r ∈ population ->
            exists l, heap st !! r = Some l /\ heap st' !! r = Some l) as Hpop.
  { intros r Hr. pose proof (keys_in_valid _ _ _ _ Hk r Hr) as Hlt.
    apply lookup_lt_is_Some_2 in Hlt as [l Hl]. eauto. }
  split; [exact Hframe|]. split; [exact Hpop|].
  eexists _, _. split; [|split; [exact Hnext|split]].
  - unfold elite, bind. rewrite with_keys_pure. unfold lift. rewrite Hk.
    reflexivity.
  - intros r Hr. pose proof (elites_in_population _ _ _ _ _ Hk r Hr) as Hin. auto.
  - intros c Hc. apply elem_of_seq in Hc. split.
    + apply lookup_ge_None. lia.
    + apply lookup_lt_is_Some. rewrite Hh, length_app. lia.
Qed.

Lemma ten_step_ok :
  generation_step square 10 0.5 ten_population ten_state = Ok (ten_next, ten_state').
Proof. vm_compute. reflexivity. Qed.

Lemma generation_step_frame_witness :
  (forall r l, heap ten_state !! r = Some l -> heap ten_state' !! r = Some l)
  /\ (forall r, r ∈ ten_population ->
        exists l, heap ten_state !! r = Some l /\ heap ten_state' !! r = Some l)
  /\ exists elites children,
       elite square 10 ten_population ten_state = Ok (elites, ten_state)
       /\ ten_next = elites ++ children
       /\ (forall r, r ∈ elites ->
             r ∈ ten_population
             /\ exists l, heap ten_state !! r = Some l /\ heap ten_state' !! r = Some l)
       /\ (forall c, c ∈ children ->
             heap ten_state !! c = None /\ is_Some (heap ten_state' !! c)).
Proof.
  exact (generation_step_frame square 10 0.5%float ten_population ten_next
           ten_state ten_state' ten_step_ok).
Defined.

(** ** Floats: comparisons of numbers that are not NaN *)

Lemma SFeqb_refl (x : spec_float) : SFeqb x x = negb (sf_is_nan x).
Proof.
  unfold SFeqb, SFcompare. destruct x as [[]|[]| |[] m e]; simpl; try reflexivity;
    rewrite Z.compare_refl; change (Pos.compare_cont Eq m m) with (Pos.compare m m);
    rewrite Pos.compare_refl; reflexivity.
Qed.

Lemma is_nan_sf (x : float) : is_nan x = sf_is_nan (Prim2SF x).
Proof.
  unfold is_nan. rewrite FloatAxioms.eqb_spec, SFeqb_refl, negb_involutive.
  reflexivity.
Qed.

Lemma SFleb_not_ltb (x y : spec_float) : SFleb x y = true -> SFltb y x = false.
Proof. sf_order. Qed.

Lemma ltb_trans (a b c : float) :
  (a <? b)%float = true -> (b <? c)%float = true -> (a <? c)%float = true.
Proof. rewrite !ltb_spec. apply SFltb_trans. Qed.

Lemma leb_trans (a b c : float) :
  (a <=? b)%float = true -> (b <=? c)%float = true -> (a <=? c)%float = true.
Proof. rewrite !leb_spec. apply SFleb_trans. Qed.

Lemma ltb_leb (a b : float) : (a <? b)%float = true -> (a <=? b)%float = true.
Proof. rewrite ltb_spec, leb_spec. apply SFltb_leb. Qed.

Lemma leb_total (a b : float) :
  is_nan a = false -> is_nan b = false ->
  (a <? b)%float = false -> (b <=? a)%float = true.
Proof. rewrite !is_nan_sf, ltb_spec, leb_spec. apply SFleb_total. Qed.

Lemma leb_refl (a : float) : is_nan a = false -> (a <=? a)%float = true.
Proof. rewrite is_nan_sf, leb_spec. apply SFleb_refl. Qed.

Lemma leb_not_ltb (a b : float) : (a <=? b)%float = true -> (b <? a)%float = false.
Proof. rewrite ltb_spec, leb_spec. apply SFleb_not_ltb. Qed.

Lemma add_nan_l (a b : float) : is_nan a = true -> is_nan (a + b) = true.
Proof.
  rewrite !is_nan_sf, add_spec. destruct (Prim2SF a); try discriminate. reflexivity.
Qed.

Lemma add_nan_r (a b : float) : is_nan b = true -> is_nan (a + b) = true.
Proof.
  rewrite !is_nan_sf, add_spec.
  destruct (Prim2SF b); try discriminate. destruct (Prim2SF a); reflexivity.
Qed.

Lemma sum_nan_acc (ws : list float) (acc : float) :
  is_nan acc = true -> is_nan (fold_left PrimFloat.add ws acc) = true.
Proof.
  revert acc. induction ws as [|w ws IH]; intros acc H; [exact H|].
  simpl. apply IH, add_nan_l, H.
Qed.

Lemma sum_not_nan (ws : list float) (acc : float) :
  is_nan (fold_left PrimFloat.add ws acc) = false ->
  is_nan acc = false /\ Forall (fun w => is_nan w = false) ws.
Proof.
  revert acc. induction ws as [|w ws IH]; intros acc H; [split; [exact H | constructor]|].
  simpl in H. apply IH in H as [Hacc Hws].
  destruct (is_nan acc) eqn:Ha.
  { rewrite (add_nan_l acc w Ha) in Hacc. discriminate. }
  destruct (is_nan w) eqn:Hw.
  { rewrite (add_nan_r acc w Hw) in Hacc. discriminate. }
  split; [reflexivity|]. constructor; assumption.
Qed.

Lemma is_finite_not_nan (a : float) : is_finite a = true -> is_nan a = false.
Proof.
  unfold is_finite. intros H. apply negb_true_iff, orb_false_iff in H as [H _]. exact H.
Qed.

(** ** [sorted] and [max] by fitness *)

Lemma insert_desc_sorted {A} (x : float * A) (l : list (float * A)) :
  is_nan (fst x) = false -> keys_ordered l ->
  StronglySorted key_ge l -> StronglySorted key_ge (insert_desc x l).
Proof.
  intros Hx Hl Hs. induction Hs as [|y l Hs IH Hy]; simpl.
  - repeat constructor.
  - apply Forall_cons in Hl as [Hny Hl].
    destruct (fst x <? fst y)%float eqn:Hlt.
    + constructor; [apply IH; exact Hl|].
      rewrite (insert_desc_perm x l). constructor; [|exact Hy].
      apply ltb_leb. exact Hlt.
    + assert (key_ge x y) as Hxy by (apply leb_total; assumption).
      constructor; [constructor; assumption|].
      constructor; [exact Hxy|].
      eapply Forall_impl; [exact Hy|]. intros z Hz. unfold key_ge in *.
      eapply leb_trans; eassumption.
Qed.

Lemma sorted_desc_sorted {A} (l : list (float * A)) :
  keys_ordered l -> StronglySorted key_ge (sorted_desc l).
Proof.
  induction 1 as [|x l Hx Hl IH]; [constructor|].
  change (sorted_desc (x :: l)) with (insert_desc x (sorted_desc l)).
  apply insert_desc_sorted; try assumption.
  unfold keys_ordered. rewrite sorted_desc_perm. exact Hl.
Qed.

Lemma max_by_elem_of {A} (rest : list (float * A)) (first : float * A) :
  max_by first rest ∈ first :: rest.
Proof.
  unfold max_by. revert first. induction rest as [|x rest IH]; intros first; simpl.
  - apply list_elem_of_here.
  - destruct (fst first <? fst x)%float.
    + apply list_elem_of_further, IH.
    + specialize (IH first). apply elem_of_cons in IH as [-> | IH].
      * apply list_elem_of_here.
      * do 2 apply list_elem_of_further. exact IH.
Qed.

Lemma max_by_ge_first {A} (rest : list (float * A)) (first : float * A) :
  is_nan (fst first) = false ->
  (fst first <=? fst (max_by first rest))%float = true.
Proof.
  intros Hn. unfold max_by.
  assert (forall best, (fst first <=? fst best)%float = true ->
            (fst first <=? fst (fold_left
               (fun best x => if (fst best <? fst x)%float then x else best)
               rest best))%float = true) as Hgen.
  { induction rest as [|x rest IH]; intros best Hb; [exact Hb|].
    simpl. apply IH. destruct (fst best <? fst x)%float eqn:Hlt; [|exact Hb].
    eapply leb_trans; [exact Hb | apply ltb_leb; exact Hlt]. }
  apply Hgen, leb_refl, Hn.
Qed.

Section Fitness.

Variable coordinates : list point.
Variable population_size : Z.
Variable mutation_rate : float.

Lemma fitnesses_keys (population : list nat) (st : state) :
  forall (fitnesses : list float) (st1 : state) (keyed : list (float * nat)),
    mapM (fitness coordinates) population st = Ok (fitnesses, st1) ->
    keys_in coordinates (heap st) population = Ok keyed ->
    fitnesses = map fst keyed.
Proof.
  induction population as [|ind rest IH]; intros fitnesses st1 keyed Hf Hk.
  - apply ret_ok in Hf as [-> _]. injection Hk as <-. reflexivity.
  - cbn [mapM] in Hf. cbn [keys_in] in Hk.
    apply bind_ok in Hf as (f & st2 & Hfit & Hf).
    rewrite fitness_pure in Hfit. apply lift_ok in Hfit as [Hfit ->].
    rewrite Hfit in Hk. cbn [res_bind] in Hk.
    apply bind_ok in Hf as (fs & st3 & Hrest & Hf).
    apply ret_ok in Hf as [-> ->].
    destruct (keys_in coordinates (heap st) rest) as [k| |] eqn:Hkr; try discriminate.
    injection Hk as <-. simpl. f_equal. eapply IH; eauto.
Qed.

Lemma choices_weighted_not_nan {A} (population : list A) (weights : list float)
    (k : nat) (chosen : list A) (st st' : state) :
  choices_weighted population weights k st = Ok (chosen, st') ->
  Forall (fun w => is_nan w = false) weights.
Proof.
  unfold choices_weighted. destruct (negb (_ =? _)%nat); [discriminate|].
  destruct weights as [|w ws]; [discriminate|].
  destruct (_ <=? _)%float; [discriminate|].
  destruct (negb (is_finite _)) eqn:Hfin; [discriminate|].
  intros _. apply negb_false_iff, is_finite_not_nan in Hfin.
  destruct (is_nan (fold_left PrimFloat.add ws w)) eqn:Hsum.
  { rewrite (add_nan_l _ 0%float Hsum) in Hfin. discriminate. }
  apply sum_not_nan in Hsum as [Hw Hws]. constructor; assumption.
Qed.

(** A generation step that returns has compared fitness values none of
    which is a NaN: the weighted draw rejects a total that is not finite. *)
Lemma generation_step_ordered (population next : list nat) (st st' : state)
    (keyed : list (float * nat)) :
  generation_step coordinates population_size mutation_rate population st
  = Ok (next, st') ->
  keys_in coordinates (heap st) population = Ok keyed ->
  keys_ordered keyed.
Proof.
  unfold generation_step. intros H Hk.
  apply bind_ok in H as (fitnesses & st1 & Hf & H).
  apply bind_ok in H as (wc & st2 & Hwc & _).
  apply choices_weighted_not_nan in Hwc.
  rewrite (fitnesses_keys _ _ _ _ _ Hf Hk) in Hwc.
  unfold keys_ordered. apply Forall_fmap in Hwc. exact Hwc.
Qed.

Lemma best_of_ok (population : list nat) (f : float) (r : nat) (st st1 : state) :
  best_of coordinates population st = Ok ((f, r), st1) ->
  st1 = st /\
  exists first rest,
    keys_in coordinates (heap st) population = Ok (first :: rest)
    /\ (f, r) = max_by first rest.
Proof.
  unfold best_of. destruct population as [|ind pop]; [discriminate|].
  intros H. apply bind_ok in H as (keyed & st2 & Hk & H).
  apply with_keys_ok in Hk as [-> Hk].
  destruct keyed as [|first rest]; [discriminate|].
  apply ret_ok in H as [-> ->]. eauto.
Qed.

End Fitness.

Lemma slice_to_head {A} (x : A) (l : list A) (b : Z) :
  1 <= b -> exists t, slice_to (x :: l) b = x :: t.
Proof.
  intros Hb. unfold slice_to, clamp.
  replace (b <? 0) with false by (symmetry; apply Z.ltb_ge; lia).
  destruct (Z.to_nat (Z.min (Z.max b 0) (Z.of_nat (length (x :: l))))) as [|n] eqn:Hn.
  - simpl length in Hn. lia.
  - simpl. eauto.
Qed.

(** ** Best fitness across a generation *)

Lemma sorted_head_max {A} (keyed : list (float * A)) (h : float * A)
    (t : list (float * A)) (x : float * A) :
  keys_ordered keyed ->
  sorted_desc keyed = h :: t ->
  x ∈ keyed -> (fst x <=? fst h)%float = true.
Proof.
  intros Hord Hs Hx.
  pose proof (sorted_desc_sorted keyed Hord) as Hsorted.
  rewrite Hs in Hsorted. apply StronglySorted_cons in Hsorted as [Hall _].
  rewrite <- (sorted_desc_perm keyed), Hs in Hx.
  apply elem_of_cons in Hx as [-> | Hx].
  - apply leb_refl. unfold keys_ordered in Hord.
    rewrite <- (sorted_desc_perm keyed), Hs in Hord.
    apply Forall_cons in Hord as [Hh _]. exact Hh.
  - rewrite Forall_forall in Hall. apply (Hall x Hx).
Qed.

(** C3, amended.  When the elite is not empty, that is when
    [int(population_size * 0.1) >= 1], the best fitness of the next
    population is at least the best fitness of the current one. *)
Theorem best_fitness_monotone
    (coordinates : list point) (population_size : Z) (mutation_rate : float)
    (population next : list nat) (st st' st1 st1' : state)
    (f f' : float) (r r' : nat) :
  1 <= elite_size_of population_size ->
  generation_step coordinates population_size mutation_rate population st
  = Ok (next, st') ->
  best_of coordinates population st = Ok ((f, r), st1) ->
  best_of coordinates next st' = Ok ((f', r'), st1') ->
  (f <=? f')%float = true.
Proof.
  intros Helite Hstep Hbest Hbest'.
  pose proof Hstep as Hstep0.
  apply generation_step_ok in Hstep as (keyed & new & Hk & Hnext & Hh & _).
  pose proof (generation_step_ordered _ _ _ _ _ _ _ _ Hstep0 Hk) as Hord.
  apply best_of_ok in Hbest as (-> & first & rest & Hk1 & Hmax).
  rewrite Hk in Hk1. injection Hk1 as ->.
  assert ((f, r) ∈ first :: rest) as Hin by (rewrite Hmax; apply max_by_elem_of).
  destruct (sorted_desc (first :: rest)) as [|h t] eqn:Hs.
  { pose proof (sorted_desc_perm (first :: rest)) as Hp. rewrite Hs in Hp.
    apply Permutation_nil_l in Hp. discriminate. }
  pose proof (sorted_head_max _ _ _ _ Hord Hs Hin) as Hfh. cbn [fst] in Hfh.
  assert (h ∈ first :: rest) as Hhin.
  { rewrite <- (sorted_desc_perm (first :: rest)), Hs. apply list_elem_of_here. }
  destruct (keys_in_ok _ _ _ _ Hk) as [_ Hall].
  rewrite Forall_forall in Hall. pose proof (Hall h Hhin) as Hfit.
  assert (is_nan (fst h) = false) as Hnan.
  { unfold keys_ordered in Hord. rewrite Forall_forall in Hord. auto. }
  cbn [map] in Hnext.
  destruct (slice_to_head (snd h) (map snd t) _ Helite) as [elites Hel].
  rewrite Hel in Hnext. cbn [app] in Hnext. subst next.
  apply best_of_ok in Hbest' as (-> & first' & rest' & Hk' & Hmax').
  cbn [keys_in] in Hk'. rewrite Hh in Hk'.
  rewrite fitness_in_app in Hk' by (eapply fitness_in_valid; exact Hfit).
  rewrite Hfit in Hk'. cbn [res_bind] in Hk'.
  destruct (keys_in _ _ _) as [k| |] in Hk'; try discriminate.
  injection Hk' as <- <-.
  pose proof (max_by_ge_first k (fst h, snd h) Hnan) as Hge.
  rewrite <- Hmax' in Hge. cbn [fst] in Hge.
  eapply leb_trans; eassumption.
Qed.

Lemma ten_best_ok :
  best_of square ten_population ten_state = Ok (ten_best, ten_state)
  /\ best_of square ten_next ten_state' = Ok (ten_best', ten_state').
Proof. split; vm_compute; reflexivity. Qed.

Lemma best_fitness_monotone_witness : (fst ten_best <=? fst ten_best')%float = true.
Proof.
  apply (best_fitness_monotone square 10 0.5%float ten_population ten_next
           ten_state ten_state' ten_state ten_state'
           (fst ten_best) (fst ten_best') (snd ten_best) (snd ten_best')).
  - vm_compute. discriminate.
  - exact ten_step_ok.
  - exact (proj1 ten_best_ok).
  - exact (proj2 ten_best_ok).
Defined.

Lemma two_step_ok :
  generation_step square 2 0.5 two_population two_state = Ok (two_next, two_state').
Proof. vm_compute. reflexivity. Qed.

(** C3, as stated, fails: with a population of two (and four nodes, mutation
    rate 0.5) the elite is empty, and a generation whose two children are
    both mutated has a best fitness below that of the generation before. *)
Lemma best_fitness_can_decrease :
  2 <= 2 /\ (0 <=? 0.5)%float && (0.5 <=? 1)%float = true
  /\ generation_step square 2 0.5 two_population two_state = Ok (two_next, two_state')
  /\ match best_of square two_population two_state,
           best_of square two_next two_state' with
     | Ok ((f, _), _), Ok ((f', _), _) => (f' <? f)%float
     | _, _ => false
     end = true.
Proof.
  split; [lia|]. split; [reflexivity|]. split; [exact two_step_ok|].
  vm_compute. reflexivity.
Qed.

(** ** The size of the elite *)

Lemma slice_to_take {A} (l : list A) (b : Z) :
  0 <= b <= Z.of_nat (length l) -> slice_to l b = take (Z.to_nat b) l.
Proof. intros H. unfold slice_to. rewrite clamp_id by exact H. reflexivity. Qed.

(** [int(n * 0.1)] is [n] divided by ten, rounded down, for every size up to
    ten thousand. *)
Lemma elite_size_of_div :
  forallb (fun n => elite_size_of n =? n / 10) (range 0 10001) = true.
Proof. vm_compute. reflexivity. Qed.

(** C2, amended.  In every generation exactly [int(population_size * 0.1)]
    individuals (the float product truncated, not rounded up) are copied
    into the next generation: they are the first ones of the population in
    descending order of fitness, they stand first in the next generation,
    they are the same objects with the same content, and every other member
    of the next generation is a new object. *)
Theorem elitism_truncated
    (coordinates : list point) (population_size : Z) (mutation_rate : float)
    (population next : list nat) (st st' : state) :
  generation_step coordinates population_size mutation_rate population st
  = Ok (next, st') ->
  0 <= elite_size_of population_size <= Z.of_nat (length population) ->
  exists keyed children,
    keys_in coordinates (heap st) population = Ok keyed
    /\ StronglySorted key_ge (sorted_desc keyed)
    /\ map snd (sorted_desc keyed) ≡ₚ population
    /\ next = take (Z.to_nat (elite_size_of population_size))
                   (map snd (sorted_desc keyed)) ++ children
    /\ length (take (Z.to_nat (elite_size_of population_size))
                    (map snd (sorted_desc keyed)))
       = Z.to_nat (elite_size_of population_size)
    /\ (forall r, r ∈ take (Z.to_nat (elite_size_of population_size))
                          (map snd (sorted_desc keyed)) ->
          exists l, heap st !! r = Some l /\ heap st' !! r = Some l)
    /\ (forall c, c ∈ children -> heap st !! c = None).
Proof.
  intros Hstep He. pose proof Hstep as Hstep0.
  apply generation_step_ok in Hstep as (keyed & new & Hk & Hnext & Hh & _).
  pose proof (generation_step_ordered _ _ _ _ _ _ _ _ Hstep0 Hk) as Hord.
  destruct (keys_in_ok _ _ _ _ Hk) as [Hsnd _].
  assert (map snd (sorted_desc keyed) ≡ₚ population) as Hperm
    by (rewrite sorted_desc_perm; rewrite Hsnd; reflexivity).
  assert (length (map snd (sorted_desc keyed)) = length population) as Hlen
    by (rewrite Hperm; reflexivity).
  rewrite slice_to_take in Hnext by (rewrite Hlen; exact He).
  exists keyed, (seq (length (heap st)) (length new)).
  split; [exact Hk|]. split; [apply sorted_desc_sorted, Hord|].
  split; [exact Hperm|]. split; [exact Hnext|]. split; [|split].
  - rewrite length_take, Hlen. lia.
  - intros r Hr. apply elem_of_take in Hr as (i & Hr & _).
    apply list_elem_of_lookup_2 in Hr. rewrite Hperm in Hr.
    pose proof (keys_in_valid _ _ _ _ Hk r Hr) as Hlt.
    apply lookup_lt_is_Some_2 in Hlt as [l Hl]. exists l. split; [exact Hl|].
    rewrite Hh. apply lookup_app_l_Some. exact Hl.
  - intros c Hc. apply elem_of_seq in Hc. apply lookup_ge_None. lia.
Qed.

Lemma elitism_truncated_witness :
  exists keyed children,
    keys_in square (heap ten_state) ten_population = Ok keyed
    /\ StronglySorted key_ge (sorted_desc keyed)
    /\ map snd (sorted_desc keyed) ≡ₚ ten_population
    /\ ten_next = take (Z.to_nat (elite_size_of 10)) (map snd (sorted_desc keyed))
                  ++ children
    /\ length (take (Z.to_nat (elite_size_of 10)) (map snd (sorted_desc keyed)))
       = Z.to_nat (elite_size_of 10)
    /\ (forall r, r ∈ take (Z.to_nat (elite_size_of 10)) (map snd (sorted_desc keyed)) ->
          exists l, heap ten_state !! r = Some l /\ heap ten_state' !! r = Some l)
    /\ (forall c, c ∈ children -> heap ten_state !! c = None).
Proof.
  apply (elitism_truncated square 10 0.5%float ten_population ten_next
           ten_state ten_state' ten_step_ok).
  vm_compute. split; discriminate.
Defined.

Lemma five_step_ok :
  generation_step square 5 0.5 five_population five_state = Ok (five_next, five_state').
Proof. vm_compute. reflexivity. Qed.

(** C2, as stated, fails: for a population of five,
    [ceil(5 * 0.1)] is one, but no individual of the population is in the
    next generation. *)
Lemma elitism_not_ceil :
  generation_step square 5 0.5 five_population five_state = Ok (five_next, five_state')
  /\ elite_size_spec 5 = 1
  /\ elite_size_of 5 = 0
  /\ length (filter (fun r => r ∈ five_population) five_next) <> Z.to_nat (elite_size_spec 5).
Proof.
  split; [exact five_step_ok|]. repeat split; vm_compute; discriminate || reflexivity.
Qed.

(** ** Tours over coordinates whose distances are finite *)

Lemma getitem_valid {A} (l : list A) (k : Z) :
  0 <= k < Z.of_nat (length l) -> exists x, getitem l k = Ok x /\ x ∈ l.
Proof.
  intros Hk.
  destruct (lookup_lt_is_Some_2 l (Z.to_nat k)) as [x Hx]; [lia|].
  exists x. split; [|eapply list_elem_of_lookup_2; exact Hx].
  rewrite <- (Z2Nat.id k) by lia. apply getitem_lookup. exact Hx.
Qed.

Lemma finite_distances_spec (coordinates : list point) (p q : point) :
  finite_distances coordinates = true ->
  p ∈ coordinates -> q ∈ coordinates ->
  (euclidean_distance p q <? infinity)%float = true.
Proof.
  unfold finite_distances. intros H Hp Hq.
  rewrite forallb_forall in H. apply list_elem_of_In in Hp, Hq.
  specialize (H p Hp). rewrite forallb_forall in H. exact (H q Hq).
Qed.

Section FiniteDistances.

Variable coordinates : list point.
Hypothesis Hfinite : finite_distances coordinates = true.

Local Abbreviation valid := (fun k : Z => 0 <= k < Z.of_nat (length coordinates)).

Lemma add_edge_nonneg (acc : float) (e : Z * Z) :
  valid (fst e) -> valid (snd e) -> (0 <=? acc)%float = true ->
  exists d, add_edge coordinates acc e = Ok d /\ (0 <=? d)%float = true.
Proof.
  intros H1 H2 Hacc. unfold add_edge.
  destruct (getitem_valid coordinates (fst e) H1) as (p & -> & Hp).
  destruct (getitem_valid coordinates (snd e) H2) as (q & -> & Hq).
  cbn [res_bind]. eexists. split; [reflexivity|].
  apply add_nonneg; [exact Hacc|].
  apply distance_nonneg, (finite_distances_spec coordinates); assumption.
Qed.

Lemma edges_nonneg (edges : list (Z * Z)) :
  Forall (fun e => valid (fst e) /\ valid (snd e)) edges ->
  forall acc, (0 <=? acc)%float = true ->
    exists d, for_each (add_edge coordinates) edges acc = Ok d
              /\ (0 <=? d)%float = true.
Proof.
  induction 1 as [|e edges [H1 H2] _ IH]; intros acc Hacc.
  - exists acc. auto.
  - cbn [for_each].
    destruct (add_edge_nonneg acc e H1 H2 Hacc) as (d & -> & Hd).
    cbn [res_bind]. apply IH, Hd.
Qed.

Lemma consecutive_pairs_valid (route : list Z) :
  Forall valid route ->
  Forall (fun e => valid (fst e) /\ valid (snd e)) (consecutive_pairs route).
Proof.
  induction 1 as [|a route Ha Hroute IH]; [constructor|].
  destruct route as [|b rest]; [constructor|].
  cbn [consecutive_pairs]. constructor; [|exact IH].
  apply Forall_cons in Hroute as [Hb _]. split; assumption.
Qed.

(** The tour length of a route over valid nodes is computed, and is not
    negative. *)
Lemma tour_nonneg (route : list Z) :
  Forall valid route ->
  exists d, calculate_total_distance route coordinates = Ok d
            /\ (0 <=? d)%float = true.
Proof.
  intros Hroute. rewrite total_distance_tour_length.
  destruct route as [|a [|b rest]]; try (exists 0%float; split; reflexivity).
  unfold tour_length. apply edges_nonneg; [|reflexivity].
  apply Forall_app. split; [apply consecutive_pairs_valid, Hroute|].
  apply Forall_singleton. cbn [fst snd]. split.
  - rewrite Forall_forall in Hroute. apply Hroute.
    destruct (exists_last (l := a :: b :: rest)) as (front & z & ->); [discriminate|].
    rewrite last_last. apply elem_of_app. right. apply list_elem_of_here.
  - apply Forall_cons in Hroute as [Ha _]. exact Ha.
Qed.

End FiniteDistances.

(** ** The greedy optimiser returns a permutation *)

Lemma list_remove_ok (x : Z) (l : list Z) :
  x ∈ l -> exists l', list_remove x l = Ok l' /\ l ≡ₚ x :: l'.
Proof.
  induction l as [|y l IH]; intros Hx; [inversion Hx|].
  cbn [list_remove]. destruct (Z.eqb_spec y x) as [->|Hne].
  - exists l. auto.
  - apply elem_of_cons in Hx as [->|Hx]; [congruence|].
    destruct (IH Hx) as (l' & -> & Hp). cbn [res_bind].
    exists (y :: l'). split; [reflexivity|]. rewrite Hp. apply perm_swap.
Qed.

Lemma range_cons (a b : Z) : a < b -> range a b = a :: range (a + 1) b.
Proof.
  intros H. unfold range.
  replace (Z.to_nat (b - a)) with (S (Z.to_nat (b - (a + 1)))) by lia.
  cbn [seq map]. f_equal; [lia|].
  rewrite <- seq_shift, map_map. apply map_ext. intros k. lia.
Qed.

Section Greedy.

Variable coordinates : list point.
Hypothesis Hfinite : finite_distances coordinates = true.

Local Abbreviation valid := (fun k : Z => 0 <= k < Z.of_nat (length coordinates)).

Lemma nearest_scan_some (current_node : Z) (unvisited : list Z) :
  valid current_node -> Forall valid unvisited ->
  forall (x : Z) (m : float),
    exists y m', nearest_scan coordinates current_node unvisited (Some x) m
                 = Ok (Some y, m')
                 /\ (y = x \/ y ∈ unvisited).
Proof.
  intros Hc. induction 1 as [|n rest Hn _ IH]; intros x m.
  - exists x, m. auto.
  - cbn [nearest_scan].
    destruct (getitem_valid coordinates current_node Hc) as (pc & -> & _).
    destruct (getitem_valid coordinates n Hn) as (pn & -> & _).
    cbn [res_bind]. destruct (_ <? m)%float.
    + destruct (IH n (euclidean_distance pc pn)) as (y & m' & -> & [Hy | Hy]);
        exists y, m'; (split; [reflexivity|]); right;
        [rewrite Hy; apply list_elem_of_here | apply list_elem_of_further; exact Hy].
    + destruct (IH x m) as (y & m' & -> & [Hy | Hy]);
        exists y, m'; (split; [reflexivity|]); [left; exact Hy|].
      right. apply list_elem_of_further. exact Hy.
Qed.

(** From a non-empty list of unvisited nodes the scan picks one of them:
    the first distance is below infinity. *)
Lemma nearest_scan_picks (current_node n : Z) (rest : list Z) :
  valid current_node -> Forall valid (n :: rest) ->
  exists y m', nearest_scan coordinates current_node (n :: rest) None infinity
               = Ok (Some y, m')
               /\ y ∈ n :: rest.
Proof.
  intros Hc Hall. apply Forall_cons in Hall as [Hn Hrest].
  cbn [nearest_scan].
  destruct (getitem_valid coordinates current_node Hc) as (pc & -> & Hpc).
  destruct (getitem_valid coordinates n Hn) as (pn & -> & Hpn).
  cbn [res_bind].
  rewrite (finite_distances_spec coordinates pc pn Hfinite Hpc Hpn).
  destruct (nearest_scan_some current_node rest Hc Hrest n (euclidean_distance pc pn))
    as (y & m' & -> & [Hy | Hy]); exists y, m'; (split; [reflexivity|]).
  - rewrite Hy. apply list_elem_of_here.
  - apply list_elem_of_further. exact Hy.
Qed.

Lemma greedy_loop_ok (fuel : nat) :
  forall (current_node : Z) (unvisited route : list Z),
    (length unvisited <= fuel)%nat ->
    valid current_node -> Forall valid unvisited ->
    exists r, greedy_loop fuel coordinates current_node unvisited route = Ok r
              /\ r ≡ₚ route ++ unvisited.
Proof.
  induction fuel as [|fuel IH]; intros cur unvisited route Hlen Hc Hall.
  - destruct unvisited; [|simpl in Hlen; lia].
    exists route. rewrite app_nil_r. auto.
  - destruct unvisited as [|n rest].
    { exists route. rewrite app_nil_r. auto. }
    cbn [greedy_loop].
    destruct (nearest_scan_picks cur n rest Hc Hall) as (nn & m' & -> & Hnn).
    cbn [res_bind].
    destruct (list_remove_ok nn (n :: rest) Hnn) as (unvisited' & -> & Hperm).
    cbn [res_bind].
    assert (valid nn) as Hvn by (rewrite Forall_forall in Hall; auto).
    pose proof (Permutation_length Hperm) as Hl. simpl in Hl, Hlen.
    destruct (IH nn unvisited' (route ++ [nn])) as (r & -> & Hr); [lia|exact Hvn| |].
    + rewrite Hperm in Hall. apply Forall_cons in Hall as [_ Hall]. exact Hall.
    + exists r. split; [reflexivity|].
      rewrite Hr, Hperm, <- app_assoc. reflexivity.
Qed.

Lemma greedy_ok :
  (1 <= length coordinates)%nat ->
  exists route,
    greedy_route_optimizer coordinates = Ok route
    /\ route ≡ₚ range 0 (Z.of_nat (length coordinates)).
Proof.
  intros HN. unfold greedy_route_optimizer.
  destruct (greedy_loop_ok (length (range 1 (Z.of_nat (length coordinates)))) 0
              (range 1 (Z.of_nat (length coordinates))) [0])
    as (r & Hr & Hperm).
  - lia.
  - lia.
  - apply Forall_forall. intros k Hk. apply elem_of_range in Hk. lia.
  - exists r. split; [exact Hr|].
    rewrite Hperm, (range_cons 0) by lia. reflexivity.
Qed.

End Greedy.

(** ** The genetic algorithm keeps permutations *)

Lemma shuffle_ok (r : nat) (u : unit) (st st' : state) :
  shuffle r st = Ok (u, st') ->
  exists l order,
    heap st !! r = Some l /\ order ≡ₚ l
    /\ heap st' = <[r := order]> (heap st)
    /\ tape st = DShuffle order :: tape st'.
Proof.
  unfold shuffle. intros H.
  apply bind_ok in H as (l & st1 & Hl & H). apply load_ok in Hl as [Hl ->].
  apply bind_ok in H as (d & st2 & Hd & H). apply next_draw_ok in Hd as [Hh Ht].
  destruct d as [order| | | |]; try discriminate.
  destruct (bool_decide (order ≡ₚ l)) eqn:Hp; [|discriminate].
  apply bool_decide_eq_true in Hp.
  unfold store in H. injection H as _ <-. cbn [tape heap].
  exists l, order. rewrite Hh. auto.
Qed.

Section Invariant.

Variable coordinates : list point.
Variable population_size : Z.
Variable mutation_rate : float.

Local Abbreviation N := (num_sensors coordinates).

Lemma create_individual_ok (r : nat) (st st' : state) :
  create_individual coordinates st = Ok (r, st') ->
  r = length (heap st) /\
  exists p, p ≡ₚ range 0 N
            /\ heap st' = heap st ++ [p]
            /\ tape st = DShuffle p :: tape st'.
Proof.
  unfold create_individual. intros H.
  apply bind_ok in H as (route & st1 & Ha & H).
  pose proof Ha as Ha'. apply alloc_ok in Ha as [-> Hh1].
  unfold alloc in Ha'. injection Ha' as Hst1.
  apply bind_ok in H as (u & st2 & Hs & H).
  apply ret_ok in H as [-> ->].
  apply shuffle_ok in Hs as (l & order & Hl & Hperm & Hh2 & Ht).
  rewrite Hh1 in Hl, Hh2. rewrite lookup_app_r, Nat.sub_diag in Hl by lia.
  injection Hl as <-.
  split; [reflexivity|]. exists order. split; [exact Hperm|]. split.
  - rewrite Hh2. replace (length (heap st)) with (length (heap st) + 0)%nat at 1 by lia.
    rewrite insert_app_r. reflexivity.
  - rewrite <- Hst1 in Ht. exact Ht.
Qed.

Lemma create_population_perms (indices : list Z) :
  forall (population : list nat) (st st' : state),
    mapM (fun _ => create_individual coordinates) indices st = Ok (population, st') ->
    heap_perms coordinates st -> heap_perms coordinates st'.
Proof.
  induction indices as [|i indices IH]; intros population st st' H Hinv.
  - apply ret_ok in H as [_ ->]. exact Hinv.
  - cbn [mapM] in H.
    apply bind_ok in H as (r & st1 & Hr & H).
    apply bind_ok in H as (rs & st2 & Hrs & H).
    apply ret_ok in H as [-> ->].
    apply create_individual_ok in Hr as (_ & p & Hp & Hh & _).
    eapply IH; [exact Hrs|].
    unfold heap_perms in *. rewrite Hh. apply Forall_app. split; [exact Hinv|].
    apply Forall_singleton. exact Hp.
Qed.

Lemma evolve_perms (generations : nat) :
  forall (population population' : list nat) (st st' : state),
    evolve coordinates population_size mutation_rate generations population st
    = Ok (population', st') ->
    heap_perms coordinates st -> heap_perms coordinates st'.
Proof.
  induction generations as [|g IH]; intros population population' st st' H Hinv.
  - apply ret_ok in H as [_ ->]. exact Hinv.
  - cbn [evolve] in H. apply bind_ok in H as (next & st1 & Hstep & H).
    apply generation_step_ok in Hstep as (_ & _ & _ & _ & _ & Hkeep).
    eapply IH; [exact H|]. apply Hkeep, Hinv.
Qed.

(** Whatever the tape, a route that the genetic algorithm returns is a
    permutation of [0 .. N-1]. *)
Lemma genetic_algorithm_perm (generations : nat) (route : list Z) (st st' : state) :
  genetic_algorithm coordinates population_size mutation_rate generations st
  = Ok (route, st') ->
  heap_perms coordinates st ->
  route ≡ₚ range 0 N.
Proof.
  unfold genetic_algorithm. intros H Hinv.
  apply bind_ok in H as (pop & st1 & Hpop & H).
  apply bind_ok in H as (pop' & st2 & Hev & H).
  apply bind_ok in H as ([f best] & st3 & Hbest & H).
  apply load_ok in H as [Hl ->].
  apply best_of_ok in Hbest as (-> & _).
  apply create_population_perms in Hpop; [|exact Hinv].
  apply evolve_perms in Hev; [|exact Hpop].
  unfold heap_perms in Hev. eapply Forall_lookup_1 in Hev; [|exact Hl]. exact Hev.
Qed.

End Invariant.

Lemma run_ok {A} (m : M A) (t : list draw) (a : A) :
  run m t = Ok a -> exists st', m (mkState [] t) = Ok (a, st').
Proof.
  unfold run. destruct (m (mkState [] t)) as [[a' st']| |]; try discriminate.
  intros H. injection H as <-. eauto.
Qed.

Lemma perm_range_valid (route : list Z) (n : nat) :
  route ≡ₚ range 0 (Z.of_nat n) ->
  Forall (fun k => 0 <= k < Z.of_nat n) route.
Proof.
  intros H. apply Forall_forall. intros k Hk. rewrite H in Hk.
  apply elem_of_range in Hk. exact Hk.
Qed.


Lemma small_run_ok :
  run (genetic_algorithm square 2 0.5 1) small_tape = Ok small_route.
Proof. vm_compute. reflexivity. Qed.


(** ** Degenerate inputs *)

Lemma fitness_zero_raises (coordinates : list point) (st : state) (ind : nat)
    (l : list Z) (d : float) :
  heap st !! ind = Some l ->
  calculate_total_distance l coordinates = Ok d ->
  (d =? 0)%float = true ->
  fitness coordinates ind st = Raise ZeroDivisionError.
Proof.
  intros Hl Hd Hz. rewrite fitness_pure. unfold fitness_in.
  rewrite Hl, Hd. cbn [res_bind]. rewrite Hz. reflexivity.
Qed.

(** C6: what the code does.  The fitness of an individual whose tour length
    is zero is not a sentinel: [1 / 0] raises [ZeroDivisionError], for a
    single node as for two nodes at the same place, and the exception ends
    the genetic algorithm. *)
Theorem fitness_zero_division :
  calculate_total_distance [0] [(0, 0)%float] = Ok 0%float
  /\ fitness [(0, 0)%float] 0 (mkState [[0]] []) = Raise ZeroDivisionError
  /\ calculate_total_distance [0; 1] [(5, 5)%float; (5, 5)%float] = Ok 0%float
  /\ fitness [(5, 5)%float; (5, 5)%float] 0 (mkState [[0; 1]] [])
     = Raise ZeroDivisionError
  /\ run (genetic_algorithm [(5, 5)%float; (5, 5)%float] 2 0.5 1)
         [DShuffle [0; 1]; DShuffle [1; 0]]
     = Raise ZeroDivisionError.
Proof. repeat split; vm_compute; reflexivity. Qed.

(** C7, as stated, fails: for no coordinates the greedy optimiser returns
    the route [0], not the empty route; the genetic algorithm raises
    [ZeroDivisionError] for no node and for one node; and for one node a
    mutation that fires raises [ValueError]. *)
Lemma degenerate_inputs_fail :
  greedy_route_optimizer [] = Ok [0]
  /\ greedy_route_optimizer [] <> Ok []
  /\ run (genetic_algorithm [] 2 0.5 1) [DShuffle []; DShuffle []]
     = Raise ZeroDivisionError
  /\ run (genetic_algorithm [(0, 0)%float] 2 0.5 1) [DShuffle [0]; DShuffle [0]]
     = Raise ZeroDivisionError
  /\ mutate [(0, 0)%float] 0 0.5 (mkState [[0]] [DRandom 0.25])
     = Raise ValueError.
Proof.
  split; [reflexivity|]. split; [discriminate|].
  repeat split; vm_compute; reflexivity.
Qed.

(** C7, amended.  For one node the greedy optimiser returns the route [0],
    whose tour length is 0, and raises nothing; for no node it returns the
    route [0] as well (node 0 enters the route before any coordinate is
    read), whose tour length is 0; for one node the slice bounds of
    crossover can only be [0, 1) and the child is the parent's copy, and
    [mutate] returns the individual as it is when its draw is not below the
    rate. *)
Theorem degenerate_inputs (p : point) :
  greedy_route_optimizer [p] = Ok [0]
  /\ calculate_total_distance [0] [p] = Ok 0%float
  /\ greedy_route_optimizer [] = Ok [0]
  /\ calculate_total_distance [0] [] = Ok 0%float
  /\ (forall start end_,
        0 <= start <= num_sensors [p] - 1 ->
        start + 1 <= end_ <= num_sensors [p] ->
        crossover_at (num_sensors [p]) [0] [0] start end_ = Ok [0])
  /\ (forall individual rate u h t,
        ((0 <=? u) && (u <? 1))%float = true ->
        (u <? rate)%float = false ->
        mutate [p] individual rate (mkState h (DRandom u :: t))
        = Ok (individual, mkState h t)).
Proof.
  split; [reflexivity|]. split; [reflexivity|].
  split; [reflexivity|]. split; [reflexivity|]. split.
  - intros start end_ Hs He. unfold num_sensors in *. simpl length in *.
    assert (start = 0) as -> by lia. assert (end_ = 1) as -> by lia.
    reflexivity.
  - intros individual rate u h t Hu Hrate.
    unfold mutate, bind, random_random, next_draw. cbn [tape heap bind].
    unfold bind. cbn [tape heap]. rewrite Hu. unfold ret. rewrite Hrate.
    reflexivity.
Qed.

Lemma degenerate_inputs_witness :
  greedy_route_optimizer [(0, 0)%float] = Ok [0]
  /\ calculate_total_distance [0] [(0, 0)%float] = Ok 0%float
  /\ greedy_route_optimizer [] = Ok [0]
  /\ calculate_total_distance [0] [] = Ok 0%float
  /\ crossover_at (num_sensors [(0, 0)%float]) [0] [0] 0 1 = Ok [0]
  /\ mutate [(0, 0)%float] 0 0.5 (mkState [[0]] [DRandom 0.75])
     = Ok (0%nat, mkState [[0]] []).
Proof.
  destruct (degenerate_inputs (0, 0)%float) as (H1 & H2 & H3 & H4 & H5 & H6).
  split; [exact H1|]. split; [exact H2|]. split; [exact H3|]. split; [exact H4|].
  split.
  - apply H5; unfold num_sensors; simpl; lia.
  - apply H6; reflexivity.
Defined.

(** ** A parent crossed with itself *)

Lemma filter_keep {A} (P : A -> Prop) `{forall x, Decision (P x)} (l : list A) :
  Forall P l -> filter P l = l.
Proof.
  induction 1 as [|x l Hx _ IH]; [reflexivity|].
  rewrite filter_cons_True by exact Hx. f_equal. exact IH.
Qed.

Lemma filter_none {A} (P : A -> Prop) `{forall x, Decision (P x)} (l : list A) :
  Forall (fun x => ~ P x) l -> filter P l = [].
Proof.
  induction 1 as [|x l Hx _ IH]; [reflexivity|].
  rewrite filter_cons_False by exact Hx. exact IH.
Qed.

Lemma split_at_slice {A} (l : list A) (start end_ : Z) :
  0 <= start <= end_ -> end_ <= Z.of_nat (length l) ->
  l = take (Z.to_nat start) l ++ slice l start end_ ++ drop (Z.to_nat end_) l.
Proof.
  intros Hs He. rewrite slice_bounds by lia.
  rewrite <- (take_drop (Z.to_nat start) l) at 1. f_equal.
  rewrite <- (take_drop (Z.to_nat end_ - Z.to_nat start) (drop (Z.to_nat start) l)) at 1.
  f_equal. rewrite drop_drop. f_equal. lia.
Qed.

Lemma crossover_self (num_sensors : Z) (parent : list Z) (start end_ : Z) :
  parent ≡ₚ range 0 num_sensors ->
  0 <= start < end_ -> end_ <= num_sensors ->
  crossover_at num_sensors parent parent start end_ = Ok parent.
Proof.
  intros Hp Hs He.
  rewrite (crossover_at_child num_sensors parent parent start end_ Hp Hp Hs He).
  assert (Z.of_nat (length parent) = num_sensors) as Hlen
    by (rewrite Hp, length_range; lia).
  set (kept := slice parent start end_).
  pose proof (split_at_slice parent start end_) as Hsplit.
  fold kept in Hsplit. specialize (Hsplit ltac:(lia) ltac:(lia)).
  assert (NoDup parent) as Hnd by (rewrite Hp; apply NoDup_range).
  rewrite Hsplit in Hnd.
  apply NoDup_app in Hnd as (_ & Hleft & Hnd).
  apply NoDup_app in Hnd as (_ & Hright & _).
  assert (filter (fun item => negb (contains kept item)) parent
          = take (Z.to_nat start) parent ++ drop (Z.to_nat end_) parent) as Hrem.
  { rewrite Hsplit at 1. rewrite !filter_app.
    rewrite (filter_keep _ (take (Z.to_nat start) parent)).
    - rewrite (filter_none _ kept).
      + rewrite (filter_keep _ (drop (Z.to_nat end_) parent)); [reflexivity|].
        apply Forall_forall. intros x Hx. apply not_contains_elem_of.
        intros Hk. exact (Hright x Hk Hx).
      + apply Forall_forall. intros x Hx Hnot.
        apply not_contains_elem_of in Hnot. contradiction.
    - apply Forall_forall. intros x Hx. apply not_contains_elem_of.
      intros Hk. apply (Hleft x Hx). apply elem_of_app. left. exact Hk. }
  rewrite Hrem.
  rewrite take_app_length' by (rewrite length_take; lia).
  rewrite drop_app_length' by (rewrite length_take; lia).
  rewrite <- Hsplit. reflexivity.
Qed.

(** ** A population of one *)

Lemma elite_size_of_one : elite_size_of 1 = 0.
Proof. vm_compute. reflexivity. Qed.

(** *** The draws a step reads *)

Lemma quiet_app (rate : float) (t1 t2 : list draw) :
  quiet rate (t1 ++ t2) = quiet rate t1 && quiet rate t2.
Proof. apply forallb_app. Qed.

Lemma randint_tape (a b n : Z) (st st' : state) :
  randint a b st = Ok (n, st') -> tape st = DRandint n :: tape st'.
Proof.
  unfold randint. destruct (b <? a); [discriminate|]. intros H. inv_run.
  apply next_draw_ok in Hrun as [_ Ht].
  destruct a0; try discriminate.
  destruct ((a <=? n0) && (n0 <=? b)); [|discriminate].
  inv_run. exact Ht.
Qed.

Lemma choices_tape {A} (population : list A) (k : nat) (chosen : list A)
    (st st' : state) :
  choices population k st = Ok (chosen, st') ->
  exists consumed,
    tape st = consumed ++ tape st' /\ forall rate, quiet rate consumed = true.
Proof.
  unfold choices. destruct k as [|k].
  - intros H. inv_run. exists []. auto.
  - destruct population as [|y population]; [discriminate|].
    intros H. inv_run. apply next_draw_ok in Hrun as [_ Ht].
    destruct a; try discriminate.
    destruct (picks_ok _ _ _); [|discriminate]. inv_run.
    exists [DChoices picks]. auto.
Qed.

Lemma choices_weighted_tape {A} (population : list A) (weights : list float)
    (k : nat) (chosen : list A) (st st' : state) :
  choices_weighted population weights k st = Ok (chosen, st') ->
  exists consumed,
    tape st = consumed ++ tape st' /\ forall rate, quiet rate consumed = true.
Proof.
  unfold choices_weighted. destruct (negb _); [discriminate|].
  destruct weights as [|w ws]; [discriminate|].
  destruct (_ <=? _)%float; [discriminate|].
  destruct (negb _); [discriminate|].
  destruct k as [|k].
  - intros H. apply ret_ok in H as [-> ->]. exists []. auto.
  - intros H. inv_run. apply next_draw_ok in Hrun as [_ Ht].
    destruct a; try discriminate.
    destruct (picks_ok _ _ _); [|discriminate]. inv_run.
    exists [DChoices picks]. auto.
Qed.

Lemma crossover_tape (coordinates : list point) (parent1 parent2 child : nat)
    (st st' : state) :
  crossover coordinates parent1 parent2 st = Ok (child, st') ->
  exists start end_, tape st = DRandint start :: DRandint end_ :: tape st'.
Proof.
  unfold crossover. intros H. inv_run.
  apply randint_tape in Hrun, Hrun0.
  unfold alloc in H. injection H as _ <-. cbn [tape].
  exists a, a0. rewrite Hrun, Hrun0. reflexivity.
Qed.

(** [mutate] reads one [random.random()] result, and the two places to swap
    when that result is below the rate; on quiet draws it changes nothing. *)
Lemma mutate_tape (coordinates : list point) (individual r : nat) (rate : float)
    (st st' : state) :
  mutate coordinates individual rate st = Ok (r, st') ->
  exists consumed,
    tape st = consumed ++ tape st'
    /\ (quiet rate consumed = true -> heap st' = heap st).
Proof.
  unfold mutate. intros H. apply bind_ok in H as (u & st1 & Hu & H).
  assert (heap st1 = heap st /\ tape st = DRandom u :: tape st1) as [Hh Ht].
  { unfold random_random in Hu. inv_run. apply next_draw_ok in Hrun as [Hh Ht].
    destruct a; try discriminate.
    destruct ((0 <=? u0) && (u0 <? 1))%float; [|discriminate].
    inv_run. auto. }
  destruct (u <? rate)%float eqn:Hrate.
  - apply bind_ok in H as ([idx1 idx2] & st2 & Hs & H).
    assert (tape st1 = DSample idx1 idx2 :: tape st2) as Ht2.
    { unfold sample2 in Hs. destruct (_ <? 2); [discriminate|].
      apply bind_ok in Hs as (d & st0 & Hd & Hs).
      apply next_draw_ok in Hd as [_ Ht2].
      destruct d; try discriminate.
      destruct (_ && _) in Hs; [|discriminate].
      apply ret_ok in Hs as [Hs ->]. injection Hs as -> ->. exact Ht2. }
    apply bind_ok in H as (l & st3 & Hl & H). apply load_ok in Hl as [Hl ->].
    apply bind_ok in H as (a & st4 & Ha & H). apply lift_ok in Ha as [Ha ->].
    apply bind_ok in H as (b & st5 & Hb & H). apply lift_ok in Hb as [Hb ->].
    apply bind_ok in H as (l1 & st6 & Hl1 & H). apply lift_ok in Hl1 as [Hl1 ->].
    apply bind_ok in H as (l2 & st7 & Hl2 & H). apply lift_ok in Hl2 as [Hl2 ->].
    apply bind_ok in H as (tt' & st8 & Hst & H).
    unfold store in Hst. injection Hst as _ <-.
    apply ret_ok in H as [-> ->]. cbn [tape].
    exists [DRandom u; DSample idx1 idx2]. split.
    + rewrite Ht, Ht2. reflexivity.
    + cbn [quiet forallb]. rewrite Hrate. discriminate.
  - apply ret_ok in H as [-> ->].
    exists [DRandom u]. split; [exact Ht|]. intros _. exact Hh.
Qed.

Section Single.

Variable coordinates : list point.
Variable mutation_rate : float.

Local Abbreviation N := (num_sensors coordinates).

(** With one individual the elite is empty: the next population is one new
    object, the crossover of the individual with itself, which is a copy of
    it, then mutated or not. *)
Lemma single_generation (r : nat) (next : list nat) (st st' : state) :
  heap_perms coordinates st ->
  generation_step coordinates 1 mutation_rate [r] st = Ok (next, st') ->
  exists l l' child st2 st3 consumed,
    heap st !! r = Some l
    /\ heap st2 = heap st
    /\ crossover coordinates r r st2 = Ok (child, st3)
    /\ child = length (heap st)
    /\ heap st3 = heap st ++ [l]
    /\ mutate coordinates child mutation_rate st3 = Ok (child, st')
    /\ next = [child]
    /\ heap st' = heap st ++ [l']
    /\ l' ≡ₚ l
    /\ tape st = consumed ++ tape st'
    /\ (quiet mutation_rate consumed = true -> l' = l)
    /\ ((mutation_rate <=? 0)%float = true -> l' = l).
Proof.
  intros Hinv H. unfold generation_step in H.
  apply bind_ok in H as (fitnesses & st1 & Hf & H).
  assert (st1 = st) as ->.
  { apply mapM_pure in Hf as [-> _]; [reflexivity|].
    intros ind y st0 st0' Hx. rewrite fitness_pure in Hx.
    apply lift_ok in Hx as [_ ->]. reflexivity. }
  apply bind_ok in H as (wc & st2 & Hwc & H).
  pose proof (choices_weighted_tape _ _ _ _ _ _ Hwc) as (c1 & Ht1 & Hq1).
  apply choices_weighted_ok in Hwc as [Hh2 Hwc].
  apply bind_ok in H as (elites & st3 & Hel & H).
  apply elite_ok in Hel as (-> & keyed & Hk & ->).
  rewrite elite_size_of_one in H.
  unfold slice_to in H. rewrite clamp_id in H by lia.
  change (Z.to_nat 0) with 0%nat in H. rewrite take_0 in H.
  change (Z.to_nat (1 - Z.of_nat (length (@nil nat)))) with 1%nat in H.
  cbn [reproduce] in H.
  apply bind_ok in H as (parents & st4 & Hch & H).
  pose proof (choices_tape _ _ _ _ _ Hch) as (c2 & Ht2 & Hq2).
  apply choices_ok in Hch as [Hh4 Hpar].
  destruct parents as [|parent1 [|parent2 [|? ?]]]; try discriminate.
  assert (parent1 = r) as ->.
  { specialize (Hwc parent1 (Hpar parent1 ltac:(apply list_elem_of_here))).
    apply list_elem_of_singleton in Hwc. exact Hwc. }
  assert (parent2 = r) as ->.
  { specialize (Hwc parent2 (Hpar parent2
      ltac:(apply list_elem_of_further, list_elem_of_here))).
    apply list_elem_of_singleton in Hwc. exact Hwc. }
  apply bind_ok in H as (c & st5 & Hc & H).
  apply bind_ok in H as (c' & st6 & Hm & H).
  apply ret_ok in H as [-> ->].
  pose proof (crossover_tape _ _ _ _ _ _ Hc) as (s0 & e0 & Ht3).
  pose proof (mutate_tape _ _ _ _ _ _ Hm) as (c4 & Ht4 & Hq4).
  destruct (breed_ok _ _ _ _ _ _ _ _ _ Hc Hm)
    as (-> & p1 & p2 & s & e & c0 & l & u & H1 & H2 & Hs & He & Hx & Hperm & Hu & Hno & Hh6).
  pose proof Hc as Hc0.
  apply crossover_ok in Hc0 as (Hchild & q1 & q2 & s' & e' & c1' & G1 & G2 & Gs & Ge & Gx & Hh5).
  rewrite Hh4, Hh2 in *. rewrite H1 in H2. injection H2 as <-.
  rewrite H1 in G1, G2. injection G1 as <-. injection G2 as <-.
  assert (p1 ≡ₚ range 0 N) as Hp1
    by (eapply (Forall_lookup_1 _ _ _ _ Hinv); exact H1).
  rewrite crossover_self in Hx by (trivial; lia). injection Hx as <-.
  rewrite crossover_self in Gx by (trivial; lia). injection Gx as <-.
  subst c.
  exists p1, l, (length (heap st)), st4, st5, (c1 ++ c2 ++ [DRandint s0; DRandint e0] ++ c4).
  repeat split; auto.
  - rewrite Ht1, Ht2, Ht3, Ht4, <- !app_assoc. reflexivity.
  - intros Hq. rewrite !quiet_app in Hq.
    apply andb_prop in Hq as [_ Hq]. apply andb_prop in Hq as [_ Hq].
    apply andb_prop in Hq as [_ Hq].
    specialize (Hq4 Hq). rewrite Hh6, Hh5 in Hq4.
    apply app_inj_tail in Hq4 as [_ Hq4]. exact Hq4.
  - intros Hzero. apply Hno. apply leb_not_ltb.
    apply andb_prop in Hu as [Hu _]. exact (leb_trans _ _ _ Hzero Hu).
Qed.

Lemma single_evolve (generations : nat) :
  forall (r : nat) (l : list Z) (population' : list nat) (st st' : state),
    heap_perms coordinates st ->
    heap st !! r = Some l ->
    evolve coordinates 1 mutation_rate generations [r] st = Ok (population', st') ->
    exists r' l' consumed,
      population' = [r']
      /\ heap st' !! r' = Some l'
      /\ l' ≡ₚ l
      /\ tape st = consumed ++ tape st'
      /\ (quiet mutation_rate consumed = true -> l' = l)
      /\ ((mutation_rate <=? 0)%float = true -> l' = l).
Proof.
  induction generations as [|g IH]; intros r l population' st st' Hinv Hl H.
  - apply ret_ok in H as [-> ->]. exists r, l, []. repeat split; auto.
  - cbn [evolve] in H. apply bind_ok in H as (next & st1 & Hstep & H).
    pose proof Hstep as Hstep0.
    apply single_generation in Hstep
      as (l0 & l1 & child & sa & sb & c1 & Hl0 & _ & _ & Hchild & _ & _ & -> & Hh & Hperm
          & Ht & Hquiet & Hzero);
      [|exact Hinv].
    rewrite Hl in Hl0. injection Hl0 as <-.
    apply generation_step_ok in Hstep0 as (_ & _ & _ & _ & _ & Hkeep).
    destruct (IH child l1 population' st1 st')
      as (r' & l' & c2 & -> & Hl' & Hp & Ht' & Hq & Hz).
    + apply Hkeep, Hinv.
    + rewrite Hh, Hchild, lookup_app_r, Nat.sub_diag by lia. reflexivity.
    + exact H.
    + exists r', l', (c1 ++ c2). repeat split; auto.
      * rewrite Hp. exact Hperm.
      * rewrite Ht, Ht', app_assoc. reflexivity.
      * intros Hc. rewrite quiet_app in Hc. apply andb_prop in Hc as [Hc1 Hc2].
        rewrite (Hq Hc2). apply Hquiet, Hc1.
      * intros Hle. rewrite (Hz Hle). apply Hzero, Hle.
Qed.

End Single.

(** C9, amended.  With [population_size = 1] the elite is empty
    ([int(1 * 0.1) = 0]), so no generation copies the individual.  In each
    generation the sole individual of the next population is a new object:
    [crossover] of the previous individual with itself allocates it as a copy
    of that individual, and [mutate] is then run on it, the older objects
    left as they were; it is a permutation of the previous individual, and it
    equals it when the generation's draws fire no mutation.  For any number
    of generations (so for 5) the returned route is a permutation of the
    initial individual; and it is the initial individual, with the same tour
    length, when no mutation fires, that is when no [random.random()] result
    that the run reads is below the mutation rate, as is always so for a
    rate of zero or less. *)
Theorem single_individual_run (coordinates : list point) (mutation_rate : float) :
  elite_size_of 1 = 0
  /\ (forall (r : nat) (next : list nat) (st st' : state),
        heap_perms coordinates st ->
        generation_step coordinates 1 mutation_rate [r] st = Ok (next, st') ->
        exists l l' child st2 st3 consumed,
          heap st !! r = Some l
          /\ heap st2 = heap st
          /\ crossover coordinates r r st2 = Ok (child, st3)
          /\ child = length (heap st)
          /\ heap st3 = heap st ++ [l]
          /\ mutate coordinates child mutation_rate st3 = Ok (child, st')
          /\ next = [child]
          /\ heap st' = heap st ++ [l']
          /\ l' ≡ₚ l
          /\ tape st = consumed ++ tape st'
          /\ (quiet mutation_rate consumed = true -> l' = l))
  /\ (forall (generations : nat) (draws : list draw) (route : list Z) (st' : state),
        genetic_algorithm coordinates 1 mutation_rate generations (mkState [] draws)
        = Ok (route, st') ->
        exists initial consumed,
          draws = DShuffle initial :: consumed ++ tape st'
          /\ initial ≡ₚ range 0 (num_sensors coordinates)
          /\ route ≡ₚ initial
          /\ (quiet mutation_rate consumed = true ->
              route = initial
              /\ calculate_total_distance route coordinates
                 = calculate_total_distance initial coordinates)
          /\ ((mutation_rate <=? 0)%float = true ->
              route = initial
              /\ calculate_total_distance route coordinates
                 = calculate_total_distance initial coordinates)).
Proof.
  split; [exact elite_size_of_one|]. split.
  - intros r next st st' Hinv H.
    destruct (single_generation coordinates mutation_rate r next st st' Hinv H)
      as (l & l' & child & st2 & st3 & consumed & H1 & H2 & H3 & H4 & H5 & H6 & H7
          & H8 & H9 & H10 & H11 & _).
    exists l, l', child, st2, st3, consumed. repeat split; assumption.
  - intros generations draws route st' H. unfold genetic_algorithm in H.
    apply bind_ok in H as (pop & st1 & Hpop & H).
    unfold create_population in Hpop. change (range 0 1) with [0] in Hpop.
    cbn [mapM] in Hpop.
    apply bind_ok in Hpop as (r & st2 & Hr & Hpop).
    apply bind_ok in Hpop as (rs & st3 & Hrs & Hpop).
    apply ret_ok in Hrs as [-> ->]. apply ret_ok in Hpop as [-> ->].
    apply create_individual_ok in Hr as (-> & initial & Hinit & Hh & Ht).
    cbn [heap tape length app] in Hh, Ht.
    apply bind_ok in H as (pop' & st4 & Hev & H).
    apply (single_evolve coordinates mutation_rate generations 0%nat initial) in Hev
      as (r' & l' & consumed & -> & Hl' & Hperm & Ht' & Hquiet & Hzero).
    + apply bind_ok in H as ([f best] & st5 & Hbest & H).
      apply load_ok in H as [Hl ->].
      apply best_of_ok in Hbest as (-> & first & others & Hk & Hmax).
      cbn [keys_in] in Hk.
      destruct (fitness_in coordinates (heap st4) r') as [f0| |]; try discriminate.
      cbn [res_bind] in Hk. injection Hk as <- <-.
      cbn [max_by fold_left] in Hmax. injection Hmax as -> ->.
      rewrite Hl' in Hl. injection Hl as <-.
      exists initial, consumed. split; [rewrite Ht, Ht'; reflexivity|].
      split; [exact Hinit|]. split; [exact Hperm|]. split.
      * intros Hq. rewrite (Hquiet Hq). auto.
      * intros Hle. rewrite (Hzero Hle). auto.
    + unfold heap_perms. rewrite Hh. apply Forall_singleton. exact Hinit.
    + rewrite Hh. reflexivity.
Qed.

Lemma quiet_step_ok :
  generation_step square 1 0.5 [0%nat] quiet_state = Ok ([1%nat], quiet_state').
Proof. vm_compute. reflexivity. Qed.

Lemma quiet_run_ok :
  genetic_algorithm square 1 0.5 5 (mkState [] quiet_tape)
  = Ok ([0; 2; 1; 3], quiet_end).
Proof. vm_compute. reflexivity. Qed.

Lemma single_individual_run_witness :
  elite_size_of 1 = 0
  /\ (exists l l' child st2 st3 consumed,
        heap quiet_state !! 0%nat = Some l
        /\ heap st2 = heap quiet_state
        /\ crossover square 0 0 st2 = Ok (child, st3)
        /\ child = length (heap quiet_state)
        /\ heap st3 = heap quiet_state ++ [l]
        /\ mutate square child 0.5 st3 = Ok (child, quiet_state')
        /\ [1%nat] = [child]
        /\ heap quiet_state' = heap quiet_state ++ [l']
        /\ l' ≡ₚ l
        /\ tape quiet_state = consumed ++ tape quiet_state'
        /\ (quiet 0.5 consumed = true -> l' = l))
  /\ (exists initial consumed,
        quiet_tape = DShuffle initial :: consumed ++ tape quiet_end
        /\ quiet 0.5 consumed = true
        /\ [0; 2; 1; 3] = initial
        /\ calculate_total_distance [0; 2; 1; 3] square
           = calculate_total_distance initial square).
Proof.
  destruct (single_individual_run square 0.5%float) as (Helite & Hstep & Hrun).
  split; [exact Helite|]. split.
  - apply (Hstep 0%nat [1%nat] quiet_state quiet_state'); [|exact quiet_step_ok].
    apply Forall_singleton. apply (bool_decide_unpack _). vm_compute. exact I.
  - destruct (Hrun 5%nat quiet_tape [0; 2; 1; 3] quiet_end quiet_run_ok)
      as (initial & consumed & Ht & _ & _ & Hq & _).
    exists initial, consumed. split; [exact Ht|].
    change (tape quiet_end) with (@nil draw) in Ht. rewrite app_nil_r in Ht.
    injection Ht as <- <-.
    split; [reflexivity|]. apply Hq. reflexivity.
Defined.

(** C9, as stated, fails: with one individual, five generations and
    mutation rate 0.5, a run whose first generation mutates returns the tour
    [0, 2, 1, 3], whose length is not the length 40 of the initial
    individual [0, 1, 2, 3]; and elitism copies nothing, the elite being
    empty. *)
Lemma single_individual_length_changes :
  (0 <=? 0.5)%float && (0.5 <=? 1)%float = true
  /\ head single_tape = Some (DShuffle [0; 1; 2; 3])
  /\ run (genetic_algorithm square 1 0.5 5) single_tape = Ok [0; 2; 1; 3]
  /\ calculate_total_distance [0; 1; 2; 3] square = Ok 40%float
  /\ match calculate_total_distance [0; 2; 1; 3] square with
     | Ok d => (d =? 40)%float
     | _ => true
     end = false
  /\ elite_size_of 1 = 0.
Proof. repeat split; vm_compute; reflexivity. Qed.

(** * Further properties of the code *)

(** ** [mutate] and [crossover] on the store *)

(** X1.  [mutate] returns the very object it was given; it changes no other
    object of the store, and the object itself keeps its nodes (its content
    after is a permutation of its content before, of the same length). *)
Theorem mutate_in_place
    (coordinates : list point) (individual r : nat) (rate : float)
    (st st' : state) :
  mutate coordinates individual rate st = Ok (r, st') ->
  r = individual
  /\ length (heap st') = length (heap st)
  /\ (forall other, other <> individual -> heap st' !! other = heap st !! other)
  /\ (forall l, heap st !! individual = Some l ->
        exists l', heap st' !! individual = Some l'
                   /\ l' ≡ₚ l /\ length l' = length l).
Proof.
  intros H.
  apply mutate_ok in H as (-> & u & _ & [[_ Hh] | (_ & l & l' & Hl & Hperm & Hh)]).
  - rewrite Hh. repeat split; auto. intros l Hl. exists l. auto.
  - rewrite Hh. split; [reflexivity|]. split; [apply length_insert|]. split.
    + intros other Hne. apply list_lookup_insert_ne. congruence.
    + intros l0 Hl0. rewrite Hl in Hl0. injection Hl0 as <-.
      exists l'. split; [|split; [exact Hperm | rewrite Hperm; reflexivity]].
      apply list_lookup_insert_eq. eapply lookup_lt_Some. exact Hl.
Qed.

Lemma mutate_state_run :
  mutate square 0 0.5 mutate_state
  = Ok (0%nat, mkState [[2; 1; 0; 3]; [3; 2; 1; 0]] []).
Proof. vm_compute. reflexivity. Qed.

Lemma mutate_in_place_witness :
  0%nat = 0%nat
  /\ length [[2; 1; 0; 3]; [3; 2; 1; 0]] = length (heap mutate_state)
  /\ (forall other, other <> 0%nat ->
        [[2; 1; 0; 3]; [3; 2; 1; 0]] !! other = heap mutate_state !! other)
  /\ (forall l, heap mutate_state !! 0%nat = Some l ->
        exists l', [[2; 1; 0; 3]; [3; 2; 1; 0]] !! 0%nat = Some l'
                   /\ l' ≡ₚ l /\ length l' = length l).
Proof.
  exact (mutate_in_place square 0 0 0.5%float mutate_state
           (mkState [[2; 1; 0; 3]; [3; 2; 1; 0]] []) mutate_state_run).
Defined.

(** X2.  With fewer than two nodes a mutation that fires cannot draw its two
    places: [random.sample] raises [ValueError], whatever the store. *)
Theorem mutate_too_few_nodes
    (coordinates : list point) (individual : nat) (rate u : float)
    (h : list (list Z)) (t : list draw) :
  (length coordinates < 2)%nat ->
  ((0 <=? u) && (u <? 1))%float = true ->
  (u <? rate)%float = true ->
  mutate coordinates individual rate (mkState h (DRandom u :: t))
  = Raise ValueError.
Proof.
  intros HN Hu Hrate.
  unfold mutate, bind, random_random, next_draw. cbn [tape heap].
  unfold bind. cbn [tape heap]. rewrite Hu. unfold ret. rewrite Hrate.
  unfold sample2, num_sensors.
  replace (Z.of_nat (length coordinates) <? 2) with true
    by (symmetry; apply Z.ltb_lt; lia).
  reflexivity.
Qed.

Lemma mutate_too_few_nodes_witness :
  mutate [(3, 4)%float] 0 0.5 (mkState [[0]] [DRandom 0.25%float])
  = Raise ValueError.
Proof.
  apply (mutate_too_few_nodes [(3, 4)%float] 0 0.5%float 0.25%float [[0]] []).
  - simpl. lia.
  - reflexivity.
  - reflexivity.
Defined.

(** X3.  [crossover] never writes into its parents: whatever slice bounds are
    drawn, the child is a new object appended to the store, every older
    object is as it was, and when both parents are permutations of
    [0 .. N-1] so is the child. *)
Theorem crossover_fresh_child
    (coordinates : list point) (parent1 parent2 child : nat) (st st' : state) :
  crossover coordinates parent1 parent2 st = Ok (child, st') ->
  heap st !! child = None
  /\ length (heap st') = S (length (heap st))
  /\ (forall r l, heap st !! r = Some l -> heap st' !! r = Some l)
  /\ (forall p1 p2,
        heap st !! parent1 = Some p1 -> heap st !! parent2 = Some p2 ->
        p1 ≡ₚ range 0 (num_sensors coordinates) ->
        p2 ≡ₚ range 0 (num_sensors coordinates) ->
        exists c, heap st' !! child = Some c
                  /\ c ≡ₚ range 0 (num_sensors coordinates)).
Proof.
  intros H.
  apply crossover_ok in H
    as (-> & p1 & p2 & s & e & c & H1 & H2 & Hs & He & Hx & Hh).
  rewrite Hh. split; [apply lookup_ge_None; lia|].
  split; [rewrite length_app; simpl; lia|]. split.
  - intros r l Hl. apply lookup_app_l_Some. exact Hl.
  - intros q1 q2 Hq1 Hq2 Hp1 Hp2.
    rewrite H1 in Hq1. rewrite H2 in Hq2. injection Hq1 as <-. injection Hq2 as <-.
    exists c. split.
    + rewrite lookup_app_r, Nat.sub_diag by lia. reflexivity.
    + eapply (breed_perm coordinates p1 p2); eauto.
Qed.

Lemma crossover_state_run :
  crossover square 0 1 crossover_state
  = Ok (2%nat, mkState [[0; 1; 2; 3]; [3; 2; 1; 0]; [3; 1; 2; 0]] []).
Proof. vm_compute. reflexivity. Qed.

Lemma crossover_fresh_child_witness :
  heap crossover_state !! 2%nat = None
  /\ length [[0; 1; 2; 3]; [3; 2; 1; 0]; [3; 1; 2; 0]]
     = S (length (heap crossover_state))
  /\ (forall r l, heap crossover_state !! r = Some l ->
        [[0; 1; 2; 3]; [3; 2; 1; 0]; [3; 1; 2; 0]] !! r = Some l)
  /\ (forall p1 p2,
        heap crossover_state !! 0%nat = Some p1 ->
        heap crossover_state !! 1%nat = Some p2 ->
        p1 ≡ₚ range 0 (num_sensors square) ->
        p2 ≡ₚ range 0 (num_sensors square) ->
        exists c, [[0; 1; 2; 3]; [3; 2; 1; 0]; [3; 1; 2; 0]] !! 2%nat = Some c
                  /\ c ≡ₚ range 0 (num_sensors square)).
Proof.
  exact (crossover_fresh_child square 0 1 2 crossover_state
           (mkState [[0; 1; 2; 3]; [3; 2; 1; 0]; [3; 1; 2; 0]] [])
           crossover_state_run).
Defined.

(** ** The population across a run *)

(** X4.  With a population size of zero or less the genetic algorithm cannot
    return: without generations [max] of the empty population raises
    [ValueError], and with a generation the weighted draw from the empty
    population raises [IndexError]. *)
Theorem empty_population_raises
    (coordinates : list point) (population_size : Z) (mutation_rate : float)
    (generations : nat) (draws : list draw) :
  population_size <= 0 ->
  run (genetic_algorithm coordinates population_size mutation_rate generations)
      draws
  = Raise (match generations with O => ValueError | S _ => IndexError end).
Proof.
  intros Hps. unfold run, genetic_algorithm, create_population, range.
  replace (Z.to_nat (population_size - 0)) with 0%nat by lia.
  destruct generations as [|g]; reflexivity.
Qed.

Lemma empty_population_raises_witness :
  run (genetic_algorithm square 0 0.5 3) small_tape = Raise IndexError.
Proof. apply (empty_population_raises square 0 0.5%float 3 small_tape). lia. Defined.

Section PopulationSize.

Variable coordinates : list point.
Variable population_size : Z.
Variable mutation_rate : float.

Lemma generation_step_turns (population next : list nat) (st st' : state) :
  generation_step coordinates population_size mutation_rate population st
  = Ok (next, st') ->
  exists elites new,
    next = elites ++ seq (length (heap st)) (length new)
    /\ (length elites <= length population)%nat
    /\ length new = Z.to_nat (population_size - Z.of_nat (length elites))
    /\ heap st' = heap st ++ new
    /\ (forall r, r ∈ elites -> r ∈ population).
Proof.
  intros H. pose proof H as H0.
  apply generation_step_ok in H0 as (keyed & new0 & Hk & _ & _ & _).
  unfold generation_step in H.
  apply bind_ok in H as (fitnesses & st1 & Hf & H).
  apply bind_ok in H as (wc & st2 & Hwc & H).
  apply choices_weighted_ok in Hwc as [Hh2 _].
  assert (heap st1 = heap st) as Hh1.
  { apply mapM_pure in Hf as [-> _]; [reflexivity|].
    intros ind y st0 st0' Hx. rewrite fitness_pure in Hx.
    apply lift_ok in Hx as [_ ->]. reflexivity. }
  apply bind_ok in H as (elites & st3 & Hel & H).
  apply elite_ok in Hel as (-> & keyed' & Hk' & Hel).
  apply reproduce_ok in H as (new & Hh & Hlen & Hnext & _).
  rewrite Hh2, Hh1 in *. rewrite Hk in Hk'. injection Hk' as <-.
  exists elites, new. rewrite Hlen. repeat split; auto.
  - subst elites. unfold slice_to. rewrite length_take.
    destruct (keys_in_ok _ _ _ _ Hk) as [Hsnd _].
    rewrite length_map, (Permutation_length (sorted_desc_perm keyed)),
      <- (length_map snd keyed), Hsnd. lia.
  - intros r Hr. subst elites. eapply elites_in_population; eauto.
Qed.

End PopulationSize.

Lemma generation_step_size
    (coordinates : list point) (population_size : Z) (mutation_rate : float)
    (population next : list nat) (st st' : state) :
  generation_step coordinates population_size mutation_rate population st
  = Ok (next, st') ->
  length population = Z.to_nat population_size ->
  length next = Z.to_nat population_size.
Proof.
  intros H Hsize.
  apply generation_step_turns in H as (elites & new & -> & Hle & Hlen & _ & _).
  rewrite length_app, length_seq. lia.
Qed.

(** X5.  A generation step keeps the size of the population: from a population
    of [population_size] individuals it returns [population_size]
    individuals, all of them objects of the new store, and all of them
    permutations of [0 .. N-1] when the objects of the store were. *)
Theorem generation_keeps_size
    (coordinates : list point) (population_size : Z) (mutation_rate : float)
    (population next : list nat) (st st' : state) :
  generation_step coordinates population_size mutation_rate population st
  = Ok (next, st') ->
  length population = Z.to_nat population_size ->
  length next = Z.to_nat population_size
  /\ (forall r, r ∈ next -> is_Some (heap st' !! r))
  /\ (heap_perms coordinates st ->
      forall r l, r ∈ next -> heap st' !! r = Some l ->
        l ≡ₚ range 0 (num_sensors coordinates)).
Proof.
  intros H Hsize. pose proof H as H0.
  pose proof (generation_step_size _ _ _ _ _ _ _ H Hsize) as Hlength.
  apply generation_step_ok in H0 as (keyed & _ & Hk & _ & _ & Hkeep).
  apply generation_step_turns in H
    as (elites & new & -> & Hle & Hlen & Hh & Hsub).
  split; [exact Hlength|]. split.
  - intros r Hr. apply lookup_lt_is_Some. rewrite Hh, length_app.
    apply elem_of_app in Hr as [Hr | Hr].
    + pose proof (keys_in_valid _ _ _ _ Hk r (Hsub r Hr)). lia.
    + apply elem_of_seq in Hr. lia.
  - intros Hinv r l _ Hl. specialize (Hkeep Hinv).
    eapply (Forall_lookup_1 _ _ _ _ Hkeep). exact Hl.
Qed.

Lemma generation_keeps_size_witness :
  length ten_next = Z.to_nat 10
  /\ (forall r, r ∈ ten_next -> is_Some (heap ten_state' !! r))
  /\ (heap_perms square ten_state ->
      forall r l, r ∈ ten_next -> heap ten_state' !! r = Some l ->
        l ≡ₚ range 0 (num_sensors square)).
Proof.
  apply (generation_keeps_size square 10 0.5%float ten_population ten_next
           ten_state ten_state' ten_step_ok).
  reflexivity.
Defined.

Lemma create_individuals_ok (coordinates : list point) (indices : list Z) :
  forall (population : list nat) (st st' : state),
    mapM (fun _ => create_individual coordinates) indices st = Ok (population, st') ->
    exists new,
      population = seq (length (heap st)) (length indices)
      /\ heap st' = heap st ++ new
      /\ length new = length indices
      /\ Forall (fun l => l ≡ₚ range 0 (num_sensors coordinates)) new
      /\ tape st = map DShuffle new ++ tape st'.
Proof.
  induction indices as [|i indices IH]; intros population st st' H.
  - apply ret_ok in H as [-> ->]. exists []. rewrite app_nil_r. repeat split; auto.
  - cbn [mapM] in H.
    apply bind_ok in H as (r & st1 & Hr & H).
    apply bind_ok in H as (rs & st2 & Hrs & H).
    apply ret_ok in H as [-> ->].
    apply create_individual_ok in Hr as (-> & p & Hp & Hh & Ht).
    apply IH in Hrs as (new & -> & Hh2 & Hlen & Hall & Ht2).
    exists (p :: new). rewrite Hh in Hh2. repeat split.
    + rewrite Hh, length_app. cbn [length seq].
      replace (length (heap st) + 1)%nat with (S (length (heap st))) by lia.
      reflexivity.
    + rewrite Hh2, <- app_assoc. reflexivity.
    + simpl. rewrite Hlen. reflexivity.
    + constructor; assumption.
    + rewrite Ht, Ht2. reflexivity.
Qed.

(** X6.  [create_population(size)] makes [size] new list objects, one after the
    other in the store and so all different, each a permutation of
    [0 .. N-1]: the order its [random.shuffle] left; it reads one shuffle
    from the tape for each of them and changes no older object. *)
Theorem create_population_fresh
    (coordinates : list point) (size : Z) (population : list nat)
    (st st' : state) :
  create_population coordinates size st = Ok (population, st') ->
  exists new,
    population = seq (length (heap st)) (Z.to_nat size)
    /\ NoDup population
    /\ heap st' = heap st ++ new
    /\ length new = Z.to_nat size
    /\ Forall (fun l => l ≡ₚ range 0 (num_sensors coordinates)) new
    /\ tape st = map DShuffle new ++ tape st'.
Proof.
  unfold create_population. intros H.
  apply create_individuals_ok in H as (new & -> & Hh & Hlen & Hall & Ht).
  rewrite length_range, Z.sub_0_r in *.
  exists new. repeat split; auto. apply NoDup_seq.
Qed.

Lemma create_population_run :
  create_population square 2 (mkState [] [DShuffle [0; 1; 2; 3]; DShuffle [3; 1; 2; 0]])
  = Ok ([0; 1]%nat, mkState [[0; 1; 2; 3]; [3; 1; 2; 0]] []).
Proof. vm_compute. reflexivity. Qed.

Lemma create_population_fresh_witness :
  exists new,
    [0; 1]%nat = seq 0 (Z.to_nat 2)
    /\ NoDup [0; 1]%nat
    /\ [[0; 1; 2; 3]; [3; 1; 2; 0]] = [] ++ new
    /\ length new = Z.to_nat 2
    /\ Forall (fun l => l ≡ₚ range 0 (num_sensors square)) new
    /\ [DShuffle [0; 1; 2; 3]; DShuffle [3; 1; 2; 0]] = map DShuffle new ++ [].
Proof.
  exact (create_population_fresh square 2 [0; 1]%nat
           (mkState [] [DShuffle [0; 1; 2; 3]; DShuffle [3; 1; 2; 0]])
           (mkState [[0; 1; 2; 3]; [3; 1; 2; 0]] []) create_population_run).
Defined.

(** X7.  Over any number of generations the store only grows: an object, once
    in the store, keeps its content to the end of the run, and every
    generation has the size of the first. *)
Theorem evolve_frame
    (coordinates : list point) (population_size : Z) (mutation_rate : float)
    (generations : nat) (population population' : list nat) (st st' : state) :
  evolve coordinates population_size mutation_rate generations population st
  = Ok (population', st') ->
  length population = Z.to_nat population_size ->
  length population' = Z.to_nat population_size
  /\ (forall r l, heap st !! r = Some l -> heap st' !! r = Some l).
Proof.
  revert population st. induction generations as [|g IH]; intros population st H Hsize.
  - apply ret_ok in H as [-> ->]. auto.
  - cbn [evolve] in H. apply bind_ok in H as (next & st1 & Hstep & H).
    pose proof (generation_step_size _ _ _ _ _ _ _ Hstep Hsize) as Hnext.
    apply generation_step_ok in Hstep as (_ & new & _ & _ & Hh & _).
    destruct (IH next st1 H Hnext) as [Hlen Hframe].
    split; [exact Hlen|]. intros r l Hl. apply Hframe. rewrite Hh.
    apply lookup_app_l_Some. exact Hl.
Qed.

Lemma ten_evolve_ok :
  evolve square 10 0.5 1 ten_population ten_state = Ok (ten_next, ten_state').
Proof. vm_compute. reflexivity. Qed.

Lemma evolve_frame_witness :
  length ten_next = Z.to_nat 10
  /\ (forall r l, heap ten_state !! r = Some l -> heap ten_state' !! r = Some l).
Proof.
  apply (evolve_frame square 10 0.5%float 1 ten_population ten_next
           ten_state ten_state' ten_evolve_ok).
  reflexivity.
Defined.

(** ** The fittest individual *)

Lemma max_by_max {A} (rest : list (float * A)) :
  forall first,
    keys_ordered (first :: rest) ->
    forall x, x ∈ first :: rest ->
      (fst x <=? fst (max_by first rest))%float = true.
Proof.
  induction rest as [|y rest IH]; intros first Hord x Hx.
  - apply list_elem_of_singleton in Hx as ->. cbn [max_by fold_left].
    apply leb_refl. apply Forall_cons in Hord as [H _]. exact H.
  - apply Forall_cons in Hord as [Hf Hord]. pose proof Hord as Hord'.
    apply Forall_cons in Hord' as [Hy Hrest].
    change (max_by first (y :: rest))
      with (max_by (if (fst first <? fst y)%float then y else first) rest).
    destruct (fst first <? fst y)%float eqn:Hlt.
    + apply elem_of_cons in Hx as [-> | Hx]; [|apply IH; assumption].
      eapply leb_trans; [apply ltb_leb; exact Hlt|].
      apply IH; [exact Hord | apply list_elem_of_here].
    + assert (keys_ordered (first :: rest)) as Hfr by (constructor; assumption).
      apply elem_of_cons in Hx as [-> | Hx]; [apply IH; [exact Hfr | apply list_elem_of_here]|].
      apply elem_of_cons in Hx as [-> | Hx].
      * apply (leb_trans _ (fst first)); [apply leb_total; assumption|].
        apply IH; [exact Hfr | apply list_elem_of_here].
      * apply IH; [exact Hfr | apply list_elem_of_further; exact Hx].
Qed.

(** X8.  [max(population, key=fitness)] returns an individual of the population
    with its own fitness, the store untouched; and when no fitness of the
    population is a NaN, no individual of the population is fitter. *)
Theorem best_of_fittest
    (coordinates : list point) (population : list nat) (st st1 : state)
    (f : float) (r : nat) :
  best_of coordinates population st = Ok ((f, r), st1) ->
  st1 = st
  /\ r ∈ population
  /\ fitness coordinates r st = Ok (f, st)
  /\ ((forall ind g, ind ∈ population ->
         fitness coordinates ind st = Ok (g, st) -> is_nan g = false) ->
      forall ind g, ind ∈ population ->
        fitness coordinates ind st = Ok (g, st) -> (g <=? f)%float = true).
Proof.
  intros H. apply best_of_ok in H as (-> & first & rest & Hk & Hmax).
  destruct (keys_in_ok _ _ _ _ Hk) as [Hsnd Hall].
  rewrite Forall_forall in Hall.
  assert ((f, r) ∈ first :: rest) as Hin by (rewrite Hmax; apply max_by_elem_of).
  assert (forall ind g, ind ∈ population ->
            fitness coordinates ind st = Ok (g, st) ->
            (g, ind) ∈ first :: rest) as Hkeyed.
  { intros ind g Hind Hg. rewrite <- Hsnd in Hind.
    apply list_elem_of_fmap in Hind as ([g' ind'] & -> & Hkr).
    pose proof (Hall _ Hkr) as Hfit. cbn [fst snd] in *.
    rewrite fitness_pure, Hfit in Hg. injection Hg as <-. exact Hkr. }
  split; [reflexivity|]. split; [|split].
  - rewrite <- Hsnd. apply list_elem_of_fmap. exists (f, r). auto.
  - rewrite fitness_pure. specialize (Hall _ Hin). cbn [fst snd] in Hall.
    rewrite Hall. reflexivity.
  - intros Hnan ind g Hind Hg.
    assert (keys_ordered (first :: rest)) as Hord.
    { apply Forall_forall. intros [g' ind'] Hkr. cbn [fst].
      pose proof (Hall _ Hkr) as Hfit. cbn [fst snd] in Hfit.
      apply (Hnan ind' g').
      - rewrite <- Hsnd. apply list_elem_of_fmap. exists (g', ind'). auto.
      - rewrite fitness_pure, Hfit. reflexivity. }
    pose proof (max_by_max rest first Hord (g, ind) (Hkeyed ind g Hind Hg)) as Hle.
    rewrite <- Hmax in Hle. exact Hle.
Qed.

Lemma best_of_fittest_witness :
  ten_state = ten_state
  /\ snd ten_best ∈ ten_population
  /\ fitness square (snd ten_best) ten_state = Ok (fst ten_best, ten_state)
  /\ ((forall ind g, ind ∈ ten_population ->
         fitness square ind ten_state = Ok (g, ten_state) -> is_nan g = false) ->
      forall ind g, ind ∈ ten_population ->
        fitness square ind ten_state = Ok (g, ten_state) ->
        (g <=? fst ten_best)%float = true).
Proof.
  exact (best_of_fittest square ten_population ten_state ten_state
           (fst ten_best) (snd ten_best) (proj1 ten_best_ok)).
Defined.

(** ** When the tour length is defined *)

Lemma getitem_in_range {A} (l : list A) (k : Z) :
  in_range (length l) k -> exists x, getitem l k = Ok x.
Proof.
  unfold in_range, getitem. intros Hk.
  destruct (Z.ltb_spec k 0).
  - rewrite in_range_true by lia.
    destruct (lookup_lt_is_Some_2 l (Z.to_nat (k + Z.of_nat (length l)))) as [x ->];
      [lia | eauto].
  - rewrite in_range_true by lia.
    destruct (lookup_lt_is_Some_2 l (Z.to_nat k)) as [x ->]; [lia | eauto].
Qed.

Lemma getitem_out_of_range {A} (l : list A) (k : Z) (x : A) :
  getitem l k = Ok x -> in_range (length l) k.
Proof.
  unfold in_range, getitem.
  destruct (Z.ltb_spec k 0);
    (destruct (_ && _) eqn:Hb; [|discriminate]);
    apply andb_prop in Hb as [H1 H2];
    apply Z.leb_le in H1; apply Z.ltb_lt in H2; intros _; lia.
Qed.

Lemma last_cons_default {A} (rest : list A) :
  forall b d1 d2, List.last (b :: rest) d1 = List.last (b :: rest) d2.
Proof.
  induction rest as [|c rest IH]; intros b d1 d2; [reflexivity|].
  change (List.last (c :: rest) d1 = List.last (c :: rest) d2). apply IH.
Qed.

Section Defined.

Variable coordinates : list point.

Local Abbreviation valid_edge :=
  (fun e : Z * Z => in_range (length coordinates) (fst e)
                    /\ in_range (length coordinates) (snd e)).

Lemma add_edge_cases (acc : float) (e : Z * Z) :
  (valid_edge e /\ exists d, add_edge coordinates acc e = Ok d)
  \/ (~ valid_edge e /\ add_edge coordinates acc e = Raise IndexError).
Proof.
  unfold add_edge.
  destruct (getitem_cases coordinates (fst e)) as [H1 | [p H1]]; rewrite H1.
  - right. split; [|reflexivity]. intros [Hv _].
    apply getitem_in_range in Hv as [x Hx]. congruence.
  - cbn [res_bind].
    destruct (getitem_cases coordinates (snd e)) as [H2 | [q H2]]; rewrite H2.
    + right. split; [|reflexivity]. intros [_ Hv].
      apply getitem_in_range in Hv as [x Hx]. congruence.
    + left. split; [|cbn [res_bind]; eauto].
      split; eapply getitem_out_of_range; eassumption.
Qed.

Lemma edges_cases (edges : list (Z * Z)) :
  forall acc,
    (Forall valid_edge edges
     /\ exists d, for_each (add_edge coordinates) edges acc = Ok d)
    \/ (~ Forall valid_edge edges
        /\ for_each (add_edge coordinates) edges acc = Raise IndexError).
Proof.
  induction edges as [|e edges IH]; intros acc.
  - left. split; [constructor | eexists; reflexivity].
  - cbn [for_each].
    destruct (add_edge_cases acc e) as [[Hv [d ->]] | [Hv ->]]; cbn [res_bind].
    + destruct (IH d) as [[Hall Hd] | [Hall Hd]].
      * left. split; [constructor; assumption | exact Hd].
      * right. split; [|exact Hd]. intros H. apply Forall_cons in H as [_ H]. auto.
    + right. split; [|reflexivity]. intros H. apply Forall_cons in H as [H _]. auto.
Qed.

Lemma tour_edges_valid (rest : list Z) :
  forall (a first : Z),
    Forall valid_edge (consecutive_pairs (a :: rest) ++ [(List.last (a :: rest) a, first)])
    <-> Forall (in_range (length coordinates)) (a :: rest)
        /\ in_range (length coordinates) first.
Proof.
  induction rest as [|b rest IH]; intros a first.
  - cbn [consecutive_pairs app List.last].
    rewrite Forall_singleton, Forall_singleton. cbn [fst snd]. tauto.
  - change (consecutive_pairs (a :: b :: rest))
      with ((a, b) :: consecutive_pairs (b :: rest)).
    change (List.last (a :: b :: rest) a) with (List.last (b :: rest) a).
    rewrite (last_cons_default rest b a b).
    cbn [app]. rewrite Forall_cons, (IH b first), !Forall_cons. cbn [fst snd]. tauto.
Qed.

End Defined.

(** X9.  Over coordinates between which every square of
    [euclidean_distance] returns (none overflows),
    [calculate_total_distance] returns a length exactly when every node of
    the route indexes the coordinate list, from the front or, as a negative
    number, from the end; a route of two or more nodes with a node outside
    that range raises [IndexError], and a shorter route is never looked at:
    its length is 0 whatever its node. *)
Theorem total_distance_defined (route : list Z) (coordinates : list point) :
  distances_return coordinates = true ->
  (Forall (in_range (length coordinates)) route ->
     exists d, calculate_total_distance route coordinates = Ok d)
  /\ ((2 <= length route)%nat ->
      ~ Forall (in_range (length coordinates)) route ->
      calculate_total_distance route coordinates = Raise IndexError)
  /\ ((length route < 2)%nat ->
      calculate_total_distance route coordinates = Ok 0%float).
Proof.
  intros _. rewrite total_distance_tour_length.
  destruct route as [|a [|b rest]].
  - repeat split; intros; try (simpl in *; lia); eexists; reflexivity.
  - repeat split; intros; try (simpl in *; lia); eexists; reflexivity.
  - unfold tour_length.
    pose proof (tour_edges_valid coordinates (b :: rest) a a) as Hiff.
    destruct (edges_cases coordinates
                (consecutive_pairs (a :: b :: rest)
                 ++ [(List.last (a :: b :: rest) a, a)]) 0%float)
      as [[Hall Hd] | [Hall Hd]].
    + split; [intros _; exact Hd|]. split; [|simpl; lia].
      intros _ Hbad. exfalso. apply Hbad. apply Hiff in Hall as [H _]. exact H.
    + split; [|split; [intros _ _; exact Hd | simpl; lia]].
      intros Hroute. exfalso. apply Hall, Hiff. split; [exact Hroute|].
      apply Forall_cons in Hroute as [Ha _]. exact Ha.
Qed.

Lemma total_distance_defined_witness :
  (exists d, calculate_total_distance [0; -1; 2] square = Ok d)
  /\ calculate_total_distance [0; 4] square = Raise IndexError
  /\ calculate_total_distance [7] square = Ok 0%float.
Proof.
  destruct (total_distance_defined [0; -1; 2] square) as (H1 & _ & _);
    [reflexivity|].
  destruct (total_distance_defined [0; 4] square) as (_ & H2 & _);
    [reflexivity|].
  destruct (total_distance_defined [7] square) as (_ & _ & H3);
    [reflexivity|].
  split; [|split].
  - apply H1. repeat constructor; simpl; lia.
  - apply H2; [simpl; lia|]. intros H.
    apply Forall_cons in H as [_ H]. apply Forall_cons in H as [[_ H] _].
    simpl in H. lia.
  - apply H3. simpl. lia.
Defined.

(** ** The greedy optimiser: the order of its route *)

Lemma SFleb_ltb_trans (x y z : spec_float) :
  SFleb x y = true -> SFltb y z = true -> SFltb x z = true.
Proof. sf_order. Qed.

Lemma SFltb_leb_trans (x y z : spec_float) :
  SFltb x y = true -> SFleb y z = true -> SFltb x z = true.
Proof. sf_order. Qed.

Lemma leb_ltb_trans (a b c : float) :
  (a <=? b)%float = true -> (b <? c)%float = true -> (a <? c)%float = true.
Proof. rewrite !ltb_spec, leb_spec. apply SFleb_ltb_trans. Qed.

Lemma ltb_leb_trans (a b c : float) :
  (a <? b)%float = true -> (b <=? c)%float = true -> (a <? c)%float = true.
Proof. rewrite !ltb_spec, leb_spec. apply SFltb_leb_trans. Qed.

Lemma ltb_is_nan (a b : float) : (a <? b)%float = true -> is_nan a = false.
Proof. rewrite is_nan_sf. apply ltb_not_nan. Qed.

Lemma list_remove_sorted (x : Z) (l l' : list Z) :
  StronglySorted Z.lt l -> list_remove x l = Ok l' -> StronglySorted Z.lt l'.
Proof.
  intros Hs. revert l'. induction Hs as [|y t Hs IH Hy]; intros l' H; [discriminate|].
  cbn [list_remove] in H. destruct (y =? x) eqn:Hyx.
  - injection H as <-. exact Hs.
  - destruct (list_remove x t) as [t'| |] eqn:Ht; try discriminate.
    injection H as <-. constructor; [apply IH; reflexivity|].
    apply Forall_forall. intros z Hz. rewrite Forall_forall in Hy. apply Hy.
    clear -Ht Hz. revert t' Ht Hz. induction t as [|w t IH]; intros t' Ht Hz;
      [discriminate|].
    cbn [list_remove] in Ht. destruct (w =? x).
    + injection Ht as <-. apply list_elem_of_further. exact Hz.
    + destruct (list_remove x t) as [t''| |]; try discriminate.
      injection Ht as <-. apply elem_of_cons in Hz as [-> | Hz].
      * apply list_elem_of_here.
      * apply list_elem_of_further. eapply IH; eauto.
Qed.

Lemma range_sorted (a b : Z) : StronglySorted Z.lt (range a b).
Proof.
  unfold range. generalize (Z.to_nat (b - a)) as n. intros n.
  assert (forall s, StronglySorted Z.lt (map (fun k => a + Z.of_nat k) (seq s n))) as H.
  { induction n as [|n IH]; intros s; [constructor|].
    cbn [seq map]. constructor; [apply IH|].
    apply Forall_forall. intros z Hz.
    apply list_elem_of_fmap in Hz as (k & -> & Hk). apply elem_of_seq in Hk. lia. }
  apply H.
Qed.

Section GreedyOrder.

Variable coordinates : list point.
Hypothesis Hfinite : finite_distances coordinates = true.

Local Abbreviation valid := (fun k : Z => 0 <= k < Z.of_nat (length coordinates)).

Lemma node_distance_valid (i j : Z) :
  valid i -> valid j ->
  exists d, node_distance coordinates i j = Ok d
            /\ (d <? infinity)%float = true
            /\ forall pi pj, getitem coordinates i = Ok pi ->
                 getitem coordinates j = Ok pj -> euclidean_distance pi pj = d.
Proof.
  intros Hi Hj. unfold node_distance.
  destruct (getitem_valid coordinates i Hi) as (p & Hp & Hpin).
  destruct (getitem_valid coordinates j Hj) as (q & Hq & Hqin).
  rewrite Hp, Hq. cbn [res_bind]. eexists. split; [reflexivity|]. split.
  - apply (finite_distances_spec coordinates); assumption.
  - intros pi pj Hpi Hpj. congruence.
Qed.

(** The scan with a node already held: it ends with the nearest of the
    held node and the scanned ones, the lowest-numbered of the nearest. *)
Lemma nearest_scan_min (current_node : Z) (unvisited : list Z) :
  valid current_node ->
  Forall valid unvisited ->
  StronglySorted Z.lt unvisited ->
  forall (y0 : Z) (m0 : float),
    valid y0 ->
    Forall (Z.lt y0) unvisited ->
    node_distance coordinates current_node y0 = Ok m0 ->
    exists y m,
      nearest_scan coordinates current_node unvisited (Some y0) m0 = Ok (Some y, m)
      /\ y ∈ y0 :: unvisited
      /\ node_distance coordinates current_node y = Ok m
      /\ forall x, x ∈ y0 :: unvisited ->
           exists dx, node_distance coordinates current_node x = Ok dx
                      /\ (m <=? dx)%float = true
                      /\ (x < y -> (m <? dx)%float = true).
Proof.
  intros Hc Hall Hsorted. induction Hsorted as [|n rest Hsorted IH Hn];
    intros y0 m0 Hy0 Hlt Hm0.
  - exists y0, m0. split; [reflexivity|]. split; [apply list_elem_of_here|].
    split; [exact Hm0|]. intros x Hx. apply list_elem_of_singleton in Hx as ->.
    exists m0. split; [exact Hm0|]. split; [|lia].
    destruct (node_distance_valid current_node y0 Hc Hy0) as (d & Hd & Hfin & _).
    rewrite Hm0 in Hd. injection Hd as <-.
    apply leb_refl. eapply ltb_is_nan. exact Hfin.
  - apply Forall_cons in Hall as [Hvn Hall].
    apply Forall_cons in Hlt as [Hy0n Hlt].
    destruct (node_distance_valid current_node n Hc Hvn) as (dn & Hdn & Hfin_n & Heq).
    destruct (node_distance_valid current_node y0 Hc Hy0) as (d0 & Hd0 & Hfin_0 & _).
    rewrite Hm0 in Hd0. injection Hd0 as <-.
    cbn [nearest_scan].
    destruct (getitem_valid coordinates current_node Hc) as (pc & Hpc & _).
    destruct (getitem_valid coordinates n Hvn) as (pn & Hpn & _).
    rewrite Hpc, Hpn. cbn [res_bind]. rewrite (Heq pc pn Hpc Hpn).
    destruct (dn <? m0)%float eqn:Hcmp.
    + destruct (IH Hall n dn Hvn Hn Hdn) as (y & m & Hrun & Hy & Hm & Hmin).
      exists y, m. split; [exact Hrun|]. split; [apply list_elem_of_further; exact Hy|].
      split; [exact Hm|]. intros x Hx.
      apply elem_of_cons in Hx as [-> | Hx]; [|apply Hmin; exact Hx].
      destruct (Hmin n (list_elem_of_here _ _)) as (dn' & Hdn' & Hle & _).
      rewrite Hdn in Hdn'. injection Hdn' as <-.
      exists m0. split; [exact Hm0|].
      assert ((m <? m0)%float = true) as Hstrict
        by (eapply leb_ltb_trans; eassumption).
      split; [apply ltb_leb; exact Hstrict | intros _; exact Hstrict].
    + destruct (IH Hall y0 m0 Hy0 Hlt Hm0) as (y & m & Hrun & Hy & Hm & Hmin).
      exists y, m. split; [exact Hrun|]. split.
      { apply elem_of_cons in Hy as [-> | Hy];
          [apply list_elem_of_here | do 2 apply list_elem_of_further; exact Hy]. }
      split; [exact Hm|]. intros x Hx.
      destruct (Hmin y0 (list_elem_of_here _ _)) as (d0 & Hd0 & Hle0 & Hstrict0).
      rewrite Hm0 in Hd0. injection Hd0 as <-.
      assert ((m0 <=? dn)%float = true) as Hm0n.
      { apply leb_total; [eapply ltb_is_nan; exact Hfin_n
                         | eapply ltb_is_nan; exact Hfin_0 | exact Hcmp]. }
      apply elem_of_cons in Hx as [-> | Hx];
        [apply Hmin; apply list_elem_of_here|].
      apply elem_of_cons in Hx as [-> | Hx];
        [|apply Hmin; apply list_elem_of_further; exact Hx].
      exists dn. split; [exact Hdn|]. split; [eapply leb_trans; eassumption|].
      intros Hxy. eapply ltb_leb_trans; [|exact Hm0n]. apply Hstrict0. lia.
Qed.

Lemma nearest_scan_first (current_node n : Z) (rest : list Z) :
  valid current_node ->
  Forall valid (n :: rest) ->
  StronglySorted Z.lt (n :: rest) ->
  exists y m,
    nearest_scan coordinates current_node (n :: rest) None infinity = Ok (Some y, m)
    /\ y ∈ n :: rest
    /\ forall x, x ∈ n :: rest ->
         exists dy dx,
           node_distance coordinates current_node y = Ok dy
           /\ node_distance coordinates current_node x = Ok dx
           /\ (dy <=? dx)%float = true
           /\ (x < y -> (dy <? dx)%float = true).
Proof.
  intros Hc Hall Hsorted.
  apply Forall_cons in Hall as [Hvn Hall].
  apply StronglySorted_cons in Hsorted as [Hn Hsorted].
  destruct (node_distance_valid current_node n Hc Hvn) as (dn & Hdn & Hfin & Heq).
  cbn [nearest_scan].
  destruct (getitem_valid coordinates current_node Hc) as (pc & Hpc & _).
  destruct (getitem_valid coordinates n Hvn) as (pn & Hpn & _).
  rewrite Hpc, Hpn. cbn [res_bind]. rewrite (Heq pc pn Hpc Hpn), Hfin.
  destruct (nearest_scan_min current_node rest Hc Hall Hsorted n dn Hvn Hn Hdn)
    as (y & m & Hrun & Hy & Hm & Hmin).
  exists y, m. split; [exact Hrun|]. split; [exact Hy|].
  intros x Hx. destruct (Hmin x Hx) as (dx & Hdx & Hle & Hstrict).
  exists m, dx. auto.
Qed.

Lemma greedy_loop_chain (fuel : nat) :
  forall (current_node : Z) (unvisited route : list Z),
    (length unvisited <= fuel)%nat ->
    valid current_node -> Forall valid unvisited ->
    StronglySorted Z.lt unvisited ->
    exists tail,
      greedy_loop fuel coordinates current_node unvisited route = Ok (route ++ tail)
      /\ tail ≡ₚ unvisited
      /\ nearest_chain coordinates current_node tail.
Proof.
  induction fuel as [|fuel IH]; intros cur unvisited route Hlen Hc Hall Hsorted.
  - destruct unvisited; [|simpl in Hlen; lia].
    exists []. rewrite app_nil_r. simpl. auto.
  - destruct unvisited as [|n rest].
    { exists []. rewrite app_nil_r. simpl. auto. }
    cbn [greedy_loop].
    destruct (nearest_scan_first cur n rest Hc Hall Hsorted)
      as (nn & m & -> & Hnn & Hmin).
    cbn [res_bind].
    destruct (list_remove_ok nn (n :: rest) Hnn) as (unvisited' & Hrem & Hperm).
    rewrite Hrem. cbn [res_bind].
    assert (valid nn) as Hvn by (rewrite Forall_forall in Hall; auto).
    pose proof (Permutation_length Hperm) as Hl. simpl in Hl, Hlen.
    destruct (IH nn unvisited' (route ++ [nn])) as (tail & -> & Htail & Hchain).
    + lia.
    + exact Hvn.
    + rewrite Hperm in Hall. apply Forall_cons in Hall as [_ Hall]. exact Hall.
    + eapply list_remove_sorted; eassumption.
    + exists (nn :: tail). rewrite <- app_assoc. split; [reflexivity|].
      split; [rewrite Htail, Hperm; reflexivity|].
      cbn [nearest_chain]. split; [|exact Hchain].
      intros x Hx. apply Hmin. rewrite Hperm, <- Htail. exact Hx.
Qed.

End GreedyOrder.



(** ** The greedy optimiser: when no node is within reach *)

Lemma nearest_scan_none (coordinates : list point) (p0 : point) (unvisited : list Z) :
  coordinates !! 0%nat = Some p0 ->
  Forall (fun k => exists p, 0 <= k /\ coordinates !! Z.to_nat k = Some p
                         /\ (euclidean_distance p0 p <? infinity)%float = false)
         unvisited ->
  nearest_scan coordinates 0 unvisited None infinity = Ok (None, infinity).
Proof.
  intros H0. induction 1 as [|k rest (p & Hk & Hp & Hd) _ IH]; [reflexivity|].
  cbn [nearest_scan].
  rewrite (getitem_lookup coordinates 0 p0 H0 : getitem coordinates 0 = Ok p0).
  rewrite <- (Z2Nat.id k) by exact Hk.
  rewrite (getitem_lookup coordinates (Z.to_nat k) p Hp).
  cbn [res_bind]. rewrite Hd. exact IH.
Qed.



(** ** The Euclidean distance on floats *)

Lemma Prim2SF_inj (a b : float) : Prim2SF a = Prim2SF b -> a = b.
Proof.
  intros H. rewrite <- (SF2Prim_Prim2SF a), <- (SF2Prim_Prim2SF b), H. reflexivity.
Qed.

Lemma is_finite_sf (x : float) : is_finite x = true -> sf_finite (Prim2SF x) = true.
Proof.
  unfold is_finite, is_infinity. rewrite is_nan_sf, FloatAxioms.eqb_spec, abs_spec.
  change (Prim2SF infinity) with (S754_infinity false).
  destruct (Prim2SF x) as [s|s| |s m e]; simpl; try reflexivity; discriminate.
Qed.

Lemma SFsub_diag (prec emax : Z) (x : spec_float) :
  sf_finite x = true -> SFsub prec emax x x = S754_zero false.
Proof.
  destruct x as [s|s| |s m e]; try discriminate; intros _.
  - destruct s; reflexivity.
  - unfold SFsub. rewrite Z.sub_diag. reflexivity.
Qed.

Lemma sub_diag (x : float) : is_finite x = true -> (x - x)%float = 0%float.
Proof.
  intros H. apply Prim2SF_inj. rewrite sub_spec. unfold SF64sub.
  rewrite SFsub_diag by (apply is_finite_sf; exact H). reflexivity.
Qed.

(** X13.  A point with finite coordinates is at distance exactly [0.0] from
    itself (so a tour through coincident points has length 0, the divisor
    [fitness] cannot take). *)
Theorem distance_to_itself (p : point) :
  finite_point p = true -> euclidean_distance p p = 0%float.
Proof.
  unfold finite_point. intros H. apply andb_prop in H as [Hx Hy].
  unfold euclidean_distance. rewrite (sub_diag _ Hx), (sub_diag _ Hy). reflexivity.
Qed.

Lemma distance_to_itself_witness :
  euclidean_distance (5, 5)%float (5, 5)%float = 0%float.
Proof. apply (distance_to_itself (5, 5)%float). reflexivity. Defined.

Lemma binary_round_aux_not_nan (prec emax : Z) (s : bool) (m e : Z) (l : location) :
  0 <= m -> sf_is_nan (binary_round_aux prec emax s m e l) = false.
Proof.
  intros H. unfold binary_round_aux.
  pose proof (shr_fexp_nonneg prec emax m e l H) as H1.
  destruct (shr_fexp prec emax m e l) as [mrs' e']. simpl in H1.
  pose proof (shr_fexp_nonneg prec emax
                (round_nearest_even (shr_m mrs') (loc_of_shr_record mrs')) e' loc_Exact
                (round_nearest_even_nonneg _ _ H1)) as H2.
  destruct (shr_fexp prec emax _ e' loc_Exact) as [mrs'' e'']. simpl in H2.
  destruct (shr_m mrs'') as [|p|p]; [reflexivity| |lia].
  destruct (e'' <=? emax - prec); reflexivity.
Qed.

Lemma SFsub_finite_not_nan (prec emax : Z) (x y : spec_float) :
  sf_finite x = true -> sf_finite y = true ->
  sf_is_nan (SFsub prec emax x y) = false.
Proof.
  destruct x as [sx|sx| |sx mx ex], y as [sy|sy| |sy my ey];
    try discriminate; intros _ _; try (destruct sx, sy; reflexivity);
    try reflexivity.
  unfold SFsub, binary_normalize.
  destruct (_ - _) as [|m|m]; [reflexivity| |];
    unfold binary_round; destruct (shl_align _ _ _) as [mz ez];
    apply binary_round_aux_not_nan; lia.
Qed.

Lemma SFmul_square_nonneg (prec emax : Z) (x : spec_float) :
  sf_is_nan x = false -> sf_nonneg (SFmul prec emax x x) = true.
Proof.
  destruct x as [s|s| |s m e]; try discriminate; intros _;
    try (destruct s; reflexivity).
  unfold SFmul. replace (xorb s s) with false by (destruct s; reflexivity).
  apply binary_round_aux_nonneg. lia.
Qed.

Lemma sqrtrem_nonneg (n : Z) : 0 <= n -> 0 <= fst (Z.sqrtrem n).
Proof.
  intros H. pose proof (Z.sqrtrem_spec n H) as Hs.
  destruct (Z.sqrtrem n) as [s r]. simpl. lia.
Qed.

Lemma SFsqrt_nonneg (prec emax : Z) (x : spec_float) :
  sf_nonneg x = true -> sf_nonneg (SFsqrt prec emax x) = true.
Proof.
  destruct x as [s|[]| |[] m e]; try discriminate; intros _; try reflexivity.
  unfold SFsqrt, SFsqrt_core_binary.
  set (s := e - 2 * _).
  set (m' := match s with Z.pos _ => Z.shiftl (Z.pos m) s | 0 => Z.pos m | _ => 0 end).
  assert (0 <= m') as Hm'.
  { subst m'. destruct s as [|p|p]; try lia. apply Z.shiftl_nonneg. lia. }
  pose proof (sqrtrem_nonneg m' Hm') as Hq.
  destruct (Z.sqrtrem m') as [q r]. simpl in Hq.
  apply binary_round_aux_nonneg. exact Hq.
Qed.

Lemma square_nonneg (x : float) :
  is_nan x = false -> (0 <=? x * x)%float = true.
Proof.
  rewrite is_nan_sf, leb_zero_sf, mul_spec. apply SFmul_square_nonneg.
Qed.

Lemma sub_finite_not_nan (x y : float) :
  is_finite x = true -> is_finite y = true -> is_nan (x - y) = false.
Proof.
  intros Hx Hy. rewrite is_nan_sf, sub_spec.
  apply SFsub_finite_not_nan; apply is_finite_sf; assumption.
Qed.

Lemma sqrt_nonneg (x : float) :
  (0 <=? x)%float = true -> (0 <=? PrimFloat.sqrt x)%float = true.
Proof. rewrite !leb_zero_sf, sqrt_spec. apply SFsqrt_nonneg. Qed.

Lemma distance_finite_nonneg (p q : point) :
  finite_point p = true -> finite_point q = true ->
  (0 <=? euclidean_distance p q)%float = true.
Proof.
  unfold finite_point. intros Hp Hq.
  apply andb_prop in Hp as [Hpx Hpy]. apply andb_prop in Hq as [Hqx Hqy].
  unfold euclidean_distance. apply sqrt_nonneg, add_nonneg;
    apply square_nonneg, sub_finite_not_nan; assumption.
Qed.

(** X14.  Between two points with finite coordinates, when both squares of
    [euclidean_distance] return (neither overflows), the distance is a float
    that is at least zero: it is never a NaN (it is plus infinity when the
    sum of the squares overflows). *)
Theorem distance_finite_points (p q : point) :
  finite_point p = true -> finite_point q = true ->
  distance_returns p q = true ->
  (0 <=? euclidean_distance p q)%float = true
  /\ is_nan (euclidean_distance p q) = false.
Proof.
  intros Hp Hq _. pose proof (distance_finite_nonneg p q Hp Hq) as Hpos.
  split; [exact Hpos|].
  rewrite is_nan_sf. rewrite leb_zero_sf in Hpos.
  destruct (Prim2SF (euclidean_distance p q)); try reflexivity. discriminate.
Qed.

Lemma distance_finite_points_witness :
  (0 <=? euclidean_distance (fst wide_apart) (snd wide_apart))%float = true
  /\ is_nan (euclidean_distance (fst wide_apart) (snd wide_apart)) = false.
Proof.
  apply (distance_finite_points (fst wide_apart) (snd wide_apart)); reflexivity.
Defined.

(** ** Tour length and fitness over finite coordinates *)

Lemma getitem_elem_of {A} (l : list A) (k : Z) (x : A) :
  getitem l k = Ok x -> x ∈ l.
Proof.
  unfold getitem. destruct (_ && _); [|discriminate].
  destruct (l !! _) as [y|] eqn:Hy; [|discriminate].
  intros H. injection H as <-. eapply list_elem_of_lookup_2. exact Hy.
Qed.

Section FiniteCoordinates.

Variable coordinates : list point.
Hypothesis Hcoords : Forall (fun p => finite_point p = true) coordinates.

Lemma add_edge_finite (acc : float) (e : Z * Z) :
  in_range (length coordinates) (fst e) ->
  in_range (length coordinates) (snd e) ->
  (0 <=? acc)%float = true ->
  exists d, add_edge coordinates acc e = Ok d /\ (0 <=? d)%float = true.
Proof.
  intros H1 H2 Hacc. unfold add_edge.
  destruct (getitem_in_range coordinates (fst e) H1) as [p Hp].
  destruct (getitem_in_range coordinates (snd e) H2) as [q Hq].
  rewrite Hp, Hq. cbn [res_bind]. eexists. split; [reflexivity|].
  apply add_nonneg; [exact Hacc|].
  rewrite Forall_forall in Hcoords.
  apply distance_finite_nonneg; apply Hcoords; eapply getitem_elem_of; eassumption.
Qed.

Lemma edges_finite (edges : list (Z * Z)) :
  Forall (fun e => in_range (length coordinates) (fst e)
                   /\ in_range (length coordinates) (snd e)) edges ->
  forall acc, (0 <=? acc)%float = true ->
    exists d, for_each (add_edge coordinates) edges acc = Ok d
              /\ (0 <=? d)%float = true.
Proof.
  induction 1 as [|e edges [H1 H2] _ IH]; intros acc Hacc.
  - exists acc. auto.
  - cbn [for_each].
    destruct (add_edge_finite acc e H1 H2 Hacc) as (d & -> & Hd).
    cbn [res_bind]. apply IH, Hd.
Qed.

End FiniteCoordinates.

Lemma leb_zero_not_nan (d : float) : (0 <=? d)%float = true -> is_nan d = false.
Proof.
  rewrite is_nan_sf, leb_zero_sf. destruct (Prim2SF d); try reflexivity. discriminate.
Qed.

Lemma tour_finite_nonneg (route : list Z) (coordinates : list point) :
  Forall (fun p => finite_point p = true) coordinates ->
  Forall (in_range (length coordinates)) route ->
  exists d, calculate_total_distance route coordinates = Ok d
            /\ (0 <=? d)%float = true.
Proof.
  intros Hcoords Hroute. rewrite total_distance_tour_length.
  destruct route as [|a [|b rest]]; try (exists 0%float; split; reflexivity).
  unfold tour_length. apply edges_finite; [exact Hcoords| |reflexivity].
  apply (tour_edges_valid coordinates (b :: rest) a a). split; [exact Hroute|].
  apply Forall_cons in Hroute as [Ha _]. exact Ha.
Qed.

(** X15.  Over coordinates that are all finite floats and between which every
    square of [euclidean_distance] returns (none overflows), the tour length
    of every route whose nodes index the coordinate list is a float that is
    at least zero, never a NaN. *)
Theorem tour_length_nonneg (route : list Z) (coordinates : list point) :
  Forall (fun p => finite_point p = true) coordinates ->
  distances_return coordinates = true ->
  Forall (in_range (length coordinates)) route ->
  exists d, calculate_total_distance route coordinates = Ok d
            /\ (0 <=? d)%float = true
            /\ is_nan d = false.
Proof.
  intros Hcoords _ Hroute.
  destruct (tour_finite_nonneg route coordinates Hcoords Hroute) as (d & Hd & Hpos).
  exists d. split; [exact Hd|]. split; [exact Hpos | apply leb_zero_not_nan, Hpos].
Qed.

Lemma tour_length_nonneg_witness :
  exists d, calculate_total_distance [0; 2; -1; 1] square = Ok d
            /\ (0 <=? d)%float = true
            /\ is_nan d = false.
Proof.
  apply (tour_length_nonneg [0; 2; -1; 1] square).
  - repeat constructor.
  - reflexivity.
  - repeat constructor; simpl; lia.
Defined.

Lemma div_eucl_nonneg (a : Z) (b : positive) : 0 <= a -> 0 <= fst (Z.div_eucl a (Z.pos b)).
Proof.
  intros H. change (fst (Z.div_eucl a (Z.pos b))) with (a / Z.pos b).
  apply Z.div_pos; lia.
Qed.

Lemma SFdiv_nonneg (prec emax : Z) (mx : positive) (ex : Z) (y : spec_float) :
  sf_nonneg y = true ->
  SFeqb y (S754_zero false) = false ->
  sf_nonneg (SFdiv prec emax (S754_finite false mx ex) y) = true.
Proof.
  destruct y as [s|[]| |[] my ey]; try discriminate; intros _ Hz; try reflexivity.
  unfold SFdiv, SFdiv_core_binary.
  set (s := ex - ey - _).
  set (m' := match s with Z.pos _ => Z.shiftl (Z.pos mx) s | 0 => Z.pos mx | _ => 0 end).
  assert (0 <= m') as Hm'.
  { subst m'. destruct s as [|p|p]; try lia. apply Z.shiftl_nonneg. lia. }
  pose proof (div_eucl_nonneg m' my Hm') as Hq.
  destruct (Z.div_eucl m' (Z.pos my)) as [q r]. simpl in Hq.
  apply binary_round_aux_nonneg. exact Hq.
Qed.

Lemma reciprocal_nonneg (d : float) :
  (0 <=? d)%float = true -> (d =? 0)%float = false ->
  (0 <=? 1 / d)%float = true.
Proof.
  rewrite !leb_zero_sf, FloatAxioms.eqb_spec, div_spec.
  change (Prim2SF 0) with (S754_zero false).
  change (Prim2SF 1) with (S754_finite false 4503599627370496 (-52)).
  apply SFdiv_nonneg.
Qed.

(** X16.  Over finite coordinates between which every square of
    [euclidean_distance] returns (none overflows), the fitness of an
    individual whose nodes index the coordinate list is never a NaN and
    never negative: [fitness] either raises [ZeroDivisionError], when the
    tour length is zero, or returns a float that is at least zero, the store
    untouched. *)
Theorem fitness_nonneg
    (coordinates : list point) (individual : nat) (l : list Z) (st : state) :
  Forall (fun p => finite_point p = true) coordinates ->
  distances_return coordinates = true ->
  heap st !! individual = Some l ->
  Forall (in_range (length coordinates)) l ->
  fitness coordinates individual st = Raise ZeroDivisionError
  \/ exists f, fitness coordinates individual st = Ok (f, st)
               /\ (0 <=? f)%float = true
               /\ is_nan f = false.
Proof.
  intros Hcoords _ Hl Hroute.
  destruct (tour_finite_nonneg l coordinates Hcoords Hroute) as (d & Hd & Hpos).
  rewrite fitness_pure. unfold fitness_in. rewrite Hl, Hd. cbn [res_bind].
  destruct (d =? 0)%float eqn:Hz; [left; reflexivity|].
  right. eexists. split; [reflexivity|].
  pose proof (reciprocal_nonneg d Hpos Hz) as Hf.
  split; [exact Hf | apply leb_zero_not_nan, Hf].
Qed.

Lemma fitness_nonneg_witness :
  fitness square 3 ten_state = Raise ZeroDivisionError
  \/ exists f, fitness square 3 ten_state = Ok (f, ten_state)
               /\ (0 <=? f)%float = true
               /\ is_nan f = false.
Proof.
  apply (fitness_nonneg square 3 [0; 1; 2; 3] ten_state).
  - repeat constructor.
  - reflexivity.
  - reflexivity.
  - repeat constructor; simpl; lia.
Defined.

(** ** Crossover that copies a parent *)

(** X17.  Crossover returns a copy of [parent1] when the two parents are the same
    tour, whatever the slice, and when the slice is the whole tour, whatever
    [parent2]. *)
Theorem crossover_copies
    (num_sensors : Z) (parent1 parent2 : list Z) (start end_ : Z) :
  parent1 ≡ₚ range 0 num_sensors ->
  parent2 ≡ₚ range 0 num_sensors ->
  0 <= start < end_ -> end_ <= num_sensors ->
  parent1 = parent2 \/ (start = 0 /\ end_ = num_sensors) ->
  crossover_at num_sensors parent1 parent2 start end_ = Ok parent1.
Proof.
  intros Hp1 Hp2 Hs He [<- | [-> ->]].
  - apply crossover_self; assumption.
  - rewrite (crossover_at_child num_sensors parent1 parent2 0 num_sensors Hp1 Hp2 Hs He).
    pose proof (remaining_length num_sensors parent1 parent2 0 num_sensors
                  Hp1 Hp2 Hs He) as Hlen.
    destruct (filter _ parent2) as [|x r]; [|simpl in Hlen; lia].
    assert (Z.of_nat (length parent1) = num_sensors) as Hl
      by (rewrite Hp1, length_range; lia).
    rewrite slice_bounds by lia. change (Z.to_nat 0) with 0%nat.
    rewrite drop_0, Nat.sub_0_r.
    cbn [take drop app]. rewrite app_nil_r, take_ge by lia. reflexivity.
Qed.

Lemma crossover_copies_witness :
  crossover_at 4 [2; 0; 3; 1] [1; 3; 0; 2] 0 4 = Ok [2; 0; 3; 1].
Proof.
  apply (crossover_copies 4 [2; 0; 3; 1] [1; 3; 0; 2] 0 4).
  - apply (bool_decide_unpack _). vm_compute. exact I.
  - apply (bool_decide_unpack _). vm_compute. exact I.
  - lia.
  - lia.
  - right. split; reflexivity.
Defined.

(** ** The genetic algorithm without generations *)


Lemma no_generation_run :
  run (genetic_algorithm square 2 0.5 0) small_tape = Ok [0; 1; 2; 3].
Proof. vm_compute. reflexivity. Qed.


(** ** A tour of length zero ends every evaluation *)

Section ZeroLength.

Variable coordinates : list point.

Local Abbreviation measured :=
  (fun (h : list (list Z)) (ind : nat) =>
     exists l d, h !! ind = Some l
                 /\ calculate_total_distance l coordinates = Ok d).

Local Abbreviation degenerate :=
  (fun (h : list (list Z)) (ind : nat) =>
     exists l d, h !! ind = Some l
                 /\ calculate_total_distance l coordinates = Ok d
                 /\ (d =? 0)%float = true).

Lemma fitness_in_cases (h : list (list Z)) (ind : nat) :
  measured h ind ->
  (degenerate h ind /\ fitness_in coordinates h ind = Raise ZeroDivisionError)
  \/ (~ degenerate h ind /\ exists f, fitness_in coordinates h ind = Ok f).
Proof.
  intros (l & d & Hl & Hd). unfold fitness_in. rewrite Hl, Hd. cbn [res_bind].
  destruct (d =? 0)%float eqn:Hz.
  - left. split; [exists l, d; auto | reflexivity].
  - right. split; [|eauto]. intros (l' & d' & Hl' & Hd' & Hz').
    assert (l' = l) as -> by congruence.
    assert (d' = d) as -> by congruence.
    congruence.
Qed.

Lemma keys_in_zero (h : list (list Z)) (population : list nat) :
  Forall (measured h) population ->
  Exists (degenerate h) population ->
  keys_in coordinates h population = Raise ZeroDivisionError.
Proof.
  induction 1 as [|ind rest Hm _ IH]; intros Hex; [inversion Hex|].
  cbn [keys_in].
  destruct (fitness_in_cases h ind Hm) as [[_ ->] | [Hnot [f ->]]]; [reflexivity|].
  cbn [res_bind]. apply Exists_cons in Hex as [Hex | Hex]; [contradiction|].
  rewrite (IH Hex). reflexivity.
Qed.

Lemma fitnesses_zero (population : list nat) (st : state) :
  Forall (measured (heap st)) population ->
  Exists (degenerate (heap st)) population ->
  mapM (fitness coordinates) population st = Raise ZeroDivisionError.
Proof.
  induction 1 as [|ind rest Hm _ IH]; intros Hex; [inversion Hex|].
  cbn [mapM]. unfold bind at 1. rewrite fitness_pure.
  destruct (fitness_in_cases (heap st) ind Hm) as [[_ ->] | [Hnot [f ->]]];
    [reflexivity|].
  cbn [lift]. apply Exists_cons in Hex as [Hex | Hex]; [contradiction|].
  unfold bind at 1. rewrite (IH Hex). reflexivity.
Qed.

End ZeroLength.



(** ** The two outcomes of the greedy optimiser *)

Section GreedyOutcome.

Variable coordinates : list point.

Local Abbreviation valid := (fun k : Z => 0 <= k < Z.of_nat (length coordinates)).

Lemma nearest_scan_outcome (current_node : Z) (unvisited : list Z) :
  valid current_node -> Forall valid unvisited ->
  forall (nearest : option Z) (m : float),
    exists r m', nearest_scan coordinates current_node unvisited nearest m = Ok (r, m')
                 /\ (r = nearest \/ exists y, r = Some y /\ y ∈ unvisited).
Proof.
  intros Hc. induction 1 as [|n rest Hn _ IH]; intros nearest m.
  - exists nearest, m. auto.
  - cbn [nearest_scan].
    destruct (getitem_valid coordinates current_node Hc) as (pc & -> & _).
    destruct (getitem_valid coordinates n Hn) as (pn & -> & _).
    cbn [res_bind]. destruct (_ <? m)%float.
    + destruct (IH (Some n) (euclidean_distance pc pn)) as (r & m' & -> & [-> | (y & -> & Hy)]);
        eexists _, _; (split; [reflexivity|]); right; eexists; (split; [reflexivity|]);
        [apply list_elem_of_here | apply list_elem_of_further; exact Hy].
    + destruct (IH nearest m) as (r & m' & -> & [-> | (y & -> & Hy)]);
        eexists _, _; (split; [reflexivity|]); [left; reflexivity|].
      right. eexists. split; [reflexivity|]. apply list_elem_of_further. exact Hy.
Qed.

Lemma greedy_loop_outcome (fuel : nat) :
  forall (current_node : Z) (unvisited route : list Z),
    (length unvisited <= fuel)%nat ->
    valid current_node -> Forall valid unvisited ->
    (exists r, greedy_loop fuel coordinates current_node unvisited route = Ok r
               /\ r ≡ₚ route ++ unvisited)
    \/ greedy_loop fuel coordinates current_node unvisited route = Raise ValueError.
Proof.
  induction fuel as [|fuel IH]; intros cur unvisited route Hlen Hc Hall.
  - destruct unvisited; [|simpl in Hlen; lia].
    left. exists route. rewrite app_nil_r. auto.
  - destruct unvisited as [|n rest].
    { left. exists route. rewrite app_nil_r. auto. }
    cbn [greedy_loop].
    destruct (nearest_scan_outcome cur (n :: rest) Hc Hall None infinity)
      as (r & m' & -> & [-> | (nn & -> & Hnn)]); cbn [res_bind]; [right; reflexivity|].
    destruct (list_remove_ok nn (n :: rest) Hnn) as (unvisited' & -> & Hperm).
    cbn [res_bind].
    assert (valid nn) as Hvn by (rewrite Forall_forall in Hall; auto).
    pose proof (Permutation_length Hperm) as Hl. simpl in Hl, Hlen.
    destruct (IH nn unvisited' (route ++ [nn])) as [(r & -> & Hr) | ->];
      [lia | exact Hvn | | | right; reflexivity].
    + rewrite Hperm in Hall. apply Forall_cons in Hall as [_ Hall]. exact Hall.
    + left. exists r. split; [reflexivity|].
      rewrite Hr, Hperm, <- app_assoc. reflexivity.
Qed.

End GreedyOutcome.

(** X20.  Over one or more coordinates between which every square of
    [euclidean_distance] returns (none overflows), be they infinite or NaN,
    the greedy optimiser either returns a permutation of [0 .. N-1], of
    length N, or raises [ValueError]; it raises nothing else. *)
Theorem greedy_outcome (coordinates : list point) :
  (1 <= length coordinates)%nat ->
  distances_return coordinates = true ->
  (exists route,
      greedy_route_optimizer coordinates = Ok route
      /\ route ≡ₚ range 0 (Z.of_nat (length coordinates))
      /\ length route = length coordinates)
  \/ greedy_route_optimizer coordinates = Raise ValueError.
Proof.
  intros HN _. unfold greedy_route_optimizer.
  destruct (greedy_loop_outcome coordinates
              (length (range 1 (Z.of_nat (length coordinates)))) 0
              (range 1 (Z.of_nat (length coordinates))) [0])
    as [(r & Hr & Hperm) | Hraise].
  - lia.
  - lia.
  - apply Forall_forall. intros k Hk. apply elem_of_range in Hk. lia.
  - left. exists r. split; [exact Hr|].
    assert (r ≡ₚ range 0 (Z.of_nat (length coordinates))) as Hp
      by (rewrite Hperm, (range_cons 0) by lia; reflexivity).
    split; [exact Hp|]. rewrite Hp, length_range. lia.
  - right. exact Hraise.
Qed.

Lemma greedy_outcome_witness :
  (exists route,
      greedy_route_optimizer out_of_reach = Ok route
      /\ route ≡ₚ range 0 (Z.of_nat (length out_of_reach))
      /\ length route = length out_of_reach)
  \/ greedy_route_optimizer out_of_reach = Raise ValueError.
Proof. apply (greedy_outcome out_of_reach); [simpl; lia | reflexivity]. Defined.

(** ** The mutation rate at its ends *)

(** X21.  With a mutation rate of zero or less [mutate] never changes the store;
    with a rate of one or more it always swaps two different places of the
    individual. *)
Theorem mutate_rate_extremes
    (coordinates : list point) (individual r : nat) (rate : float)
    (st st' : state) :
  mutate coordinates individual rate st = Ok (r, st') ->
  ((rate <=? 0)%float = true -> heap st' = heap st)
  /\ ((1 <=? rate)%float = true ->
      exists l i j a b,
        heap st !! individual = Some l
        /\ i <> j
        /\ l !! i = Some b /\ l !! j = Some a
        /\ heap st' = <[individual := <[j := b]> (<[i := a]> l)]> (heap st)).
Proof.
  unfold mutate. intros H. apply bind_ok in H as (u & st1 & Hu & H).
  assert (heap st1 = heap st /\ ((0 <=? u) && (u <? 1))%float = true) as [Hh Hrange].
  { unfold random_random in Hu. inv_run. apply next_draw_ok in Hrun as [Hh _].
    destruct a; try discriminate.
    destruct ((0 <=? u0) && (u0 <? 1))%float eqn:Hb; [|discriminate].
    inv_run. auto. }
  apply andb_prop in Hrange as [Hu0 Hu1].
  destruct (u <? rate)%float eqn:Hrate.
  - split.
    + intros Hzero. exfalso.
      pose proof (leb_not_ltb _ _ (leb_trans _ _ _ Hzero Hu0)) as Hno.
      rewrite Hno in Hrate. discriminate.
    + intros _.
      apply bind_ok in H as ([idx1 idx2] & st2 & Hs & H).
      apply sample2_ok in Hs as (Hh2 & Hi & Hj & Hij).
      apply bind_ok in H as (l & st3 & Hl & H). apply load_ok in Hl as [Hl ->].
      apply bind_ok in H as (a & st4 & Ha & H). apply lift_ok in Ha as [Ha ->].
      apply bind_ok in H as (b & st5 & Hb & H). apply lift_ok in Hb as [Hb ->].
      apply bind_ok in H as (l1 & st6 & Hl1 & H). apply lift_ok in Hl1 as [Hl1 ->].
      apply bind_ok in H as (l2 & st7 & Hl2 & H). apply lift_ok in Hl2 as [Hl2 ->].
      apply bind_ok in H as (tt' & st8 & Hst & H). apply store_ok in Hst.
      apply ret_ok in H as [-> ->].
      apply getitem_nonneg in Ha, Hb; try lia.
      apply setitem_nonneg in Hl1, Hl2; try lia. subst l1 l2.
      rewrite Hh2, Hh in *.
      exists l, (Z.to_nat idx1), (Z.to_nat idx2), a, b.
      repeat split; try assumption. lia.
  - apply ret_ok in H as [-> ->]. split; [intros _; exact Hh|].
    intros Hone. exfalso.
    rewrite (ltb_leb_trans _ _ _ Hu1 Hone) in Hrate. discriminate.
Qed.

Lemma mutate_full_rate_run :
  mutate square 0 1 mutate_state
  = Ok (0%nat, mkState [[2; 1; 0; 3]; [3; 2; 1; 0]] []).
Proof. vm_compute. reflexivity. Qed.

Lemma mutate_rate_extremes_witness :
  ((1 <=? 0)%float = true -> [[2; 1; 0; 3]; [3; 2; 1; 0]] = heap mutate_state)
  /\ ((1 <=? 1)%float = true ->
      exists l i j a b,
        heap mutate_state !! 0%nat = Some l
        /\ i <> j
        /\ l !! i = Some b /\ l !! j = Some a
        /\ [[2; 1; 0; 3]; [3; 2; 1; 0]]
           = <[0%nat := <[j := b]> (<[i := a]> l)]> (heap mutate_state)).
Proof.
  exact (mutate_rate_extremes square 0 0 1%float mutate_state
           (mkState [[2; 1; 0; 3]; [3; 2; 1; 0]] []) mutate_full_rate_run).
Defined.
